(** * Filter flows and change detection of the Divar notification bot

    A shallow embedding of [app.py] and [divar_client.py]: the category
    catalogue, the step-by-step filter builder ([store_filter_value],
    the [flt:] branch of [on_callback]), the translation of stored
    filters into the search payload ([search]) and the background sweep
    ([check_once], [send_post], [send_initial_results]).

    Python dictionaries are finite maps ([gmap]); the JSON values met in
    a filter dictionary are integers and strings; exceptions are an
    explicit result type threaded through a state-and-error monad. *)

From Stdlib Require Import ZArith Ascii String.
From stdpp Require Import base option list strings gmap fin_maps sets sorting.

Local Open Scope string_scope.
Local Open Scope Z_scope.
Local Open Scope list_scope.

(** ** Values and exceptions *)

(** The values stored in a filter dictionary ([Dict[str, Any]], later a
    JSON column): [int(lo)] gives an integer, everything else is text. *)
Inductive json : Type :=
  | VInt (z : Z)
  | VStr (s : string).

#[global] Instance json_eq_dec : EqDecision json.
Proof. solve_decision. Defined.

(** The Python exceptions the modelled code can raise. *)
Inductive exn : Type :=
  | KeyError (key : string)
  | ValueError
  | IndexError
  | ProviderError
  | TransportError.

Inductive res (A : Type) : Type :=
  | Ok (a : A)
  | Raise (e : exn).
Arguments Ok {A} a.
Arguments Raise {A} e.

(** ** Strings: [in], [split] and [int] *)

(** ["-" in value] for a one-character needle. *)
Fixpoint str_contains (sep : ascii) (s : string) : bool :=
  match s with
  | EmptyString => false
  | String c r => if Ascii.eqb c sep then true else str_contains sep r
  end.

(** [s.split(sep, maxsplit)]: at most [maxsplit] cuts, from the left. *)
Fixpoint str_splitn (sep : ascii) (maxsplit : nat) (s : string) : list string :=
  match s with
  | EmptyString => [EmptyString]
  | String c r =>
      match maxsplit with
      | O => [s]
      | S n =>
          if Ascii.eqb c sep then EmptyString :: str_splitn sep n r
          else match str_splitn sep maxsplit r with
               | lo :: rest => String c lo :: rest
               | [] => [String c EmptyString]
               end
      end
  end.

(** [s.split(sep)] without a limit. *)
Definition str_split (sep : ascii) (s : string) : list string :=
  str_splitn sep (String.length s) s.

(** [s.startswith(p)] *)
Definition startswith (p s : string) : bool := String.prefix p s.

(** Truthiness of an optional string: [None] and [""] are false. *)
Definition truthy (o : option string) : bool :=
  match o with
  | Some (String _ _) => true
  | _ => false
  end.

(** *** [int] on text

    [int(s)] first brings the text to ASCII: a character beyond ASCII
    is replaced by a space when it is a blank and by its ASCII digit
    when it is a decimal digit of any script, and makes the literal
    invalid otherwise.  What is left is read in base ten: white space
    on both sides, an optional sign, digits with single underscores
    between them.  A string holds the UTF-8 bytes of the text. *)

(** The blanks beyond ASCII (Unicode 14.0, the tables of Python 3.11). *)
Definition unicode_spaces : list N :=
  [133; 160; 5760; 8192; 8193; 8194; 8195; 8196; 8197; 8198; 8199; 8200;
   8201; 8202; 8232; 8233; 8239; 8287; 12288]%N.

(** The digit zero of every decimal number system beyond ASCII; the
    nine code points after it are its digits 1 to 9. *)
Definition unicode_zeros : list N :=
  [1632; 1776; 1984; 2406; 2534; 2662; 2790; 2918; 3046; 3174; 3302; 3430;
   3558; 3664; 3792; 3872; 4160; 4240; 6112; 6160; 6470; 6608; 6784; 6800;
   6992; 7088; 7232; 7248; 42528; 43216; 43264; 43472; 43504; 43600; 44016;
   65296; 66720; 68912; 69734; 69872; 69942; 70096; 70384; 70736; 70864;
   71248; 71360; 71472; 71904; 72016; 72784; 73040; 73120; 92768; 92864;
   93008; 120782; 120792; 120802; 120812; 120822; 123200; 123632; 125264;
   130032]%N.

Fixpoint decimal_in (zeros : list N) (cp : N) : option N :=
  match zeros with
  | [] => None
  | z :: rest =>
      if ((z <=? cp) && (cp <=? z + 9))%N then Some (cp - z)%N
      else decimal_in rest cp
  end.

(** The ASCII character that stands for the code point [cp] > 127. *)
Definition ascii_image (cp : N) : option ascii :=
  if existsb (N.eqb cp) unicode_spaces then Some " "%char
  else (λ d, ascii_of_N (48 + d)) <$> decimal_in unicode_zeros cp.

(** The payload of a continuation byte. *)
Definition continuation (c : ascii) : option N :=
  let n := N_of_ascii c in
  if ((128 <=? n) && (n <=? 191))%N then Some (n - 128)%N else None.

(** The text brought to ASCII; [None] when it holds a character beyond
    ASCII that is neither a blank nor a decimal digit (bytes that are
    no UTF-8 spell no text at all). *)
Fixpoint to_ascii (s : string) : option string :=
  match s with
  | EmptyString => Some EmptyString
  | String c0 r0 =>
      let b0 := N_of_ascii c0 in
      if (b0 <? 128)%N then String c0 <$> to_ascii r0
      else
        match r0 with
        | EmptyString => None
        | String c1 r1 =>
            if (b0 <? 224)%N then
              if (194 <=? b0)%N then
                x1 ← continuation c1;
                a ← ascii_image ((b0 - 192) * 64 + x1)%N;
                String a <$> to_ascii r1
              else None
            else
              match r1 with
              | EmptyString => None
              | String c2 r2 =>
                  if (b0 <? 240)%N then
                    x1 ← continuation c1;
                    x2 ← continuation c2;
                    let cp := ((b0 - 224) * 4096 + x1 * 64 + x2)%N in
                    if ((2048 <=? cp)
                        && negb ((55296 <=? cp) && (cp <=? 57343)))%N
                    then a ← ascii_image cp; String a <$> to_ascii r2
                    else None
                  else
                    match r2 with
                    | EmptyString => None
                    | String c3 r3 =>
                        x1 ← continuation c1;
                        x2 ← continuation c2;
                        x3 ← continuation c3;
                        let cp := ((b0 - 240) * 262144 + x1 * 4096
                                   + x2 * 64 + x3)%N in
                        if ((b0 <=? 244) && (65536 <=? cp)
                            && (cp <=? 1114111))%N
                        then a ← ascii_image cp; String a <$> to_ascii r3
                        else None
                    end
              end
        end
  end.

(** The white space skipped around an ASCII literal: tab, line feed,
    vertical tab, form feed, carriage return and space. *)
Definition is_space (c : ascii) : bool :=
  let n := N_of_ascii c in
  ((9 <=? n) && (n <=? 13) || (n =? 32))%N.

Definition digit_of (c : ascii) : option Z :=
  let n := Z.of_N (N_of_ascii c) in
  if (48 <=? n) && (n <=? 57) then Some (n - 48) else None.

Fixpoint lstrip (s : string) : string :=
  match s with
  | String c r => if is_space c then lstrip r else s
  | EmptyString => EmptyString
  end.

Fixpoint rstrip (s : string) : string :=
  match s with
  | EmptyString => EmptyString
  | String c r =>
      match rstrip r with
      | EmptyString => if is_space c then EmptyString else String c EmptyString
      | r' => String c r'
      end
  end.

(** Decimal digits with single underscores between them; [after_digit]
    tells whether the previous character was a digit. *)
Fixpoint int_digits (acc : Z) (after_digit : bool) (s : string) : option Z :=
  match s with
  | EmptyString => if after_digit then Some acc else None
  | String c r =>
      match digit_of c with
      | Some d => int_digits (10 * acc + d) true r
      | None =>
          if Ascii.eqb c "_"%char && after_digit then int_digits acc false r
          else None
      end
  end.

(** An ASCII literal in base ten: surrounding white space, an optional
    sign, digits. *)
Definition parse_long (s : string) : option Z :=
  match rstrip (lstrip s) with
  | String "-" r => Z.opp <$> int_digits 0 false r
  | String "+" r => int_digits 0 false r
  | r => int_digits 0 false r
  end.

(** [int(s)] on text; [None] stands for [ValueError].  The limit the
    interpreter puts on the length of a literal (4300 digits unless
    configured otherwise) is not part of the model: where the outcome
    of a statement depends on it, the literal is taken to be shorter. *)
Definition py_int (s : string) : option Z :=
  to_ascii s ≫= parse_long.

(** ** The category catalogue ([CATEGORY_FLOWS]) *)

Inductive step_type : Type := range | enum.

#[global] Instance step_type_eq_dec : EqDecision step_type.
Proof. solve_decision. Defined.

Record step_options : Type := {
  type : step_type;
  choices : list (string * string)   (* (label, value) *)
}.

Record flow_cfg : Type := {
  title : string;
  steps : list string;
  labels : gmap string string;
  options : gmap string step_options;
  map_keys : gmap string (string * string)
}.

Definition flow_car : flow_cfg :=
  {| title := "🚗 خودرو";
     steps := ["mileage"; "year"; "price"];
     labels := list_to_map [
       ("mileage", "کارکرد رو انتخاب کن:");
       ("year", "سال تولید رو انتخاب کن:");
       ("price", "محدوده قیمت رو انتخاب کن:")];
     options := list_to_map [
       ("mileage", {| type := range; choices := [
            ("۰-۵۰هزار", "0-50000");
            ("۵۰-۱۰۰هزار", "50000-100000");
            ("۱۰۰-۲۰۰هزار", "100000-200000");
            ("۲۰۰-۳۵۰هزار", "200000-350000");
            ("۳۵۰-۵۰۰هزار", "350000-500000");
            ("بالای ۵۰۰هزار", "500000-10000000")] |});
       ("year", {| type := range; choices := [
            ("۱۳۸۵-۱۳۹۰", "2006-2011");
            ("۱۳۹۰-۱۳۹۵", "2011-2016");
            ("۱۳۹۵-۱۴۰۰", "2016-2021");
            ("۱۴۰۰-۱۴۰۳", "2021-2025")] |});
       ("price", {| type := range; choices := [
            ("تا ۳۰۰م", "0-300000000");
            ("۳۰۰-۷۰۰م", "300000000-700000000");
            ("۷۰۰م-۱.۵م", "700000000-1500000000");
            ("بالای ۱.۵م", "1500000000-100000000000")] |})];
     map_keys := list_to_map [
       ("mileage", ("mileage_min", "mileage_max"));
       ("year", ("year_min", "year_max"));
       ("price", ("price_min", "price_max"))] |}.

Definition flow_real_estate : flow_cfg :=
  {| title := "🏠 املاک";
     steps := ["deal"; "type"; "meter"; "rooms"; "price"];
     labels := list_to_map [
       ("deal", "نوع معامله رو انتخاب کن:");
       ("type", "نوع ملک رو انتخاب کن:");
       ("meter", "متراژ رو انتخاب کن:");
       ("rooms", "تعداد اتاق:");
       ("price", "محدوده قیمت:")];
     options := list_to_map [
       ("deal", {| type := enum; choices := [
            ("خرید 🏷️", "buy");
            ("رهن/اجاره 🔄", "rent")] |});
       ("type", {| type := enum; choices := [
            ("آپارتمان", "apartment");
            ("خانه/ویلایی", "house");
            ("زمین/کلنگی", "land")] |});
       ("meter", {| type := range; choices := [
            ("تا ۶۰", "0-60");
            ("۶۰-۹۰", "60-90");
            ("۹۰-۱۲۰", "90-120");
            ("۱۲۰-۲۰۰", "120-200");
            ("۲۰۰+", "200-10000")] |});
       ("rooms", {| type := enum; choices := [
            ("۱", "1");
            ("۲", "2");
            ("۳", "3");
            ("۴+", "4plus")] |});
       ("price", {| type := range; choices := [
            ("تا ۵۰۰م", "0-500000000");
            ("۵۰۰م-۲م", "500000000-2000000000");
            ("۲م-۵م", "2000000000-5000000000");
            ("بیشتر", "5000000000-100000000000")] |})];
     map_keys := list_to_map [
       ("meter", ("meter_min", "meter_max"));
       ("price", ("price_min", "price_max"))] |}.

Definition flow_jobs : flow_cfg :=
  {| title := "💼 استخدام";
     steps := ["field"; "seniority"; "work_type"; "salary"];
     labels := list_to_map [
       ("field", "حوزه‌ی کاری رو انتخاب کن:");
       ("seniority", "سطح سابقه:");
       ("work_type", "نوع همکاری:");
       ("salary", "حقوق ماهانه:")];
     options := list_to_map [
       ("field", {| type := enum; choices := [
            ("برنامه‌نویسی 👨‍💻", "dev");
            ("طراحی 🎨", "design");
            ("فروش/مارکتینگ 📣", "sales");
            ("مالی/اداری 🧾", "admin")] |});
       ("seniority", {| type := enum; choices := [
            ("جونیور", "junior");
            ("مید", "mid");
            ("سینیور", "senior")] |});
       ("work_type", {| type := enum; choices := [
            ("حضوری 🏢", "onsite");
            ("دورکار 🏡", "remote");
            ("هیبرید 🔁", "hybrid")] |});
       ("salary", {| type := range; choices := [
            ("تا ۱۰م", "0-10000000");
            ("۱۰-۲۰م", "10000000-20000000");
            ("۲۰-۴۰م", "20000000-40000000");
            ("۴۰م+", "40000000-1000000000")] |})];
     map_keys := list_to_map [
       ("salary", ("price_min", "price_max"))] |}.

Definition flow_mobile : flow_cfg :=
  {| title := "📱 موبایل";
     steps := ["brand"; "storage"; "condition"; "price"];
     labels := list_to_map [
       ("brand", "برند گوشی:");
       ("storage", "حجم حافظه:");
       ("condition", "وضعیت:");
       ("price", "محدوده قیمت:")];
     options := list_to_map [
       ("brand", {| type := enum; choices := [
            ("Apple 🍎", "apple");
            ("Samsung 🌙", "samsung");
            ("Xiaomi ⚡", "xiaomi");
            ("Huawei", "huawei");
            ("Nokia", "nokia");
            ("Other", "other")] |});
       ("storage", {| type := enum; choices := [
            ("32GB", "32");
            ("64GB", "64");
            ("128GB", "128");
            ("256GB+", "256plus")] |});
       ("condition", {| type := enum; choices := [
            ("نو ✨", "new");
            ("در حد نو ✅", "like_new");
            ("کارکرده ♻️", "used")] |});
       ("price", {| type := range; choices := [
            ("تا ۵م", "0-5000000");
            ("۵-۱۰م", "5000000-10000000");
            ("۱۰-۲۰م", "10000000-20000000");
            ("۲۰م+", "20000000-1000000000")] |})];
     map_keys := list_to_map [
       ("price", ("price_min", "price_max"))] |}.

Definition flow_electronics : flow_cfg :=
  {| title := "🖥️ الکترونیک";
     steps := ["sub"; "condition"; "price"];
     labels := list_to_map [
       ("sub", "نوع دستگاه:");
       ("condition", "وضعیت:");
       ("price", "محدوده قیمت:")];
     options := list_to_map [
       ("sub", {| type := enum; choices := [
            ("لپ‌تاپ", "laptop");
            ("PC", "pc");
            ("مانیتور", "monitor");
            ("کنسول بازی", "console")] |});
       ("condition", {| type := enum; choices := [
            ("نو ✨", "new");
            ("در حد نو ✅", "like_new");
            ("کارکرده ♻️", "used")] |});
       ("price", {| type := range; choices := [
            ("تا ۱۰م", "0-10000000");
            ("۱۰-۳۰م", "10000000-30000000");
            ("۳۰-۶۰م", "30000000-60000000");
            ("۶۰م+", "60000000-1000000000")] |})];
     map_keys := list_to_map [
       ("price", ("price_min", "price_max"))] |}.

Definition flow_fashion : flow_cfg :=
  {| title := "👗 مد و پوشاک";
     steps := ["sub"; "size"; "condition"; "price"];
     labels := list_to_map [
       ("sub", "دسته پوشاک:");
       ("size", "سایز:");
       ("condition", "وضعیت:");
       ("price", "محدوده قیمت:")];
     options := list_to_map [
       ("sub", {| type := enum; choices := [
            ("زنانه", "women");
            ("مردانه", "men");
            ("بچه‌گانه", "kids");
            ("اکسسوری", "acc")] |});
       ("size", {| type := enum; choices := [
            ("S", "S");
            ("M", "M");
            ("L", "L");
            ("XL", "XL")] |});
       ("condition", {| type := enum; choices := [
            ("نو ✨", "new");
            ("در حد نو ✅", "like_new");
            ("کارکرده ♻️", "used")] |});
       ("price", {| type := range; choices := [
            ("تا ۵۰۰هزار", "0-500000");
            ("۵۰۰-۱.۵م", "500000-1500000");
            ("۱.۵-۳م", "1500000-3000000");
            ("۳م+", "3000000-100000000")] |})];
     map_keys := list_to_map [
       ("price", ("price_min", "price_max"))] |}.

Definition flow_home : flow_cfg :=
  {| title := "🛋️ خانه و آشپزخانه";
     steps := ["sub"; "condition"; "price"];
     labels := list_to_map [
       ("sub", "دسته:");
       ("condition", "وضعیت:");
       ("price", "محدوده قیمت:")];
     options := list_to_map [
       ("sub", {| type := enum; choices := [
            ("مبلمان", "furniture");
            ("فرش/قالی", "rug");
            ("یخچال/لباسشویی", "appliance")] |});
       ("condition", {| type := enum; choices := [
            ("نو ✨", "new");
            ("در حد نو ✅", "like_new");
            ("کارکرده ♻️", "used")] |});
       ("price", {| type := range; choices := [
            ("تا ۳م", "0-3000000");
            ("۳-۸م", "3000000-8000000");
            ("۸-۱۵م", "8000000-15000000");
            ("۱۵م+", "15000000-1000000000")] |})];
     map_keys := list_to_map [
       ("price", ("price_min", "price_max"))] |}.

Definition flow_entertainment : flow_cfg :=
  {| title := "🎮 سرگرمی";
     steps := ["sub"; "price"];
     labels := list_to_map [
       ("sub", "دسته سرگرمی:");
       ("price", "محدوده قیمت:")];
     options := list_to_map [
       ("sub", {| type := enum; choices := [
            ("بازی ویدئویی", "videogame");
            ("کتاب/مجله", "book");
            ("ابزار موسیقی", "music")] |});
       ("price", {| type := range; choices := [
            ("تا ۲م", "0-2000000");
            ("۲-۵م", "2000000-5000000");
            ("۵-۱۵م", "5000000-15000000");
            ("۱۵م+", "15000000-1000000000")] |})];
     map_keys := list_to_map [
       ("price", ("price_min", "price_max"))] |}.

Definition flow_animals : flow_cfg :=
  {| title := "🐶 حیوانات";
     steps := ["sub"; "age"; "price"];
     labels := list_to_map [
       ("sub", "نوع حیوان:");
       ("age", "سن:");
       ("price", "محدوده قیمت:")];
     options := list_to_map [
       ("sub", {| type := enum; choices := [
            ("سگ", "dog");
            ("گربه", "cat");
            ("پرنده", "bird");
            ("ماهی", "fish")] |});
       ("age", {| type := range; choices := [
            ("تا ۳ ماه", "0-3");
            ("۳-۱۲ ماه", "3-12");
            ("۱-۳ سال", "12-36");
            ("۳ سال+", "36-240")] |});
       ("price", {| type := range; choices := [
            ("تا ۳م", "0-3000000");
            ("۳-۱۰م", "3000000-10000000");
            ("۱۰-۳۰م", "10000000-30000000");
            ("۳۰م+", "30000000-1000000000")] |})];
     map_keys := list_to_map [
       ("age", ("age_min", "age_max"));
       ("price", ("price_min", "price_max"))] |}.

Definition CATEGORY_FLOWS_items : list (string * flow_cfg) :=
  [("car", flow_car);
   ("real_estate", flow_real_estate);
   ("jobs", flow_jobs);
   ("mobile", flow_mobile);
   ("electronics", flow_electronics);
   ("fashion", flow_fashion);
   ("home", flow_home);
   ("entertainment", flow_entertainment);
   ("animals", flow_animals)].
Definition CATEGORY_FLOWS : gmap string flow_cfg :=
  list_to_map CATEGORY_FLOWS_items.

(** ** [store_filter_value] *)

(** The filter dictionary is mutated in place; here the updated
    dictionary is returned.  Inside the [try], [filters[kmin]] is
    already assigned when [int(hi)] raises, and the handler then
    overwrites both keys. *)
Definition store_filter_value (category : string) (filters : gmap string json)
    (step value : string) : res (gmap string json) :=
  match CATEGORY_FLOWS !! category with
  | None => Raise (KeyError category)
  | Some cfg =>
      match map_keys cfg !! step with
      | Some (kmin, kmax) =>
          if str_contains "-" value then
            match str_splitn "-" 1 value with
            | [lo; hi] =>
                match py_int lo with
                | Some a =>
                    let filters1 := <[kmin := VInt a]> filters in
                    match py_int hi with
                    | Some b => Ok (<[kmax := VInt b]> filters1)
                    | None => Ok (<[kmax := VStr hi]> (<[kmin := VStr lo]> filters1))
                    end
                | None => Ok (<[kmax := VStr hi]> (<[kmin := VStr lo]> filters))
                end
            | _ => Raise ValueError
            end
          else Ok (<[kmax := VStr value]> (<[kmin := VStr value]> filters))
      | None => Ok (<[step := VStr value]> filters)
      end
  end.


(** ** The search payload ([divar_client.search]) *)

Definition CATEGORY_TOKENS : gmap string string :=
  list_to_map [
    ("car", "cars");
    ("real_estate", "real-estate");
    ("jobs", "jobs");
    ("mobile", "mobile-phones");
    ("electronics", "digital-devices");
    ("fashion", "apparel");
    ("home", "home-kitchen");
    ("entertainment", "entertainment");
    ("animals", "animals")].

(** One entry of [payload["query"]["search"]]; [filters.get(k)] is
    [None] (JSON null) for an absent key. *)
Record clause : Type := {
  c_value : string;
  c_min : option json;
  c_max : option json
}.

Record payload : Type := {
  q_category : string;
  q_search : list clause;
  q_cities : list string;
  q_page : Z
}.

#[global] Instance clause_eq_dec : EqDecision clause.
Proof. solve_decision. Defined.

(** [k in filters] *)
Definition has_key (k : string) (filters : gmap string json) : bool :=
  bool_decide (is_Some (filters !! k)).

Definition range_clause (name kmin kmax : string) (filters : gmap string json)
    : clause :=
  {| c_value := name; c_min := filters !! kmin; c_max := filters !! kmax |}.

(** Lines 73-103 of [search]: the payload is built by appending to the
    [search] list in this order: price, then (for cars) mileage and
    production year. *)
Definition search_payload (city_slug category_token : string)
    (filters : gmap string json) : payload :=
  let search0 : list clause := [] in
  let search1 :=
    if has_key "price_min" filters || has_key "price_max" filters
    then search0 ++ [range_clause "price" "price_min" "price_max" filters]
    else search0 in
  let search2 :=
    if String.eqb category_token "cars" then
      let s :=
        if has_key "mileage_min" filters || has_key "mileage_max" filters
        then search1 ++ [range_clause "mileage" "mileage_min" "mileage_max" filters]
        else search1 in
      if has_key "year_min" filters || has_key "year_max" filters
      then s ++ [range_clause "production-year" "year_min" "year_max" filters]
      else s
    else search1 in
  {| q_category := category_token;
     q_search := search2;
     q_cities := [city_slug];
     q_page := 1 |}.

(** ** Posts, playlists and the world *)

(** A post dictionary as [search] returns it. *)
Record post : Type := {
  post_id : option string;
  post_title : option string;
  post_desc : option string;
  post_price : option string;
  post_city : option string;
  post_district : option string;
  post_images : list string;
  post_url : option string;
  post_phone : option string;
  post_created_at : option string
}.

#[global] Instance post_eq_dec : EqDecision post.
Proof. solve_decision. Defined.

(** A row of the [playlists] table.  [filters] and [last_seen_ids] are
    non-null JSON columns, so [p.filters or {}] and
    [p.last_seen_ids or []] are the stored values. *)
Record Playlist : Type := {
  p_id : Z;
  p_user_id : Z;
  p_title : string;
  p_category : string;
  p_city : string;
  p_district : option string;
  p_filters : gmap string json;
  p_last_seen_ids : list string
}.

Definition set_last_seen_ids (ids : list string) (p : Playlist) : Playlist :=
  {| p_id := p_id p; p_user_id := p_user_id p; p_title := p_title p;
     p_category := p_category p; p_city := p_city p;
     p_district := p_district p; p_filters := p_filters p;
     p_last_seen_ids := ids |}.

(** The builder dictionary of one user:
    [{ step, category, city, district, flow, flow_idx, filters }],
    every key but [step] possibly absent. *)
Record session : Type := {
  st_step : string;
  st_category : option string;
  st_city : option string;
  st_district : option (option string);
  st_filters : option (gmap string json);
  st_flow : option (list string);
  st_flow_idx : option nat
}.

(** Inline keyboards: the ones built from fixed tables are named, the
    step keyboards carry their rows of (label, callback data). *)
Inductive keyboard : Type :=
  | KbCategories
  | KbCities
  | KbDistricts (city_slug : string)
  | KbInline (rows : list (list (string * string)))
  | KbDelete (pid : Z)
  | KbMain.

(** Message texts: a literal, or the caption [send_post] renders from
    a post. *)
Inductive text : Type :=
  | Literal (s : string)
  | Caption (x : post)
  | Summary (p : Playlist).

(** Calls of the Telegram API. *)
Inductive tg_call : Type :=
  | AnswerCallback (uid : Z)
  | EditText (uid : Z) (t : text)
  | EditReplyMarkup (uid : Z) (kb : keyboard)
  | SendMessage (chat_id : Z) (t : text) (url_button : option string)
      (kb : option keyboard)
  | SendMediaGroup (chat_id : Z) (x : post) (media : list string).

Record world : Type := {
  builder_state : gmap Z session;
  db : gmap Z Playlist;
  next_id : Z;                      (* autoincrement of playlists.id *)
  outbox : list tg_call             (* calls Telegram accepted, oldest first *)
}.

Definition set_builder_state (f : gmap Z session → gmap Z session) (w : world)
    : world :=
  {| builder_state := f (builder_state w); db := db w; next_id := next_id w;
     outbox := outbox w |}.

Definition set_db (f : gmap Z Playlist → gmap Z Playlist) (w : world) : world :=
  {| builder_state := builder_state w; db := f (db w); next_id := next_id w;
     outbox := outbox w |}.

Definition push_outbox (c : tg_call) (w : world) : world :=
  {| builder_state := builder_state w; db := db w; next_id := next_id w;
     outbox := outbox w ++ [c] |}.

(** The collaborators: the provider's HTTP endpoint, the detail
    endpoint and Telegram.  [None] / [Raise] / [false] stand for a raised
    exception.  [provider_items] gives the post dictionaries built from
    the response items, in response order, before the [limit] cut. *)
Record env : Type := {
  provider_items : string → payload → option (list post);
  fetch_details : string → res (list string);
  tg_accepts : tg_call → bool
}.

(** ** State and exceptions *)

Definition M (A : Type) : Type := world → res A * world.

#[global] Instance M_ret : MRet M := λ A a w, (Ok a, w).
#[global] Instance M_bind : MBind M := λ A B f m w,
  match m w with
  | (Ok a, w') => f a w'
  | (Raise e, w') => (Raise e, w')
  end.

Definition raise {A : Type} (e : exn) : M A := λ w, (Raise e, w).
Definition get_world : M world := λ w, (Ok w, w).
Definition modify (f : world → world) : M unit := λ w, (Ok tt, f w).

(** [try: m  except Exception: h] *)
Definition try_except {A : Type} (m : M A) (h : M A) : M A := λ w,
  match m w with
  | (Ok a, w') => (Ok a, w')
  | (Raise _, w') => h w'
  end.

(** [for x in l: body x] *)
Fixpoint for_each {A : Type} (body : A → M unit) (l : list A) : M unit :=
  match l with
  | [] => mret tt
  | x :: r => body x ;; for_each body r
  end.

(** [list(dict.fromkeys(l))]: the keys of an insertion-ordered
    dictionary filled from [l]; assigning an existing key keeps its
    place. *)
Definition dict_fromkeys (l : list string) : list string :=
  foldl (λ keys k, if bool_decide (k ∈ keys) then keys else keys ++ [k]) [] l.

Section Collaborators.
Variable E : env.

(** A Telegram call: recorded when accepted, an exception otherwise. *)
Definition tg (c : tg_call) : M unit := λ w,
  if tg_accepts E c then (Ok tt, push_outbox c w)
  else (Raise TransportError, w).

(** Lines 111-146 of [search]: collect the posts until [limit] is
    reached (the test comes after the append). *)
Fixpoint collect_posts (limit : nat) (posts items : list post) : list post :=
  match items with
  | [] => posts
  | it :: rest =>
      let posts' := posts ++ [it] in
      if (limit <=? length posts')%nat then posts'
      else collect_posts limit posts' rest
  end.

Definition search_url (city_slug : string) : string :=
  "https://api.divar.ir/v8/web-search/" +:+ city_slug +:+ "/".

Definition search (city_slug category_token : string)
    (filters : gmap string json) (limit : nat) : M (list post) :=
  match provider_items E (search_url city_slug)
          (search_payload city_slug category_token filters) with
  | None => raise ProviderError
  | Some items => mret (collect_posts limit [] items)
  end.

(** ** [send_post] *)

Definition nonempty (s : string) : bool :=
  match s with EmptyString => false | _ => true end.

(** The gallery lookup of [send_post]; any exception of
    [fetch_details] is swallowed. *)
Definition gallery (x : post) (images : list string) : list string :=
  if truthy (post_url x) && (length images <? 2)%nat && truthy (post_id x) then
    match post_id x with
    | Some token =>
        match fetch_details E token with
        | Ok (g :: gal) => g :: gal
        | _ => images
        end
    | None => images
    end
  else images.

Definition url_button (x : post) : option string :=
  if truthy (post_url x) then post_url x else None.

Definition send_post (chat_id : Z) (x : post) : M unit :=
  let reply_markup := url_button x in
  let images := gallery x (filter (λ u, nonempty u = true) (post_images x)) in
  match images with
  | first :: others =>
      let media := first :: take 8 others in
      try_except
        (tg (SendMediaGroup chat_id x media) ;;
         match reply_markup with
         | Some _ => tg (SendMessage chat_id (Literal "...") reply_markup None)
         | None => mret tt
         end)
        (tg (SendMessage chat_id (Caption x) reply_markup None))
  | [] => tg (SendMessage chat_id (Caption x) reply_markup None)
  end.

(** ** The background check ([check_once]) *)

Definition category_token (category : string) : string :=
  default category (CATEGORY_TOKENS !! category).

(** [[x for x in posts if x.get("id") and x["id"] not in seen]] *)
Definition is_new (seen : gset string) (x : post) : bool :=
  match post_id x with
  | Some i => truthy (Some i) && bool_decide (i ∉ seen)
  | None => false
  end.

Definition new_posts (posts : list post) (seen : gset string) : list post :=
  filter (λ x, is_new seen x = true) posts.

(** [[x.get("id") for x in new_posts if x.get("id")]] *)
Definition post_ids (posts : list post) : list string :=
  omap (λ x, if truthy (post_id x) then post_id x else None) posts.

Definition mru (ids existing : list string) : list string :=
  take 40 (dict_fromkeys (ids ++ existing)).

(** One turn of the [for p in playlists] loop; [continue] ends the turn. *)
Definition check_playlist (p : Playlist) : M unit :=
  let token := category_token (p_category p) in
  let filters := p_filters p in
  r ← try_except (posts ← search (p_city p) token filters 8; mret (Some posts))
        (mret None);
  match r with
  | None => mret tt
  | Some posts =>
      let seen : gset string := list_to_set (p_last_seen_ids p) in
      let new := new_posts posts seen in
      match new with
      | [] => mret tt
      | _ =>
          for_each (send_post (p_user_id p)) new ;;
          let ids := post_ids new in
          w ← get_world;
          match db w !! p_id p with
          | Some obj =>
              modify (set_db <[p_id p := set_last_seen_ids (mru ids (p_last_seen_ids obj)) obj]>)
          | None => mret tt
          end
      end
  end.

(** The order of the rows of a table: by their ids. *)
Definition by_id (a b : Z * Playlist) : Prop := a.1 ≤ b.1.

#[global] Instance by_id_dec : RelDecision by_id := λ a b, decide (a.1 ≤ b.1).

(** [db.query(Playlist).all()] *)
Definition all_playlists (w : world) : list Playlist :=
  (merge_sort by_id (map_to_list (db w))).*2.

Definition check_once : M unit :=
  w ← get_world;
  for_each check_playlist (all_playlists w).

(** ** [send_initial_results] *)

(** The dispatch loop with its [sent_ids] accumulator. *)
Fixpoint send_and_record (user_id : Z) (posts : list post)
    (sent_ids : list string) : M (list string) :=
  match posts with
  | [] => mret sent_ids
  | x :: rest =>
      send_post user_id x ;;
      send_and_record user_id rest
        (match post_id x with
         | Some i => if truthy (Some i) then sent_ids ++ [i] else sent_ids
         | None => sent_ids
         end)
  end.

Definition send_initial_results (user_id playlist_id : Z) : M unit :=
  w ← get_world;
  match db w !! playlist_id with
  | None => mret tt
  | Some p =>
      let token := category_token (p_category p) in
      posts ← search (p_city p) token (p_filters p) 12;
      match posts with
      | [] => tg (SendMessage user_id (Literal "چیزی پیدا نشد 🤷‍♂️") None None)
      | _ =>
          sent_ids ← send_and_record user_id posts [];
          w' ← get_world;
          match db w' !! playlist_id with
          | Some obj =>
              modify (set_db <[playlist_id := set_last_seen_ids (take 40 (dict_fromkeys sent_ids)) obj]>)
          | None => mret tt
          end
      end
  end.

(** ** Keyboards and labels of a step *)

(** [build_grid_buttons]: rows of three buttons, [row] being the row
    under construction. *)
Fixpoint build_grid_buttons (pairs : list (string * string)) (prefix : string)
    (row : list (string * string)) : list (list (string * string)) :=
  match pairs with
  | [] => match row with [] => [] | _ => [row] end
  | (label, val) :: rest =>
      let row' := row ++ [(label, prefix +:+ ":" +:+ val)] in
      if (length row' =? 3)%nat then row' :: build_grid_buttons rest prefix []
      else build_grid_buttons rest prefix row'
  end.

Definition lookup_key {A : Type} (m : gmap string A) (k : string) : res A :=
  match m !! k with
  | Some a => Ok a
  | None => Raise (KeyError k)
  end.

Definition step_keyboard (category step : string) : res keyboard :=
  match lookup_key CATEGORY_FLOWS category with
  | Ok cfg =>
      match lookup_key (options cfg) step with
      | Ok opts => Ok (KbInline (build_grid_buttons (choices opts) ("flt:" +:+ step) []))
      | Raise e => Raise e
      end
  | Raise e => Raise e
  end.

Definition step_label (category step : string) : res string :=
  match lookup_key CATEGORY_FLOWS category with
  | Ok cfg => lookup_key (labels cfg) step
  | Raise e => Raise e
  end.

(** ** The builder dialogue ([on_callback]) *)

Definition lift {A : Type} (r : res A) : M A := λ w, (r, w).

(** [st[k]] for a key that may be absent. *)
Definition key {A : Type} (k : string) (o : option A) : M A :=
  match o with
  | Some a => mret a
  | None => raise (KeyError k)
  end.

(** [l[i]] *)
Definition index {A : Type} (l : list A) (i : nat) : M A :=
  match l !! i with
  | Some a => mret a
  | None => raise IndexError
  end.

Definition new_session : session :=
  {| st_step := "category"; st_category := None; st_city := None;
     st_district := None; st_filters := None; st_flow := None;
     st_flow_idx := None |}.

Definition set_city (c : string) (st : session) : session :=
  {| st_step := "district"; st_category := st_category st; st_city := Some c;
     st_district := st_district st; st_filters := st_filters st;
     st_flow := st_flow st; st_flow_idx := st_flow_idx st |}.

Definition set_district (d : option string) (st : session) : session :=
  {| st_step := st_step st; st_category := st_category st; st_city := st_city st;
     st_district := Some d; st_filters := st_filters st;
     st_flow := st_flow st; st_flow_idx := st_flow_idx st |}.

Definition set_step (s : string) (st : session) : session :=
  {| st_step := s; st_category := st_category st; st_city := st_city st;
     st_district := st_district st; st_filters := st_filters st;
     st_flow := st_flow st; st_flow_idx := st_flow_idx st |}.

Definition set_filters (f : gmap string json) (st : session) : session :=
  {| st_step := st_step st; st_category := st_category st; st_city := st_city st;
     st_district := st_district st; st_filters := Some f;
     st_flow := st_flow st; st_flow_idx := st_flow_idx st |}.

Definition set_flow_idx (i : nat) (st : session) : session :=
  {| st_step := st_step st; st_category := st_category st; st_city := st_city st;
     st_district := st_district st; st_filters := st_filters st;
     st_flow := st_flow st; st_flow_idx := Some i |}.

(** In-place mutation of the user's dictionary. *)
Definition mutate (uid : Z) (f : session → session) : M unit :=
  modify (set_builder_state (alter f uid)).

(** [db.add(p); db.commit(); pid = p.id].  The ids come from a counter
    that never goes back, as a sequence gives them; a table with
    SQLite's plain row ids gives the id of a deleted last row out
    again, so nothing is stated below about the counter after a
    deletion. *)
Definition db_add (mk : Z → Playlist) : M Z := λ w,
  let pid := next_id w in
  (Ok pid,
   {| builder_state := builder_state w; db := <[pid := mk pid]> (db w);
      next_id := pid + 1; outbox := outbox w |}).

Definition int_of (s : string) : M Z :=
  match py_int s with
  | Some z => mret z
  | None => raise ValueError
  end.

Definition on_pl_new (uid : Z) : M unit :=
  modify (set_builder_state <[uid := new_session]>) ;;
  tg (EditText uid (Literal "خب، اول دسته‌بندی رو انتخاب کن 👇")) ;;
  tg (EditReplyMarkup uid KbCategories).

Definition on_pl_show (uid : Z) (data : string) : M unit :=
  pid ← int_of (default "" (last (str_split ":" data)));
  w ← get_world;
  match db w !! pid with
  | None => tg (EditText uid (Literal "این پلی‌لیست پیدا نشد."))
  | Some p =>
      tg (EditText uid (Summary p)) ;;
      tg (EditReplyMarkup uid (KbDelete (p_id p)))
  end.

Definition on_pl_del (uid : Z) (data : string) : M unit :=
  pid ← int_of (default "" (last (str_split ":" data)));
  w ← get_world;
  match db w !! pid with
  | Some p =>
      if bool_decide (p_user_id p = uid) then
        modify (set_db (delete pid)) ;;
        tg (EditText uid (Literal "✅ پلی‌لیست حذف شد."))
      else tg (EditText uid (Literal "نتونستم حذف کنم."))
  | None => tg (EditText uid (Literal "نتونستم حذف کنم."))
  end.

Definition on_cat (uid : Z) (data : string) : M unit :=
  slug ← index (str_split ":" data) 1;
  match CATEGORY_TOKENS !! slug with
  | None => tg (EditText uid (Literal "این دسته پشتیبانی نمی‌شود."))
  | Some _ =>
      cfg ← lift (lookup_key CATEGORY_FLOWS slug);
      modify (set_builder_state
        <[uid := {| st_step := "city"; st_category := Some slug;
                    st_city := None; st_district := None;
                    st_filters := Some ∅; st_flow := Some (steps cfg);
                    st_flow_idx := Some 0%nat |}]>) ;;
      tg (EditText uid (Literal "👌 دسته انتخاب شد. حالا شهر رو انتخاب کن:")) ;;
      tg (EditReplyMarkup uid KbCities)
  end.

Definition on_city (uid : Z) (data : string) : M unit :=
  city_slug ← index (str_split ":" data) 1;
  mutate uid (set_city city_slug) ;;
  tg (EditText uid (Literal "خیلی خب! یکی از شهرستان‌ها/مناطق رو انتخاب کن یا «⏭️ رد کردن» رو بزن:")) ;;
  tg (EditReplyMarkup uid (KbDistricts city_slug)).

Definition on_dist (uid : Z) (data : string) (st : session) : M unit :=
  dist ← index (str_split ":" data) 1;
  mutate uid (set_district (if String.eqb dist "__ALL__" then None else Some dist)) ;;
  mutate uid (set_step "filters") ;;
  cat ← key "category" (st_category st);
  flow ← key "flow" (st_flow st);
  idx ← key "flow_idx" (st_flow_idx st);
  step ← index flow idx;
  label ← lift (step_label cat step);
  tg (EditText uid (Literal label)) ;;
  kb ← lift (step_keyboard cat step);
  tg (EditReplyMarkup uid kb).

(** The [flt:] branch, lines 473-505.  [st] is the user's dictionary as
    read on entry; the two mutations go to the stored dictionary. *)
Definition on_flt (uid : Z) (data : string) (st : session) : M unit :=
  match str_splitn ":" 2 data with
  | [_; step; value] =>
      cat ← key "category" (st_category st);
      filters ← key "filters" (st_filters st);
      filters' ← lift (store_filter_value cat filters step value);
      mutate uid (set_filters filters') ;;
      idx ← key "flow_idx" (st_flow_idx st);
      mutate uid (set_flow_idx (S idx)) ;;
      flow ← key "flow" (st_flow st);
      if (S idx <? length flow)%nat then
        next_step ← index flow (S idx);
        label ← lift (step_label cat next_step);
        tg (EditText uid (Literal label)) ;;
        kb ← lift (step_keyboard cat next_step);
        tg (EditReplyMarkup uid kb)
      else
        cfg ← lift (lookup_key CATEGORY_FLOWS cat);
        city ← key "city" (st_city st);
        pid ← db_add (λ pid,
          {| p_id := pid; p_user_id := uid;
             p_title := title cfg +:+ " | " +:+ city;
             p_category := cat; p_city := city;
             p_district := mjoin (st_district st);
             p_filters := filters'; p_last_seen_ids := [] |});
        modify (set_builder_state (delete uid)) ;;
        tg (EditText uid (Literal "✅ پلی‌لیست با موفقیت ثبت شد! الان نتایج مطابق فیلترها رو می‌فرستم...")) ;;
        send_initial_results uid pid ;;
        tg (SendMessage uid (Literal "هر زمان آماده‌ای ادامه بده 👇") None (Some KbMain))
  | _ => raise ValueError
  end.

(** [on_callback]: acknowledge the query, then dispatch on the prefix
    of the callback data. *)
Definition on_callback (uid : Z) (data : string) : M unit :=
  tg (AnswerCallback uid) ;;
  w ← get_world;
  let st := builder_state w !! uid in
  if startswith "pl:new" data then on_pl_new uid
  else if startswith "pl:show:" data then on_pl_show uid data
  else if startswith "pl:del:" data then on_pl_del uid data
  else if startswith "cat:" data then on_cat uid data
  else if startswith "city:" data then
    match st with Some _ => on_city uid data | None => mret tt end
  else if startswith "dist:" data then
    match st with Some s => on_dist uid data s | None => mret tt end
  else if startswith "flt:" data then
    match st with Some s => on_flt uid data s | None => mret tt end
  else mret tt.

End Collaborators.

(** The updates of one user arrive one after the other; an exception
    in a handler ends that update only. *)
Definition run_callbacks (E : env) (uid : Z) (datas : list string) (w : world)
    : world :=
  foldl (λ w data, (on_callback E uid data w).2) w datas.

(** ** Notions used in the statements *)

(** Removal of duplicates that keeps the first occurrence. *)
Fixpoint dedupe (l : list string) : list string :=
  match l with
  | [] => []
  | x :: r => x :: filter (λ y, y ≠ x) (dedupe r)
  end.

(** The delta as a comprehension over the identifiers alone:
    [[item for item in results if item.id not in seen]]. *)
Definition delta_by_id (results : list post) (seen : list string) : list post :=
  filter (λ x, post_id x ∉ (Some <$> seen)) results.

(** The fields a step writes, read off the step's declared kind: the
    two mapped names of a [range] step, the step's own name for an
    [enum] step. *)
Definition declared_fields (cfg : flow_cfg) (step : string) : gset string :=
  match options cfg !! step with
  | Some opts =>
      match type opts with
      | range =>
          match map_keys cfg !! step with
          | Some (kmin, kmax) => {[kmin; kmax]}
          | None => ∅
          end
      | enum => {[step]}
      end
  | None => ∅
  end.

Definition expected_fields (cfg : flow_cfg) : gset string :=
  ⋃ (declared_fields cfg <$> steps cfg).

(** The declared option values of a step. *)
Definition option_values (cfg : flow_cfg) (step : string) : list string :=
  match options cfg !! step with
  | Some opts => (choices opts).*2
  | None => []
  end.

(** Callback data of a step answer: [f"flt:{step}:{val}"]. *)
Definition flt_data (step value : string) : string :=
  "flt:" +:+ step +:+ ":" +:+ value.

(** A Telegram call that belongs to the delivery of post [x]. *)
Definition concerns (chat_id : Z) (x : post) (c : tg_call) : Prop :=
  match c with
  | SendMediaGroup chat y _ => chat = chat_id ∧ y = x
  | SendMessage chat (Caption y) _ _ => chat = chat_id ∧ y = x
  | SendMessage chat (Literal _) button _ => chat = chat_id ∧ button = url_button x
  | _ => False
  end.

(** The criteria fields the payload reads. *)
Definition payload_keys : list string :=
  ["price_min"; "price_max"; "mileage_min"; "mileage_max"; "year_min"; "year_max"].

(** [w'] is [w] with the calls [g] added to the outbox and nothing else
    changed. *)
Definition extends (w w' : world) (g : list tg_call) : Prop :=
  builder_state w' = builder_state w ∧ db w' = db w
  ∧ next_id w' = next_id w ∧ outbox w' = outbox w ++ g.

(** Every stored seen list has at most 40 entries. *)
Definition seen_bounded (w : world) : Prop :=
  ∀ i row, db w !! i = Some row → (length (p_last_seen_ids row) ≤ 40)%nat.

(** What the provider answers to the query of playlist [p]. *)
Definition provider_response (E : env) (p : Playlist) : option (list post) :=
  provider_items E (search_url (p_city p))
    (search_payload (p_city p) (category_token (p_category p)) (p_filters p)).

(** The text message that carries the caption of post [x]. *)
Definition caption_message (chat_id : Z) (x : post) : tg_call :=
  SendMessage chat_id (Caption x) (url_button x) None.

(** ** Sample data *)

Definition sample_post (token : option string) (images : list string) : post :=
  {| post_id := token; post_title := Some "پراید ۱۳۹۵"; post_desc := None;
     post_price := None; post_city := Some "تهران"; post_district := None;
     post_images := images;
     post_url := Some ("https://divar.ir/v/" +:+ default "None" token);
     post_phone := None; post_created_at := None |}.

Definition sample_playlist : Playlist :=
  {| p_id := 1; p_user_id := 7; p_title := "🚗 خودرو | tehran";
     p_category := "car"; p_city := "tehran"; p_district := None;
     p_filters := ∅; p_last_seen_ids := ["a"; "b"; "c"] |}.

Definition sample_world : world :=
  {| builder_state := ∅; db := {[ 1 := sample_playlist ]}; next_id := 2;
     outbox := [] |}.

(** Two results of the provider: a fresh post without picture and an
    already seen one with two pictures. *)
Definition sample_items : list post :=
  [sample_post (Some "d") []; sample_post (Some "b") ["u1"; "u2"]].

(** Two fresh results, the first with a picture. *)
Definition fresh_items : list post :=
  [sample_post (Some "d") ["u1"]; sample_post (Some "e") []].

(** Results without a usable identifier. *)
Definition anonymous_items : list post :=
  [sample_post None []; sample_post (Some "") []].

(** A provider that answers [items] to every query, no gallery, and a
    Telegram that accepts the calls [accepts] allows. *)
Definition sample_env (items : list post) (accepts : tg_call → bool) : env :=
  {| provider_items := λ _ _, Some items;
     fetch_details := λ _, Ok [];
     tg_accepts := accepts |}.

(** A second playlist, in a city for which the provider is down. *)
Definition mashhad_playlist : Playlist :=
  {| p_id := 2; p_user_id := 8; p_title := "📱 موبایل | mashhad";
     p_category := "mobile"; p_city := "mashhad"; p_district := None;
     p_filters := ∅; p_last_seen_ids := [] |}.

Definition mashhad_down (items : list post) : env :=
  {| provider_items := λ url _,
       if String.eqb url (search_url "mashhad") then None else Some items;
     fetch_details := λ _, Ok [];
     tg_accepts := λ _, true |}.

(** Telegram refusing the media groups. *)
Definition no_media (c : tg_call) : bool :=
  match c with SendMediaGroup _ _ _ => false | _ => true end.

(** Telegram refusing every message about the post with token [token]. *)
Definition refuse_post (token : string) (c : tg_call) : bool :=
  match c with
  | SendMessage _ (Caption x) _ _ => negb (bool_decide (post_id x = Some token))
  | SendMediaGroup _ x _ => negb (bool_decide (post_id x = Some token))
  | _ => true
  end.

(** A user who picked the category [car] and the city [tehran]. *)
Definition sample_session : session :=
  {| st_step := "filters"; st_category := Some "car"; st_city := Some "tehran";
     st_district := Some None; st_filters := Some ∅;
     st_flow := Some ["mileage"; "year"; "price"]; st_flow_idx := Some 0%nat |}.

Definition sample_builder : world :=
  {| builder_state := {[ 7 := sample_session ]}; db := ∅; next_id := 1;
     outbox := [] |}.

(** The fields a step writes, as [store_filter_value] decides it. *)
Definition written_fields (cfg : flow_cfg) (step : string) : gset string :=
  match map_keys cfg !! step with
  | Some (kmin, kmax) => {[kmin; kmax]}
  | None => {[step]}
  end.

(** A row with its seen list blanked: what the builder wrote. *)
Definition criteria_of (p : Playlist) : Playlist := set_last_seen_ids [] p.

(** [w'] differs from [w] by the outbox and by seen lists only. *)
Definition seen_only (w w' : world) : Prop :=
  builder_state w' = builder_state w ∧ next_id w' = next_id w
  ∧ ∀ i, criteria_of <$> db w' !! i = criteria_of <$> db w !! i.

(** A computation that touches nothing but the outbox and seen lists. *)
Definition calm {A : Type} (m : M A) : Prop := ∀ w, seen_only w (m w).2.

(** The session after an answer. *)
Definition answered (filters : gmap string json) (idx : nat) (st : session)
    : session :=
  set_flow_idx (S idx) (set_filters filters st).

(** The playlist the last answer creates. *)
Definition created (uid : Z) (cfg : flow_cfg) (cat city : string)
    (st : session) (filters : gmap string json) (pid : Z) : Playlist :=
  {| p_id := pid; p_user_id := uid;
     p_title := title cfg +:+ " | " +:+ city;
     p_category := cat; p_city := city;
     p_district := mjoin (st_district st);
     p_filters := filters; p_last_seen_ids := [] |}.

(** A computation that keeps the seen lists bounded. *)
Definition tame {A : Type} (m : M A) : Prop :=
  ∀ w, seen_bounded w → seen_bounded (m w).2.

(** Consistency of one catalogue entry: it has steps; every step has a
    label and options and no colon in its name; the steps with mapped
    keys are the [range] steps; the two mapped keys differ. *)
Definition step_ok (cfg : flow_cfg) (step : string) : bool :=
  negb (str_contains ":" step)
  && bool_decide (is_Some (labels cfg !! step))
  && match options cfg !! step, map_keys cfg !! step with
     | Some opts, Some (kmin, kmax) =>
         bool_decide (type opts = range) && bool_decide (kmin ≠ kmax)
     | Some opts, None => bool_decide (type opts = enum)
     | None, _ => false
     end.

Definition cfg_ok (cfg : flow_cfg) : bool :=
  match steps cfg with [] => false | _ => true end
  && forallb (step_ok cfg) (steps cfg)
  && forallb (λ kv, bool_decide (kv.2.1 ≠ kv.2.2)) (map_to_list (map_keys cfg)).

(** ** Notions used in the further properties *)

(** What a call of [send_post] for [x] to [chat_id] may look like: an
    album of one to nine pictures, or a message with the link button of
    the post. *)
Definition well_formed_call (chat_id : Z) (x : post) (c : tg_call) : Prop :=
  match c with
  | SendMediaGroup chat y media =>
      chat = chat_id ∧ y = x ∧ (1 ≤ length media ≤ 9)%nat
  | SendMessage chat _ button None => chat = chat_id ∧ button = url_button x
  | _ => False
  end.

(** The dictionary the [cat:] branch stores for a category. *)
Definition started (slug : string) (cfg : flow_cfg) : session :=
  {| st_step := "city"; st_category := Some slug; st_city := None;
     st_district := None; st_filters := Some ∅; st_flow := Some (steps cfg);
     st_flow_idx := Some 0%nat |}.

(** The id counter is above every stored playlist id. *)
Definition ids_below_counter (w : world) : Prop :=
  ∀ i, is_Some (db w !! i) → i < next_id w.


(** What belongs to the users other than [uid]: their sessions and
    their playlists. *)
Definition others (uid : Z) (w : world) : gmap Z session * gmap Z Playlist :=
  (delete uid (builder_state w),
   filter (λ kv, p_user_id kv.2 ≠ uid) (db w)).

(** The state as a handler run for [uid] has to leave it: the part of
    the others is [O], the counter is above the stored ids and the
    playlist [own], where one is named, is not somebody else's. *)
Definition apart (uid : Z) (O : gmap Z session * gmap Z Playlist)
    (own : option Z) (w : world) : Prop :=
  others uid w = O ∧ ids_below_counter w
  ∧ ∀ pid p, own = Some pid → db w !! pid = Some p → p_user_id p = uid.

Definition keeps_at {A : Type} (uid : Z) (own : option Z) (m : M A)
    (w : world) : Prop :=
  ∀ O, apart uid O own w → apart uid O own (m w).2.

Definition keeps {A : Type} (uid : Z) (own : option Z) (m : M A) : Prop :=
  ∀ w, keeps_at uid own m w.

(** ** Numbers in callback data *)

From stdpp Require pretty.

(** [str(n)] for an integer. *)
Definition py_str (z : Z) : string := pretty.pretty z.

(** ** The keyboards built from the fixed tables *)

(** An entry of [CITIES]; the dictionary is kept as the list of its
    items, in insertion order. *)
Record city_info : Type := {
  info_title : string;
  info_districts : list string
}.

Definition CITIES : list (string * city_info) :=
  [("tehran", {| info_title := "تهران";
       info_districts := ["شمیرانات"; "ری"; "اسلام‌شهر"; "لواسان"; "کرج"] |});
   ("mashhad", {| info_title := "مشهد";
       info_districts := ["طرقبه"; "شاندیز"; "چناران"] |});
   ("isfahan", {| info_title := "اصفهان";
       info_districts := ["نجف‌آباد"; "خمینی‌شهر"; "شاهین‌شهر"] |});
   ("shiraz", {| info_title := "شیراز";
       info_districts := ["زرقان"; "کازرون"; "مرودشت"] |});
   ("tabriz", {| info_title := "تبریز";
       info_districts := ["اسکو"; "آذرشهر"; "شبستر"] |});
   ("karaj", {| info_title := "کرج";
       info_districts := ["فردیس"; "نظرآباد"; "اشتهارد"] |})].

Definition CATEGORY_ROWS : list (list (string * string)) :=
  [[("🚗 خودرو", "car"); ("🏠 املاک", "real_estate"); ("💼 استخدام", "jobs")];
   [("📱 موبایل", "mobile"); ("🖥️ الکترونیک", "electronics"); ("👗 مد و پوشاک", "fashion")];
   [("🛋️ خانه و آشپزخانه", "home"); ("🎮 سرگرمی", "entertainment"); ("🐶 حیوانات", "animals")]].

Definition list_cities : list (string * city_info) := CITIES.

(** Buttons are pairs of a label and the callback data. *)
Definition category_keyboard : list (list (string * string)) :=
  map (map (λ b : string * string, (b.1, "cat:" +:+ b.2))) CATEGORY_ROWS.

(** The loop of [cities_keyboard]; [temp] is the row being filled. *)
Fixpoint cities_rows (items : list (string * city_info))
    (temp : list (string * string)) : list (list (string * string)) :=
  match items with
  | [] => match temp with [] => [] | _ => [temp] end
  | (slug, info) :: rest =>
      let temp' := temp ++ [("🏙️ " +:+ info_title info, "city:" +:+ slug)] in
      if (length temp' =? 3)%nat then temp' :: cities_rows rest []
      else cities_rows rest temp'
  end.

Definition cities_keyboard : list (list (string * string)) :=
  cities_rows list_cities [].

(** The loop of [districts_keyboard]. *)
Fixpoint districts_rows (dist : list string) (temp : list (string * string))
    : list (list (string * string)) :=
  match dist with
  | [] => match temp with [] => [] | _ => [temp] end
  | d :: rest =>
      let temp' := temp ++ [(d, "dist:" +:+ d)] in
      if (length temp' =? 3)%nat then temp' :: districts_rows rest []
      else districts_rows rest temp'
  end.

(** [list_cities().get(city_slug, {}).get("districts", [])] *)
Definition districts_of (city_slug : string) : list string :=
  match (list_to_map list_cities : gmap string city_info) !! city_slug with
  | Some info => info_districts info
  | None => []
  end.

Definition districts_keyboard (city_slug : string)
    : list (list (string * string)) :=
  districts_rows (districts_of city_slug) []
  ++ [[("⏭️ رد کردن (کل شهر)", "dist:__ALL__")]].

(** The rows behind the inline keyboards the handlers name; the main
    menu is a reply keyboard and carries no callback data. *)
Definition inline_rows (kb : keyboard) : list (list (string * string)) :=
  match kb with
  | KbCategories => category_keyboard
  | KbCities => cities_keyboard
  | KbDistricts city_slug => districts_keyboard city_slug
  | KbInline rows => rows
  | KbDelete pid => [[("🗑️ حذف", "pl:del:" +:+ py_str pid)]]
  | KbMain => []
  end.

(** The callback data a keyboard offers. *)
Definition offered (kb : keyboard) : list string := (concat (inline_rows kb)).*2.

(** ** The detail endpoint ([fetch_details]) *)

From Stdlib Require QArith_base.

(** A JSON document as [r.json()] returns it.  An object is the list
    of its items in order; a number stands by its value. *)
#[warnings="-register-all"] Inductive jdoc : Type :=
  | JNull
  | JBool (b : bool)
  | JNum (q : QArith_base.Q)
  | JStr (s : string)
  | JArr (xs : list jdoc)
  | JObj (items : list (string * jdoc)).

(** [not data] is false for these. *)
Definition jtruthy (data : jdoc) : bool :=
  match data with
  | JNull => false
  | JBool b => b
  | JNum q => negb (QArith_base.Qnum q =? 0)
  | JStr s => nonempty s
  | JArr xs => match xs with [] => false | _ => true end
  | JObj items => match items with [] => false | _ => true end
  end.

(** [s.lower()], as far as the last characters of a suffix test can
    tell: the letters A-Z are the only characters whose lower case is
    one of the letters of the four extensions. *)
Definition lower_ascii (c : ascii) : ascii :=
  let n := N_of_ascii c in
  if ((65 <=? n) && (n <=? 90))%N then ascii_of_N (n + 32) else c.

Fixpoint lower (s : string) : string :=
  match s with
  | EmptyString => EmptyString
  | String c r => String (lower_ascii c) (lower r)
  end.

(** [s.endswith(suffix)] *)
Definition endswith (suffix s : string) : bool :=
  (String.length suffix <=? String.length s)%nat
  && String.eqb
       (substring (String.length s - String.length suffix)
          (String.length suffix) s)
       suffix.

Definition is_image (v : string) : bool :=
  existsb (λ ext, endswith ext (lower v)) [".jpg"; ".jpeg"; ".png"; ".webp"].

(** The test of line 174-175 on one item of an object. *)
Definition picture (k : string) (v : jdoc) : list string :=
  match v with
  | JStr s =>
      if (String.eqb k "url" || String.eqb k "src")
         && startswith "http" s && is_image s
      then [s] else []
  | _ => []
  end.

(** [walk], with the list it appends to as its result. *)
Fixpoint walk (obj : jdoc) : list string :=
  match obj with
  | JObj items =>
      (fix items_loop (items : list (string * jdoc)) : list string :=
         match items with
         | [] => []
         | (k, v) :: rest => picture k v ++ walk v ++ items_loop rest
         end) items
  | JArr xs =>
      (fix list_loop (xs : list jdoc) : list string :=
         match xs with
         | [] => []
         | x :: rest => walk x ++ list_loop rest
         end) xs
  | _ => []
  end.

Definition detail_urls (token : string) : list string :=
  ["https://api.divar.ir/v8/posts-v2/" +:+ token +:+ "/";
   "https://api.divar.ir/v8/posts/" +:+ token +:+ "/"].

(** Lines 156-165: the body of the first address that answers with
    status 200 and a JSON body; [get u = None] stands for an exception
    or another status. *)
Fixpoint first_answer (get : string → option jdoc) (urls : list string)
    : option jdoc :=
  match urls with
  | [] => None
  | u :: rest =>
      match get u with
      | Some data => Some data
      | None => first_answer get rest
      end
  end.

(** [fetch_details] over the endpoint [get]; [None] is the empty
    dictionary, [Some images] is [{"images": images}]. *)
Definition fetch_details_from (get : string → option jdoc) (token : string)
    : option (list string) :=
  match first_answer get (detail_urls token) with
  | Some data =>
      if jtruthy data then Some (dict_fromkeys (walk data)) else None
  | None => None
  end.

(** [u] is the value of a [url] or [src] key somewhere in the
    document, starts with [http] and ends in a picture extension. *)
Inductive pictured (u : string) : jdoc → Prop :=
  | pictured_here items k :
      (k, JStr u) ∈ items → k = "url" ∨ k = "src" →
      startswith "http" u = true → is_image u = true →
      pictured u (JObj items)
  | pictured_below items k v :
      (k, v) ∈ items → pictured u v → pictured u (JObj items)
  | pictured_item xs x :
      x ∈ xs → pictured u x → pictured u (JArr xs).

(** The collaborators of [E], with the details fetched from [get]:
    [send_post] reads [det.get("images") or []]. *)
Definition with_details (get : string → option jdoc) (E : env) : env :=
  {| provider_items := provider_items E;
     fetch_details := λ token, Ok (default [] (fetch_details_from get token));
     tg_accepts := tg_accepts E |}.

(** A detail document with one picture named twice, a link outside
    any object, a link under another key and one that is no web
    address; only the second address answers. *)
Definition sample_document : jdoc :=
  JObj [("widgets",
         JArr [JObj [("url", JStr "http://x/a.JPG")];
               JStr "http://x/b.png";
               JObj [("src", JStr "http://x/a.JPG");
                     ("link", JStr "http://x/c.png");
                     ("url", JStr "ftp://x/d.png")]])].

Definition sample_endpoint (u : string) : option jdoc :=
  if String.eqb u "https://api.divar.ir/v8/posts/tok/" then Some sample_document
  else None.

(** ** The background loop *)

(** [check_new_posts_loop], cut off after [rounds] turns: an exception
    of [check_once] is logged, and after the pause the next turn
    starts. *)
Fixpoint check_new_posts_loop (E : env) (rounds : nat) : M unit :=
  match rounds with
  | O => mret tt
  | S n => try_except (check_once E) (mret tt) ;; check_new_posts_loop E n
  end.

(** ** The age of a post ([humanize_age]) *)

(** The words of [humanize_age] over the age in whole seconds,
    [int((now - dt).total_seconds())]; [None] stands for a timestamp
    that is missing, empty or not understood by the date parser. *)
Definition humanize_age (age : option Z) : string :=
  match age with
  | None => "نامشخص"
  | Some s =>
      if s <? 60 then py_str s +:+ " ثانیه پیش"
      else
        let m := s `div` 60 in
        if m <? 60 then py_str m +:+ " دقیقه پیش"
        else
          let h := m `div` 60 in
          if h <? 24 then py_str h +:+ " ساعت پیش"
          else py_str (h `div` 24) +:+ " روز پیش"
  end.

(** The units of [humanize_age], in seconds, with their words. *)
Definition age_units : list (Z * string) :=
  [(1, " ثانیه پیش"); (60, " دقیقه پیش"); (3600, " ساعت پیش"); (86400, " روز پیش")].

(** ** The main menu ([handle_main_buttons]) *)

(** [needle in s] *)
Fixpoint str_in (needle s : string) : bool :=
  String.prefix needle s
  || match s with
     | EmptyString => false
     | String _ r => str_in needle r
     end.

(** What [reply_text] is given as [reply_markup]. *)
Inductive markup : Type :=
  | ReplyKeyboardRemove
  | Markup (kb : keyboard).

Inductive reply : Type :=
  | Reply (text : string) (reply_markup : markup).

(** The replies sent one after the other; a refused one raises and
    ends the handler. *)
Fixpoint send_replies (accepts : reply → bool) (replies : list reply)
    : res unit * list reply :=
  match replies with
  | [] => (Ok tt, [])
  | r :: rest =>
      if accepts r then
        let result := send_replies accepts rest in (result.1, r :: result.2)
      else (Raise TransportError, [])
  end.

(** [db.query(Playlist).filter(Playlist.user_id == uid).all()] *)
Definition playlists_of (uid : Z) (w : world) : list Playlist :=
  filter (λ p, p_user_id p = uid) (all_playlists w).

(** The handler of the text messages: its result, the world after it
    and the replies that went out. *)
Definition handle_main_buttons (accepts : reply → bool) (uid : Z)
    (message_text : option string) (w : world)
    : res unit * world * list reply :=
  let text := default "" message_text in
  if str_in "ساخت پلی‌لیست" text then
    let result :=
      send_replies accepts
        [Reply "خب، اول دسته‌بندی رو انتخاب کن 👇" ReplyKeyboardRemove;
         Reply "دسته‌بندی‌ها:" (Markup KbCategories)] in
    (result.1, set_builder_state <[uid := new_session]> w, result.2)
  else if str_in "پلی‌لیست‌های من" text then
    match playlists_of uid w with
    | [] =>
        let result :=
          send_replies accepts
            [Reply "هنوز پلی‌لیستی نساختی. با دکمه «➕ ساخت پلی‌لیست جدید» شروع کن 🙌"
               (Markup KbMain)] in
        (result.1, w, result.2)
    | pls =>
        let rows :=
          (λ p, [("📋 " +:+ p_title p, "pl:show:" +:+ py_str (p_id p))])
            <$> pls in
        let kb := KbInline (rows ++ [[("➕ ساخت پلی‌لیست جدید", "pl:new")]]) in
        let result :=
          send_replies accepts [Reply "📂 پلی‌لیست‌های شما:" (Markup kb)] in
        (result.1, w, result.2)
    end
  else if str_in "راهنما" text then
    let result :=
      send_replies accepts
        [Reply "ℹ️ با «➕ ساخت پلی‌لیست جدید» شروع کن. هر پلی‌لیست فیلترهای خودش رو داره و آگهی‌های جدیدش به‌صورت خودکار میاد."
           (Markup KbMain)] in
    (result.1, w, result.2)
  else (Ok tt, w, []).

(** Every playlist is stored under its own id. *)
Definition keyed (w : world) : Prop :=
  ∀ i p, db w !! i = Some p → p_id p = i.

(** The keyboards of the replies. *)
Definition keyboards_of (replies : list reply) : list keyboard :=
  omap (λ r, match r with
             | Reply _ (Markup kb) => Some kb
             | Reply _ ReplyKeyboardRemove => None
             end) replies.

Definition two_users : world :=
  {| builder_state := ∅;
     db := {[ 1 := sample_playlist; 2 := mashhad_playlist ]};
     next_id := 3; outbox := [] |}.
(* ================================================================== *)
(** * Properties *)

(** ** The catalogue *)

Lemma catalog_ok : forallb (λ kv, cfg_ok kv.2) CATEGORY_FLOWS_items = true.
Proof. vm_compute. reflexivity. Qed.

Lemma lookup_flows category cfg :
  CATEGORY_FLOWS !! category = Some cfg → cfg_ok cfg = true.
Proof.
  intros H. apply elem_of_list_to_map_2 in H.
  pose proof catalog_ok as Hok. rewrite forallb_forall in Hok.
  apply (Hok (category, cfg)). by apply list_elem_of_In.
Qed.

Lemma map_keys_distinct category cfg step kmin kmax :
  CATEGORY_FLOWS !! category = Some cfg →
  map_keys cfg !! step = Some (kmin, kmax) → kmin ≠ kmax.
Proof.
  intros Hc Hk. apply lookup_flows in Hc. unfold cfg_ok in Hc.
  apply andb_prop in Hc as [_ Hc]. rewrite forallb_forall in Hc.
  specialize (Hc (step, (kmin, kmax))). simpl in Hc.
  eapply bool_decide_eq_true_1, Hc, list_elem_of_In.
  by apply elem_of_map_to_list.
Qed.
(** Membership in a concrete list, by evaluation. *)
Lemma not_elem_of_compute (x : string) (l : list string) :
  bool_decide (x ∈ l) = false → x ∉ l.
Proof. apply bool_decide_eq_false. Qed.

(** ** Splitting *)

Lemma str_splitn_1_contains sep s :
  str_contains sep s = true →
  ∃ lo hi, str_splitn sep 1 s = [lo; hi]
           ∧ s = lo +:+ String sep hi
           ∧ str_contains sep lo = false.
Proof.
  induction s as [|c r IH]; simpl; [done|].
  destruct (Ascii.eqb c sep) eqn:Hc.
  - intros _. apply Ascii.eqb_eq in Hc as ->.
    exists EmptyString, r. repeat split; [|done..].
    by destruct r.
  - intros Hr. destruct (IH Hr) as (lo & hi & -> & -> & Hlo).
    exists (String c lo), hi. simpl. by rewrite Hc.
Qed.

(** ** [store_filter_value] on a range step *)

(** What a range step stores, by cases on the two [int] calls. *)
Lemma store_filter_value_range category cfg filters step kmin kmax value :
  CATEGORY_FLOWS !! category = Some cfg →
  map_keys cfg !! step = Some (kmin, kmax) →
  str_contains "-" value = true →
  ∃ lo hi,
    str_splitn "-" 1 value = [lo; hi] ∧
    store_filter_value category filters step value =
      Ok (match py_int lo, py_int hi with
          | Some a, Some b => <[kmax := VInt b]> (<[kmin := VInt a]> filters)
          | _, _ => <[kmax := VStr hi]> (<[kmin := VStr lo]> filters)
          end).
Proof.
  intros Hc Hk Hv.
  destruct (str_splitn_1_contains _ _ Hv) as (lo & hi & Hs & _ & _).
  exists lo, hi. split; [done|].
  unfold store_filter_value. rewrite Hc, Hk, Hv, Hs.
  destruct (py_int lo) as [a|]; [|done].
  destruct (py_int hi) as [b|]; [done|].
  by rewrite insert_insert_eq.
Qed.

Lemma store_filter_value_plain category cfg filters step kmin kmax value :
  CATEGORY_FLOWS !! category = Some cfg →
  map_keys cfg !! step = Some (kmin, kmax) →
  str_contains "-" value = false →
  store_filter_value category filters step value =
    Ok (<[kmax := VStr value]> (<[kmin := VStr value]> filters)).
Proof.
  intros Hc Hk Hv. unfold store_filter_value. by rewrite Hc, Hk, Hv.
Qed.

Lemma store_filter_value_enum category cfg filters step value :
  CATEGORY_FLOWS !! category = Some cfg →
  map_keys cfg !! step = None →
  store_filter_value category filters step value =
    Ok (<[step := VStr value]> filters).
Proof.
  intros Hc Hk. unfold store_filter_value. by rewrite Hc, Hk.
Qed.

(** C7. On a range-mapped step the encoded value is cut at the first
    delimiter into [lo] and [hi]; when both parse as integers, as
    [int] reads them, the two mapped fields hold the integers,
    otherwise they hold the two raw substrings; no other field changes.
    A value without delimiter is stored raw in both fields.  The value
    is taken to be at most 4300 characters long, under the length at
    which the interpreter begins to refuse literals.
    ["50000-100000"] on [(mileage_min, mileage_max)] gives the integers
    50000 and 100000, ["0-3"] on [(age_min, age_max)] gives the
    integers 0 and 3. *)
Theorem range_step_stores_bounds :
  (∀ category cfg filters step kmin kmax value,
     CATEGORY_FLOWS !! category = Some cfg →
     map_keys cfg !! step = Some (kmin, kmax) →
     str_contains "-" value = true →
     (String.length value ≤ 4300)%nat →
     ∃ lo hi filters',
       value = lo +:+ "-" +:+ hi ∧ str_contains "-" lo = false ∧
       store_filter_value category filters step value = Ok filters' ∧
       (∀ k, k ≠ kmin → k ≠ kmax → filters' !! k = filters !! k) ∧
       match py_int lo, py_int hi with
       | Some a, Some b =>
           filters' !! kmin = Some (VInt a) ∧ filters' !! kmax = Some (VInt b)
       | _, _ =>
           filters' !! kmin = Some (VStr lo) ∧ filters' !! kmax = Some (VStr hi)
       end)
  ∧ (∀ category cfg filters step kmin kmax value,
       CATEGORY_FLOWS !! category = Some cfg →
       map_keys cfg !! step = Some (kmin, kmax) →
       str_contains "-" value = false →
       store_filter_value category filters step value =
         Ok (<[kmax := VStr value]> (<[kmin := VStr value]> filters)))
  ∧ store_filter_value "car" ∅ "mileage" "50000-100000" =
      Ok (<["mileage_max" := VInt 100000]> (<["mileage_min" := VInt 50000]> ∅))
  ∧ store_filter_value "animals" ∅ "age" "0-3" =
      Ok (<["age_max" := VInt 3]> (<["age_min" := VInt 0]> ∅))
  ∧ store_filter_value "car" ∅ "mileage" "۵۰-۱۰۰" =
      Ok (<["mileage_max" := VInt 100]> (<["mileage_min" := VInt 50]> ∅))
  ∧ store_filter_value "car" ∅ "mileage"
      (String (ascii_of_N 28) "5-7") =
      Ok (<["mileage_max" := VStr "7"]>
            (<["mileage_min" := VStr (String (ascii_of_N 28) "5")]> ∅)).
Proof.
  split; [|split; [|split; [|split; [|split]]]].
  - intros category cfg filters step kmin kmax value Hc Hk Hv _.
    pose proof (map_keys_distinct _ _ _ _ _ Hc Hk) as Hne.
    destruct (str_splitn_1_contains _ _ Hv) as (lo & hi & Hs & Heq & Hlo).
    destruct (store_filter_value_range _ _ filters _ _ _ _ Hc Hk Hv)
      as (lo' & hi' & Hs' & Hst).
    rewrite Hs in Hs'. injection Hs' as <- <-.
    eexists lo, hi, _.
    split; [exact Heq|]. split; [exact Hlo|]. split; [exact Hst|]. split.
    + intros k Hk1 Hk2.
      destruct (py_int lo), (py_int hi); by rewrite !lookup_insert_ne.
    + destruct (py_int lo), (py_int hi);
        by rewrite lookup_insert_ne, !lookup_insert_eq.
  - intros. by eapply store_filter_value_plain.
  - vm_compute. reflexivity.
  - vm_compute. reflexivity.
  - vm_compute. reflexivity.
  - vm_compute. reflexivity.
Qed.

Lemma range_step_stores_bounds_witness :
  ∃ lo hi filters',
    "۱۲-36" = lo +:+ "-" +:+ hi ∧ str_contains "-" lo = false ∧
    store_filter_value "animals" ∅ "age" "۱۲-36" = Ok filters' ∧
    (∀ k, k ≠ "age_min" → k ≠ "age_max" → filters' !! k = (∅ : gmap string json) !! k) ∧
    match py_int lo, py_int hi with
    | Some a, Some b =>
        filters' !! "age_min" = Some (VInt a) ∧ filters' !! "age_max" = Some (VInt b)
    | _, _ =>
        filters' !! "age_min" = Some (VStr lo) ∧ filters' !! "age_max" = Some (VStr hi)
    end.
Proof.
  destruct range_step_stores_bounds as [H _].
  apply (H "animals" flow_animals ∅ "age" "age_min" "age_max" "۱۲-36");
    [vm_compute; reflexivity..|].
  simpl. lia.
Defined.

(** C10. On a range-mapped step and a value that contains the
    delimiter, the two stored bounds have the same type: both integers,
    or both the raw substrings.  When only the second half fails to
    parse (["50000-abc"]) both fields hold the raw strings. *)
Theorem range_bounds_same_type :
  (∀ category cfg filters step kmin kmax value,
     CATEGORY_FLOWS !! category = Some cfg →
     map_keys cfg !! step = Some (kmin, kmax) →
     str_contains "-" value = true →
     ∃ lo hi filters',
       str_splitn "-" 1 value = [lo; hi] ∧
       store_filter_value category filters step value = Ok filters' ∧
       ((∃ a b, filters' !! kmin = Some (VInt a) ∧ filters' !! kmax = Some (VInt b))
        ∨ (filters' !! kmin = Some (VStr lo) ∧ filters' !! kmax = Some (VStr hi))))
  ∧ py_int "50000" = Some 50000
  ∧ py_int "abc" = None
  ∧ store_filter_value "car" ∅ "mileage" "50000-abc" =
      Ok (<["mileage_max" := VStr "abc"]> (<["mileage_min" := VStr "50000"]> ∅)).
Proof.
  split; [|by vm_compute].
  intros category cfg filters step kmin kmax value Hc Hk Hv.
  pose proof (map_keys_distinct _ _ _ _ _ Hc Hk) as Hne.
  destruct (store_filter_value_range _ _ filters _ _ _ _ Hc Hk Hv)
    as (lo & hi & Hs & Hst).
  eexists lo, hi, _. split; [done|]. split; [exact Hst|].
  destruct (py_int lo) as [a|], (py_int hi) as [b|];
    [left; exists a, b|right..];
    by rewrite lookup_insert_ne, !lookup_insert_eq.
Qed.

Lemma range_bounds_same_type_witness :
  ∃ lo hi filters',
    str_splitn "-" 1 "2006-2011" = [lo; hi] ∧
    store_filter_value "car" ∅ "year" "2006-2011" = Ok filters' ∧
    ((∃ a b, filters' !! "year_min" = Some (VInt a) ∧ filters' !! "year_max" = Some (VInt b))
     ∨ (filters' !! "year_min" = Some (VStr lo) ∧ filters' !! "year_max" = Some (VStr hi))).
Proof.
  destruct range_bounds_same_type as [H _].
  apply (H "car" flow_car ∅ "year" "year_min" "year_max" "2006-2011");
    vm_compute; reflexivity.
Defined.

(** ** The search payload *)

Lemma has_key_or a b (filters : gmap string json) :
  has_key a filters || has_key b filters = true
  ↔ is_Some (filters !! a) ∨ is_Some (filters !! b).
Proof.
  unfold has_key. rewrite orb_true_iff, !bool_decide_eq_true. done.
Qed.

(** C9. The payload carries a price clause exactly when [price_min]
    or [price_max] is a key of the criteria, a mileage and a
    production-year clause exactly when the token is ["cars"] and the
    corresponding bound is a key; it carries nothing else, each clause
    once, and it depends on no other criteria field. *)
Theorem search_payload_clauses city token (filters : gmap string json) :
  let s := q_search (search_payload city token filters) in
  (range_clause "price" "price_min" "price_max" filters ∈ s
     ↔ is_Some (filters !! "price_min") ∨ is_Some (filters !! "price_max"))
  ∧ (range_clause "mileage" "mileage_min" "mileage_max" filters ∈ s
     ↔ token = "cars"
       ∧ (is_Some (filters !! "mileage_min") ∨ is_Some (filters !! "mileage_max")))
  ∧ (range_clause "production-year" "year_min" "year_max" filters ∈ s
     ↔ token = "cars"
       ∧ (is_Some (filters !! "year_min") ∨ is_Some (filters !! "year_max")))
  ∧ (∀ c, c ∈ s →
       c = range_clause "price" "price_min" "price_max" filters
       ∨ c = range_clause "mileage" "mileage_min" "mileage_max" filters
       ∨ c = range_clause "production-year" "year_min" "year_max" filters)
  ∧ NoDup (c_value <$> s)
  ∧ (∀ filters' : gmap string json,
       (∀ k, k ∈ payload_keys → filters' !! k = filters !! k) →
       search_payload city token filters' = search_payload city token filters).
Proof.
  intros s. subst s. unfold search_payload. simpl.
  rewrite <- !has_key_or.
  assert (Hcars : String.eqb token "cars" = true ↔ token = "cars")
    by apply String.eqb_eq.
  split; [|split; [|split; [|split; [|split]]]].
  1-3: destruct (has_key "price_min" filters || has_key "price_max" filters),
      (has_key "mileage_min" filters || has_key "mileage_max" filters),
      (has_key "year_min" filters || has_key "year_max" filters),
      (String.eqb token "cars"); simpl;
      rewrite ?elem_of_cons, ?elem_of_nil; unfold range_clause;
      intuition congruence.
  - destruct (has_key "price_min" filters || has_key "price_max" filters),
      (has_key "mileage_min" filters || has_key "mileage_max" filters),
      (has_key "year_min" filters || has_key "year_max" filters),
      (String.eqb token "cars"); simpl; intros c;
      rewrite ?elem_of_cons, ?elem_of_nil; tauto.
  - destruct (has_key "price_min" filters || has_key "price_max" filters),
      (has_key "mileage_min" filters || has_key "mileage_max" filters),
      (has_key "year_min" filters || has_key "year_max" filters),
      (String.eqb token "cars"); simpl;
      repeat (apply NoDup_cons; split;
              [rewrite ?elem_of_cons, ?elem_of_nil; intuition discriminate|]);
      apply NoDup_nil_2.
  - intros filters' H. unfold has_key, range_clause.
    rewrite !(H "price_min"), !(H "price_max"), !(H "mileage_min"),
      !(H "mileage_max"), !(H "year_min"), !(H "year_max");
      [done|unfold payload_keys; rewrite ?elem_of_cons; tauto..].
Qed.

Lemma search_payload_clauses_witness :
  search_payload "tehran" "cars"
    (<["deal" := VStr "buy"]> (<["year_min" := VInt 2016]> ∅))
  = search_payload "tehran" "cars" (<["year_min" := VInt 2016]> ∅).
Proof.
  apply (search_payload_clauses "tehran" "cars" (<["year_min" := VInt 2016]> ∅)).
  intros k Hk. apply lookup_insert_ne. intros <-.
  revert Hk. apply not_elem_of_compute. vm_compute. reflexivity.
Defined.

(** ** [dict.fromkeys] keeps first occurrences *)

Lemma filter_all {A} (P : A → Prop) `{!∀ x, Decision (P x)} (l : list A) :
  Forall P l → filter P l = l.
Proof.
  induction 1 as [|x r HP _ IH]; [done|].
  by rewrite filter_cons_True, IH.
Qed.

Lemma dedupe_filter (P : string → Prop) `{!∀ x, Decision (P x)} l :
  dedupe (filter P l) = filter P (dedupe l).
Proof.
  induction l as [|x r IH]; [done|]. simpl.
  rewrite filter_cons. destruct (decide (P x)) as [HP|HP]; simpl.
  - rewrite filter_cons_True by done. f_equal.
    rewrite IH, !list_filter_filter. apply list_filter_iff.
    intros y. split; intros [? ?]; by split.
  - rewrite filter_cons_False by done.
    rewrite IH, list_filter_filter. apply list_filter_iff.
    intros y. split; [|by intros [? ?]].
    intros Hy. split; [done|by intros ->].
Qed.

Lemma elem_of_dedupe x l : x ∈ dedupe l ↔ x ∈ l.
Proof.
  induction l as [|y r IH]; [done|]. simpl.
  rewrite !elem_of_cons, list_elem_of_filter, IH.
  destruct (decide (x = y)) as [->|Hne]; [by split; left|].
  split; [intros [?|[? ?]]; auto|intros [?|?]; auto].
Qed.

Lemma NoDup_dedupe l : NoDup (dedupe l).
Proof.
  induction l as [|x r IH]; simpl; [apply NoDup_nil_2|].
  apply NoDup_cons. split.
  - rewrite list_elem_of_filter. by intros [? _].
  - by apply NoDup_filter.
Qed.

Lemma dedupe_sublist l : dedupe l `sublist_of` l.
Proof.
  induction l as [|x r IH]; simpl; [done|].
  apply sublist_skip. etrans; [apply sublist_filter|done].
Qed.

Lemma dedupe_NoDup_id l : NoDup l → dedupe l = l.
Proof.
  induction 1 as [|x r Hx _ IH]; [done|]. simpl. rewrite IH.
  f_equal. apply filter_all, Forall_forall. by intros y Hy ->.
Qed.

Lemma fromkeys_foldl acc l :
  foldl (λ keys k, if bool_decide (k ∈ keys) then keys else keys ++ [k]) acc l
  = acc ++ dedupe (filter (λ y, y ∉ acc) l).
Proof.
  revert acc. induction l as [|x r IH]; intros acc; simpl.
  - by rewrite app_nil_r.
  - rewrite filter_cons. case_bool_decide as Hx.
    + rewrite decide_False by tauto. apply IH.
    + rewrite decide_True by done. rewrite IH. simpl.
      rewrite <- app_assoc. simpl. do 2 f_equal.
      rewrite <- dedupe_filter, list_filter_filter. f_equal.
      apply list_filter_iff. intros y.
      rewrite elem_of_app, list_elem_of_singleton.
      split; [intros Hy; split; intros ?; apply Hy; auto|].
      intros [? ?] [?|?]; done.
Qed.

Lemma dict_fromkeys_dedupe l : dict_fromkeys l = dedupe l.
Proof.
  unfold dict_fromkeys. rewrite fromkeys_foldl. simpl. f_equal.
  apply filter_all, Forall_forall. intros y _. apply not_elem_of_nil.
Qed.

(** ** Worlds that differ by accepted calls *)

Lemma extends_refl w : extends w w [].
Proof. unfold extends. by rewrite app_nil_r. Qed.

Lemma extends_trans w1 w2 w3 g1 g2 :
  extends w1 w2 g1 → extends w2 w3 g2 → extends w1 w3 (g1 ++ g2).
Proof.
  unfold extends. intros (-> & -> & -> & ->) (-> & -> & -> & ->).
  by rewrite app_assoc.
Qed.

Lemma extends_push w c : extends w (push_outbox c w) [c].
Proof. done. Qed.

(** ** [send_post] *)

Lemma tg_unfold E c w :
  tg E c w = if tg_accepts E c then (Ok tt, push_outbox c w)
             else (Raise TransportError, w).
Proof. done. Qed.

Ltac concerns_list :=
  repeat (apply Forall_cons; split; [simpl; split; congruence|]);
  apply Forall_nil_2.

Ltac extends_list :=
  first [ apply extends_refl
        | apply extends_push
        | eapply (extends_trans _ _ _ [_] [_]); apply extends_push ].

Ltac send_post_leaf :=
  simpl; split; [extends_list|]; split; [concerns_list|];
  split; [intros; congruence|]; split; [auto|intros; congruence].

(** One delivery: only calls that concern the post reach the outbox,
    at least one when it succeeds, and it succeeds as soon as the plain
    text message is accepted. *)
Lemma send_post_spec E chat x w :
  ∃ g, extends w (send_post E chat x w).2 g
       ∧ Forall (concerns chat x) g
       ∧ ((send_post E chat x w).1 = Ok tt → g ≠ [])
       ∧ ((send_post E chat x w).1 = Ok tt
          ∨ (send_post E chat x w).1 = Raise TransportError)
       ∧ (tg_accepts E (SendMessage chat (Caption x) (url_button x) None) = true →
          (send_post E chat x w).1 = Ok tt).
Proof.
  unfold send_post.
  destruct (gallery E x _) as [|first others].
  - rewrite tg_unfold. destruct (tg_accepts E _) eqn:Hcap.
    + exists [SendMessage chat (Caption x) (url_button x) None]. send_post_leaf.
    + exists []. send_post_leaf.
  - unfold try_except, mbind, M_bind. rewrite tg_unfold.
    destruct (tg_accepts E (SendMediaGroup _ _ _)) eqn:Hmg.
    + destruct (url_button x) as [u|] eqn:Hu.
      * rewrite tg_unfold.
        destruct (tg_accepts E (SendMessage _ (Literal _) _ _)) eqn:Hdots.
        -- eexists [_; _]. send_post_leaf.
        -- rewrite tg_unfold.
           destruct (tg_accepts E (SendMessage _ (Caption _) _ _)) eqn:Hcap.
           ++ eexists [_; _]. send_post_leaf.
           ++ eexists [_]. send_post_leaf.
      * eexists [_]. send_post_leaf.
    + rewrite tg_unfold.
      destruct (tg_accepts E (SendMessage _ (Caption _) _ _)) eqn:Hcap.
      * eexists [_]. send_post_leaf.
      * exists []. send_post_leaf.
Qed.

(** ** The dispatch loop *)

Lemma for_each_cons {A} (body : A → M unit) x r w :
  for_each body (x :: r) w =
    match body x w with
    | (Ok _, w1) => for_each body r w1
    | (Raise e, w1) => (Raise e, w1)
    end.
Proof. done. Qed.

(** The calls of a dispatch come in groups, one group per post, in the
    order of the posts; the loop stops at the first delivery that
    raises, and none raises when every caption message is accepted. *)
Lemma dispatch_spec E chat new w :
  ∃ k groups,
    extends w (for_each (send_post E chat) new w).2 (concat groups)
    ∧ Forall2 (λ x g, Forall (concerns chat x) g) (take k new) groups
    ∧ ((for_each (send_post E chat) new w).1 = Ok tt →
       k = length new ∧ Forall (λ g, g ≠ []) groups)
    ∧ ((∀ x, x ∈ new → tg_accepts E (caption_message chat x) = true) →
       (for_each (send_post E chat) new w).1 = Ok tt).
Proof.
  revert w. induction new as [|x r IH]; intros w.
  - exists 0%nat, []. simpl. split; [apply extends_refl|].
    split; [constructor|]. split; [|done]. intros _. by split.
  - rewrite for_each_cons.
    destruct (send_post_spec E chat x w) as (g & Hg & Hc & Hne & _ & Hcap).
    destruct (send_post E chat x w) as [[[]|e] w1] eqn:Hs; simpl in *.
    + destruct (IH w1) as (k & groups & Hext & Hall & Hok & Hacc).
      exists (S k), (g :: groups). simpl.
      split; [by eapply extends_trans|].
      split; [by constructor|]. split.
      * intros Hr. destruct (Hok Hr) as [-> Hgs]. split; [done|].
        constructor; auto.
      * intros Ha. apply Hacc. intros y Hy. apply Ha. by right.
    + exists 1%nat, [g]. simpl. rewrite app_nil_r. split; [done|].
      split; [rewrite take_0; by repeat constructor|]. split; [done|].
      intros Ha. apply Hcap, Ha. by left.
Qed.

Lemma dispatch_db E chat new w :
  db (for_each (send_post E chat) new w).2 = db w.
Proof.
  destruct (dispatch_spec E chat new w) as (k & groups & Hext & _).
  apply Hext.
Qed.

(** ** One turn of the sweep *)

Lemma search_unfold E city token filters limit w :
  search E city token filters limit w =
    match provider_items E (search_url city) (search_payload city token filters) with
    | None => (Raise ProviderError, w)
    | Some items => (Ok (collect_posts limit [] items), w)
    end.
Proof. unfold search. by destruct (provider_items _ _ _). Qed.

Lemma check_playlist_skipped E p w :
  provider_response E p = None → check_playlist E p w = (Ok tt, w).
Proof.
  unfold provider_response, check_playlist, try_except, mbind, M_bind.
  intros H. by rewrite search_unfold, H.
Qed.

Lemma check_playlist_found E p w items :
  provider_response E p = Some items →
  check_playlist E p w =
    let new := new_posts (collect_posts 8 [] items)
                 (list_to_set (p_last_seen_ids p)) in
    match new with
    | [] => (Ok tt, w)
    | _ =>
        match for_each (send_post E (p_user_id p)) new w with
        | (Ok _, w1) =>
            match db w1 !! p_id p with
            | Some obj =>
                (Ok tt, set_db <[p_id p := set_last_seen_ids
                                   (mru (post_ids new) (p_last_seen_ids obj)) obj]> w1)
            | None => (Ok tt, w1)
            end
        | (Raise e, w1) => (Raise e, w1)
        end
    end.
Proof.
  unfold provider_response, check_playlist, try_except, mbind, M_bind.
  intros H. rewrite search_unfold, H. simpl.
  destruct (new_posts _ _) as [|x new]; [done|].
  destruct (for_each _ _ _) as [[[]|e] w1]; [|done].
  unfold get_world. by destruct (db w1 !! p_id p).
Qed.

(** The database after one turn: untouched, or the row of [p] with a
    fresh [mru] list. *)
Lemma check_playlist_db E p w :
  db (check_playlist E p w).2 = db w
  ∨ ∃ obj ids, db w !! p_id p = Some obj
      ∧ db (check_playlist E p w).2 =
          <[p_id p := set_last_seen_ids (mru ids (p_last_seen_ids obj)) obj]> (db w).
Proof.
  destruct (provider_response E p) as [items|] eqn:Hr.
  - rewrite (check_playlist_found _ _ _ _ Hr). simpl.
    destruct (new_posts _ _) as [|x new]; [by left|].
    pose proof (dispatch_db E (p_user_id p) (x :: new) w) as Hdb.
    destruct (for_each _ _ _) as [[[]|e] w1]; simpl in *; [|by left].
    destruct (db w1 !! p_id p) as [obj|] eqn:Hobj; simpl; [|by left].
    right. exists obj, (post_ids (x :: new)). by rewrite <- Hdb.
  - rewrite check_playlist_skipped by done. by left.
Qed.

Lemma mru_length ids existing : (length (mru ids existing) ≤ 40)%nat.
Proof. unfold mru. rewrite length_take. lia. Qed.

Lemma check_playlist_bounded E p w :
  seen_bounded w → seen_bounded (check_playlist E p w).2.
Proof.
  intros Hb. destruct (check_playlist_db E p w) as [Hdb|(obj & ids & Hobj & Hdb)];
    unfold seen_bounded; rewrite Hdb; [done|].
  intros i row. destruct (decide (p_id p = i)) as [<-|Hne].
  - rewrite lookup_insert_eq. intros [= <-]. apply mru_length.
  - rewrite lookup_insert_ne by done. apply Hb.
Qed.

Lemma sweep_bounded E playlists w :
  seen_bounded w → seen_bounded (for_each (check_playlist E) playlists w).2.
Proof.
  revert w. induction playlists as [|p r IH]; intros w Hb; [done|].
  rewrite for_each_cons.
  pose proof (check_playlist_bounded E p w Hb) as Hb1.
  destruct (check_playlist E p w) as [[[]|e] w1]; simpl in *; auto.
Qed.

(** The new posts all carry an identifier. *)
Lemma post_ids_new posts seen :
  Forall2 (λ x i, post_id x = Some i) (new_posts posts seen)
    (post_ids (new_posts posts seen)).
Proof.
  unfold new_posts, post_ids. induction posts as [|x r IH]; [constructor|].
  rewrite filter_cons. case_decide as Hx; [|done]. simpl.
  unfold is_new in Hx. destruct (post_id x) as [i|] eqn:Hi; [|done].
  apply andb_prop in Hx as [Ht _]. rewrite Ht. by constructor.
Qed.

Lemma post_ids_nil new : post_ids new ≠ [] → new ≠ [].
Proof. by intros H ->. Qed.

(** ** The bound on the seen lists is an invariant *)

Lemma tame_ret {A} (a : A) : tame (mret a).
Proof. by intros w. Qed.

Lemma tame_raise {A} e : tame (@raise A e).
Proof. by intros w. Qed.

Lemma tame_lift {A} (r : res A) : tame (lift r).
Proof. by intros w. Qed.

Lemma tame_key {A} k (o : option A) : tame (key k o).
Proof. destruct o; [apply tame_ret|apply tame_raise]. Qed.

Lemma tame_index {A} (l : list A) i : tame (index l i).
Proof. unfold index. destruct (l !! i); [apply tame_ret|apply tame_raise]. Qed.

Lemma tame_int_of s : tame (int_of s).
Proof. unfold int_of. destruct (py_int s); [apply tame_ret|apply tame_raise]. Qed.

Lemma tame_tg E c : tame (tg E c).
Proof. intros w Hb. rewrite tg_unfold. by destruct (tg_accepts E c). Qed.

Lemma tame_bind {A B} (m : M A) (f : A → M B) :
  tame m → (∀ a, tame (f a)) → tame (m ≫= f).
Proof.
  intros Hm Hf w Hb. unfold mbind, M_bind.
  specialize (Hm w Hb). destruct (m w) as [[a|e] w1]; simpl in *; [|done].
  by apply Hf.
Qed.

Lemma tame_get_world {B} (f : world → M B) :
  (∀ w, tame (f w)) → tame (get_world ≫= f).
Proof. intros Hf w Hb. by apply (Hf w). Qed.

Lemma tame_builder f : tame (modify (set_builder_state f)).
Proof. by intros w. Qed.

Lemma tame_mutate uid f : tame (mutate uid f).
Proof. apply tame_builder. Qed.

Lemma tame_delete pid : tame (modify (set_db (delete pid))).
Proof.
  intros w Hb i row. simpl. destruct (decide (pid = i)) as [<-|Hne].
  - by rewrite lookup_delete_eq.
  - rewrite lookup_delete_ne by done. apply Hb.
Qed.

Lemma tame_write pid row :
  (length (p_last_seen_ids row) ≤ 40)%nat →
  tame (modify (set_db <[pid := row]>)).
Proof.
  intros Hrow w Hb i row'. simpl. destruct (decide (pid = i)) as [<-|Hne].
  - rewrite lookup_insert_eq. by intros [= <-].
  - rewrite lookup_insert_ne by done. apply Hb.
Qed.

Lemma tame_db_add mk :
  (∀ pid, (length (p_last_seen_ids (mk pid)) ≤ 40)%nat) → tame (db_add mk).
Proof.
  intros Hmk w Hb i row. simpl. destruct (decide (next_id w = i)) as [<-|Hne].
  - rewrite lookup_insert_eq. intros [= <-]. apply Hmk.
  - rewrite lookup_insert_ne by done. apply Hb.
Qed.

Lemma tame_search E city token filters limit :
  tame (search E city token filters limit).
Proof.
  intros w Hb. rewrite search_unfold. by destruct (provider_items E _ _).
Qed.

Lemma tame_send_post E chat x : tame (send_post E chat x).
Proof.
  intros w Hb. destruct (send_post_spec E chat x w) as (g & (_ & Hdb & _) & _).
  unfold seen_bounded. by rewrite Hdb.
Qed.

Lemma tame_send_and_record E chat posts sent_ids :
  tame (send_and_record E chat posts sent_ids).
Proof.
  revert sent_ids. induction posts as [|x r IH]; intros sent_ids; simpl.
  - apply tame_ret.
  - apply tame_bind; [apply tame_send_post|]. intros _. apply IH.
Qed.

Lemma tame_send_initial_results E user_id playlist_id :
  tame (send_initial_results E user_id playlist_id).
Proof.
  apply tame_get_world. intros w.
  destruct (db w !! playlist_id) as [p|]; [|apply tame_ret].
  apply tame_bind; [apply tame_search|]. intros [|x posts]; [apply tame_tg|].
  apply tame_bind; [apply tame_send_and_record|]. intros sent_ids.
  apply tame_get_world. intros w'.
  destruct (db w' !! playlist_id) as [obj|]; [|apply tame_ret].
  apply tame_write. simpl. rewrite length_take. lia.
Qed.

Lemma tame_check_playlist E p : tame (check_playlist E p).
Proof. intros w. apply check_playlist_bounded. Qed.

Lemma tame_check_once E : tame (check_once E).
Proof.
  apply tame_get_world. intros w0 w. apply sweep_bounded.
Qed.

Ltac tame_steps :=
  repeat match goal with
    | |- tame (tg _ _) => apply tame_tg
    | |- tame (mret _) => apply tame_ret
    | |- tame (raise _) => apply tame_raise
    | |- tame (lift _) => apply tame_lift
    | |- tame (key _ _) => apply tame_key
    | |- tame (index _ _) => apply tame_index
    | |- tame (int_of _) => apply tame_int_of
    | |- tame (mutate _ _) => apply tame_mutate
    | |- tame (modify (set_builder_state _)) => apply tame_builder
    | |- tame (modify (set_db (delete _))) => apply tame_delete
    | |- tame (send_initial_results _ _ _) => apply tame_send_initial_results
    | |- tame (get_world ≫= _) => apply tame_get_world; intros ?
    | |- tame (_ ≫= _) => apply tame_bind; [|intros ?]
    end.

Lemma tame_on_flt E uid data st : tame (on_flt E uid data st).
Proof.
  unfold on_flt.
  destruct (str_splitn ":" 2 data) as [|? [|step [|value [|? ?]]]];
    try apply tame_raise.
  tame_steps.
  destruct (_ <? _)%nat; tame_steps.
  apply tame_db_add. intros pid. simpl. lia.
Qed.

Lemma tame_on_callback E uid data : tame (on_callback E uid data).
Proof.
  unfold on_callback.
  apply tame_bind; [apply tame_tg|]. intros _.
  apply tame_get_world. intros w.
  repeat match goal with |- tame (if ?b then _ else _) => destruct b end;
    repeat match goal with |- tame (match ?o with _ => _ end) => destruct o end;
    try apply tame_ret; try apply tame_on_flt.
  - unfold on_pl_new. tame_steps.
  - unfold on_pl_show. tame_steps.
    match goal with |- tame (match ?o with _ => _ end) => destruct o end;
      tame_steps.
  - unfold on_pl_del. tame_steps.
    match goal with |- tame (match ?o with _ => _ end) => destruct o end;
      [case_bool_decide|]; tame_steps.
  - unfold on_cat. tame_steps.
    match goal with |- tame (match ?o with _ => _ end) => destruct o end;
      tame_steps.
  - unfold on_city. tame_steps.
  - unfold on_dist. tame_steps.
Qed.

(** ** The seen list *)

Lemma new_posts_by_id posts (seen : list string) :
  new_posts posts (list_to_set seen) =
    filter (λ x, truthy (post_id x) = true) (delta_by_id posts seen).
Proof.
  unfold new_posts, delta_by_id. rewrite list_filter_filter.
  apply list_filter_iff. intros x. unfold is_new.
  destruct (post_id x) as [i|]; simpl.
  - rewrite andb_true_iff, bool_decide_eq_true, elem_of_list_to_set.
    rewrite list_elem_of_fmap. split.
    + intros [Ht Hi]. split; [done|]. intros (j & [= ->] & Hj). done.
    + intros [Ht Hi]. split; [done|]. intros Hj. apply Hi. by exists i.
  - split; [done|]. by intros [? _].
Qed.

(** One turn of the sweep, when the provider answers: the calls come
    in groups, one per new post and in their order; a completed turn
    has delivered every new post and written the [mru] list; a turn
    that raises leaves the database as it was; and the turn completes
    when the caption messages are accepted. *)
Lemma check_playlist_spec E p w items new :
  provider_response E p = Some items →
  new = new_posts (collect_posts 8 [] items) (list_to_set (p_last_seen_ids p)) →
  let r := check_playlist E p w in
  ∃ k groups,
    outbox r.2 = outbox w ++ concat groups
    ∧ Forall2 (λ x g, Forall (concerns (p_user_id p) x) g) (take k new) groups
    ∧ (r.1 = Ok tt →
       k = length new ∧ Forall (λ g, g ≠ []) groups
       ∧ ∀ obj, new ≠ [] → db w !! p_id p = Some obj →
           db r.2 = <[p_id p := set_last_seen_ids
                        (mru (post_ids new) (p_last_seen_ids obj)) obj]> (db w))
    ∧ (r.1 ≠ Ok tt → db r.2 = db w)
    ∧ ((∀ x, x ∈ new → tg_accepts E (caption_message (p_user_id p) x) = true) →
       r.1 = Ok tt).
Proof.
  intros Hr Hnew r. subst r. rewrite (check_playlist_found _ _ _ _ Hr).
  cbv zeta. rewrite <- Hnew. clear Hnew.
  destruct (dispatch_spec E (p_user_id p) new w)
    as (k & groups & Hext & Hall & Hok & Hacc).
  destruct new as [|x new'] eqn:Hn.
  { exists 0%nat, []. simpl. rewrite app_nil_r.
    split; [done|]. split; [constructor|]. split; [by intros _|]. by split. }
  rewrite <- Hn in *. assert (Hne : new ≠ []) by by rewrite Hn. clear Hn.
  destruct Hext as (_ & Hdb & _ & Hout).
  exists k, groups.
  destruct (for_each _ new w) as [[[]|e] w1]; simpl in *.
  - destruct (Hok eq_refl) as [-> Hgs].
    destruct (db w1 !! p_id p) as [obj|] eqn:Hobj; simpl.
    + split; [done|]. split; [done|]. split; [|by split].
      intros _. split; [done|]. split; [done|].
      intros obj' _ Hobj'. rewrite Hdb in Hobj. rewrite Hdb. congruence.
    + split; [done|]. split; [done|]. split; [|by split].
      intros _. split; [done|]. split; [done|].
      intros obj' _ Hobj'. rewrite Hdb in Hobj. congruence.
  - split; [done|]. split; [done|]. split; [done|]. split; [done|].
    intros Ha. by specialize (Hacc Ha).
Qed.

(** C1 (as the code has it).  When a turn of the sweep with a
    non-empty list of new identifiers completes, the stored seen list
    of the playlist is the first 40 entries of
    [dedupe (newIds ++ existingSeen)]: first occurrences kept, order
    kept, at most 40 entries, no duplicates.  The turn completes
    whenever Telegram accepts the caption messages; when it raises
    instead, the database is left as it was, whatever has been
    dispatched before.  No sweep and no callback (which includes the
    initial dispatch) leaves a seen list longer than 40. *)
Theorem seen_list_update E p w items obj newIds :
  provider_response E p = Some items →
  db w !! p_id p = Some obj →
  newIds = post_ids (new_posts (collect_posts 8 [] items)
                       (list_to_set (p_last_seen_ids p))) →
  newIds ≠ [] →
  (∀ w', check_playlist E p w = (Ok tt, w') →
         db w' = <[p_id p := set_last_seen_ids
                     (take 40 (dedupe (newIds ++ p_last_seen_ids obj))) obj]> (db w))
  ∧ ((check_playlist E p w).1 ≠ Ok tt → db (check_playlist E p w).2 = db w)
  ∧ ((∀ x, x ∈ new_posts (collect_posts 8 [] items)
                 (list_to_set (p_last_seen_ids p)) →
           tg_accepts E (caption_message (p_user_id p) x) = true) →
     (check_playlist E p w).1 = Ok tt)
  ∧ (length (take 40 (dedupe (newIds ++ p_last_seen_ids obj))) ≤ 40)%nat
  ∧ NoDup (take 40 (dedupe (newIds ++ p_last_seen_ids obj)))
  ∧ take 40 (dedupe (newIds ++ p_last_seen_ids obj))
      `sublist_of` newIds ++ p_last_seen_ids obj
  ∧ mru ["d"; "e"] ["a"; "b"; "c"] = ["d"; "e"; "a"; "b"; "c"]
  ∧ mru ["d"; "b"] ["a"; "b"; "c"] = ["d"; "b"; "a"; "c"]
  ∧ (∀ w0, seen_bounded w0 → seen_bounded (check_once E w0).2)
  ∧ (∀ uid data w0,
       seen_bounded w0 → seen_bounded (on_callback E uid data w0).2).
Proof.
  intros Hr Hobj HnewIds Hne.
  destruct (check_playlist_spec E p w items _ Hr eq_refl)
    as (k & groups & _ & _ & Hok & Hraise & Hacc).
  split; [|split; [|split; [|split; [|split; [|split; [|split; [|split;
    [|split]]]]]]]].
  - intros w' Hw'. rewrite Hw' in Hok. simpl in Hok.
    destruct (Hok eq_refl) as (_ & _ & Hdb).
    rewrite (Hdb obj); [|apply post_ids_nil; congruence|done].
    unfold mru. by rewrite dict_fromkeys_dedupe, <- HnewIds.
  - exact Hraise.
  - exact Hacc.
  - rewrite length_take. lia.
  - eapply sublist_NoDup; [apply NoDup_dedupe|apply sublist_take].
  - etrans; [apply sublist_take|apply dedupe_sublist].
  - by vm_compute.
  - by vm_compute.
  - exact (tame_check_once E).
  - intros uid data. exact (tame_on_callback E uid data).
Qed.

Lemma seen_list_update_witness :
  (check_playlist (sample_env sample_items (λ _, true))
     sample_playlist sample_world).1 = Ok tt
  ∧ db (check_playlist (sample_env sample_items (λ _, true))
          sample_playlist sample_world).2
    = <[1 := set_last_seen_ids (take 40 (dedupe (["d"] ++ ["a"; "b"; "c"])))
              sample_playlist]> (db sample_world).
Proof.
  split; [by vm_compute|].
  refine (proj1 (seen_list_update (sample_env sample_items (λ _, true))
                   sample_playlist sample_world sample_items sample_playlist
                   ["d"] eq_refl eq_refl _ _) _ _).
  - by vm_compute.
  - done.
  - by vm_compute.
Defined.

(** The counterexample to C1 as stated: a turn with the new
    identifiers [d] and [e] in which Telegram refuses the caption of
    [e].  The album of [d] has gone out, the turn raises, and the seen
    list is still [a, b, c], not [d, e, a, b, c]. *)
Lemma refused_caption_keeps_seen_list :
  provider_response (sample_env fresh_items (refuse_post "e")) sample_playlist
    = Some fresh_items
  ∧ post_ids (new_posts (collect_posts 8 [] fresh_items)
                (list_to_set (p_last_seen_ids sample_playlist))) = ["d"; "e"]
  ∧ db sample_world !! p_id sample_playlist = Some sample_playlist
  ∧ (check_playlist (sample_env fresh_items (refuse_post "e"))
       sample_playlist sample_world).1 = Raise TransportError
  ∧ head (outbox (check_playlist (sample_env fresh_items (refuse_post "e"))
                    sample_playlist sample_world).2)
    = Some (SendMediaGroup 7 (sample_post (Some "d") ["u1"]) ["u1"])
  ∧ p_last_seen_ids
      <$> db (check_playlist (sample_env fresh_items (refuse_post "e"))
                sample_playlist sample_world).2 !! 1
    = Some ["a"; "b"; "c"]
  ∧ take 40 (dedupe (["d"; "e"] ++ ["a"; "b"; "c"]))
    = ["d"; "e"; "a"; "b"; "c"].
Proof. by vm_compute. Qed.

Lemma Forall2_and_r {A B} (P : A → B → Prop) (Q : B → Prop) l k :
  Forall2 P l k → Forall Q k → Forall2 (λ x y, Q y ∧ P x y) l k.
Proof.
  induction 1 as [|x y l k HP _ IH]; [constructor|].
  intros [HQ Hk]%Forall_cons. constructor; auto.
Qed.

(** ** A failing provider *)

(** C5. A provider failure for [sk] makes the sweep skip [sk] only.
    Its turn changes nothing (no call, no update) and raises nothing,
    and the sweep over the playlists with [sk], wherever [sk] stands,
    is the sweep over the others; so is [check_once] when [sk] is among
    the stored playlists.  A playlist [p] whose search answers with new
    posts is, in the same sweep, before or after [sk], searched,
    dispatched and updated: every new post gets its calls, in order,
    and the seen list of [p] is written (the caption messages being
    accepted). *)
Theorem provider_failure_skips_one E l1 sk l2 w :
  provider_response E sk = None →
  check_playlist E sk w = (Ok tt, w)
  ∧ for_each (check_playlist E) (l1 ++ sk :: l2) w
    = for_each (check_playlist E) (l1 ++ l2) w
  ∧ (all_playlists w = l1 ++ sk :: l2 →
     check_once E w = for_each (check_playlist E) (l1 ++ l2) w)
  ∧ ∀ p items new obj sweep,
      provider_response E p = Some items →
      new = new_posts (collect_posts 8 [] items)
              (list_to_set (p_last_seen_ids p)) →
      new ≠ [] →
      db w !! p_id p = Some obj →
      (∀ x, x ∈ new → tg_accepts E (caption_message (p_user_id p) x) = true) →
      sweep = [sk; p] ∨ sweep = [p; sk] →
      (for_each (check_playlist E) sweep w).1 = Ok tt
      ∧ (∃ groups,
           outbox (for_each (check_playlist E) sweep w).2
             = outbox w ++ concat groups
           ∧ Forall2 (λ x g, g ≠ [] ∧ Forall (concerns (p_user_id p) x) g)
               new groups)
      ∧ db (for_each (check_playlist E) sweep w).2
        = <[p_id p := set_last_seen_ids
              (mru (post_ids new) (p_last_seen_ids obj)) obj]> (db w).
Proof.
  intros Hr.
  assert (Hskip : ∀ l1 w,
    for_each (check_playlist E) (l1 ++ sk :: l2) w
    = for_each (check_playlist E) (l1 ++ l2) w).
  { clear l1 w. intros l1. induction l1 as [|p r IH]; intros w; simpl app.
    - rewrite for_each_cons. by rewrite check_playlist_skipped.
    - rewrite !for_each_cons.
      destruct (check_playlist E p w) as [[[]|e] w1]; [apply IH|done]. }
  split; [by apply check_playlist_skipped|]. split; [apply Hskip|]. split.
  { intros Hall. unfold check_once, mbind, M_bind, get_world.
    rewrite Hall. apply Hskip. }
  intros p items new obj sweep Hp Hnew Hne Hobj Ha Hsweep.
  destruct (check_playlist_spec E p w items new Hp Hnew)
    as (k & groups & Hout & Hall & Hok & _ & Hacc).
  specialize (Hacc Ha). destruct (Hok Hacc) as (-> & Hgs & Hdb).
  rewrite firstn_all in Hall.
  assert (Hturn : for_each (check_playlist E) sweep w = check_playlist E p w).
  { destruct Hsweep as [-> | ->]; simpl for_each; unfold mbind, M_bind.
    - rewrite check_playlist_skipped by done.
      by destruct (check_playlist E p w) as [[[]|e] w1].
    - destruct (check_playlist E p w) as [[[]|e] w1]; [|done].
      by rewrite check_playlist_skipped. }
  rewrite Hturn. split; [done|]. split; [|by apply Hdb].
  exists groups. split; [done|]. by apply Forall2_and_r.
Qed.

Lemma provider_failure_skips_one_witness :
  check_once (mashhad_down fresh_items) two_users
  = for_each (check_playlist (mashhad_down fresh_items))
      ([sample_playlist] ++ []) two_users
  ∧ (for_each (check_playlist (mashhad_down fresh_items))
       [sample_playlist; mashhad_playlist] two_users).1 = Ok tt
  ∧ (∃ groups,
       outbox (for_each (check_playlist (mashhad_down fresh_items))
                 [sample_playlist; mashhad_playlist] two_users).2
         = outbox two_users ++ concat groups
       ∧ Forall2 (λ x g, g ≠ [] ∧ Forall (concerns (p_user_id sample_playlist) x) g)
           fresh_items groups)
  ∧ db (for_each (check_playlist (mashhad_down fresh_items))
          [sample_playlist; mashhad_playlist] two_users).2
    = <[p_id sample_playlist := set_last_seen_ids
          (mru (post_ids fresh_items) (p_last_seen_ids sample_playlist))
          sample_playlist]> (db two_users).
Proof.
  destruct (provider_failure_skips_one (mashhad_down fresh_items)
              [sample_playlist] mashhad_playlist [] two_users eq_refl)
    as (_ & _ & Hsweep & Hother).
  split; [apply Hsweep; by vm_compute|].
  apply (Hother sample_playlist fresh_items fresh_items sample_playlist);
    [reflexivity|by vm_compute|done|by vm_compute| |by right].
  intros x Hx. reflexivity.
Defined.

(** ** The delta and the order of dispatch *)

Lemma collect_posts_take limit acc items :
  collect_posts limit acc items
  = take (Nat.max (S (length acc)) limit) (acc ++ items).
Proof.
  revert acc. induction items as [|it rest IH]; intros acc; simpl.
  - rewrite app_nil_r, take_ge; [done|lia].
  - rewrite length_app. simpl.
    destruct (Nat.leb_spec limit (length acc + 1)) as [Hle|Hgt].
    + replace (Nat.max (S (length acc)) limit) with (length acc + 1)%nat by lia.
      rewrite (take_app_add' acc) by done. by rewrite take_0 + simpl.
    + rewrite IH, length_app. simpl. rewrite <- app_assoc. simpl.
      f_equal. lia.
Qed.

Lemma collect_8 items : collect_posts 8 [] items = take 8 items.
Proof. by rewrite collect_posts_take. Qed.

(** C8 (as the code has it).  The results are the first eight items of
    the provider; the delta is the sublist of the results that carry a
    non-empty identifier which is not in the seen list, in the order of
    the results; the calls of the turn come in groups, one group per
    new post and in that order, and a completed turn has a non-empty
    group for every new post. *)
Theorem delta_and_dispatch_order E p w items results new :
  provider_response E p = Some items →
  results = collect_posts 8 [] items →
  new = new_posts results (list_to_set (p_last_seen_ids p)) →
  results = take 8 items
  ∧ new = filter (λ x, truthy (post_id x) = true)
            (delta_by_id results (p_last_seen_ids p))
  ∧ new `sublist_of` results
  ∧ (∀ x, x ∈ new ↔
          x ∈ results
          ∧ ∃ i, post_id x = Some i ∧ i ≠ "" ∧ i ∉ p_last_seen_ids p)
  ∧ ∃ k groups,
      outbox (check_playlist E p w).2 = outbox w ++ concat groups
      ∧ Forall2 (λ x g, Forall (concerns (p_user_id p) x) g) (take k new) groups
      ∧ ((check_playlist E p w).1 = Ok tt →
         k = length new ∧ Forall (λ g, g ≠ []) groups).
Proof.
  intros Hr -> ->. split; [apply collect_8|].
  split; [apply new_posts_by_id|]. split; [apply sublist_filter|]. split.
  - intros x. unfold new_posts. rewrite list_elem_of_filter. unfold is_new.
    split.
    + intros [Hx Hin]. split; [done|].
      destruct (post_id x) as [i|]; [|done]. exists i.
      apply andb_prop in Hx as [Ht Hs].
      apply bool_decide_eq_true in Hs. rewrite elem_of_list_to_set in Hs.
      split; [done|]. split; [|done]. by intros ->.
    + intros [Hin (i & -> & Hi & Hs)]. split; [|done].
      apply andb_true_intro. split.
      * by destruct i.
      * apply bool_decide_eq_true. by rewrite elem_of_list_to_set.
  - destruct (check_playlist_spec E p w items _ Hr eq_refl)
      as (k & groups & Hout & Hall & Hok & _).
    exists k, groups. split; [done|]. split; [done|].
    intros H. destruct (Hok H) as (? & ? & _). by split.
Qed.

Lemma delta_and_dispatch_order_witness :
  take 8 fresh_items = take 8 fresh_items
  ∧ fresh_items = filter (λ x, truthy (post_id x) = true)
                    (delta_by_id (take 8 fresh_items) (p_last_seen_ids sample_playlist))
  ∧ fresh_items `sublist_of` take 8 fresh_items
  ∧ (∀ x, x ∈ fresh_items ↔
          x ∈ take 8 fresh_items
          ∧ ∃ i, post_id x = Some i ∧ i ≠ ""
                 ∧ i ∉ p_last_seen_ids sample_playlist)
  ∧ ∃ k groups,
      outbox (check_playlist (sample_env fresh_items no_media)
                sample_playlist sample_world).2
        = outbox sample_world ++ concat groups
      ∧ Forall2 (λ x g, Forall (concerns (p_user_id sample_playlist) x) g)
          (take k fresh_items) groups
      ∧ ((check_playlist (sample_env fresh_items no_media)
            sample_playlist sample_world).1 = Ok tt →
         k = length fresh_items ∧ Forall (λ g, g ≠ []) groups).
Proof.
  apply (delta_and_dispatch_order (sample_env fresh_items no_media)
           sample_playlist sample_world fresh_items (take 8 fresh_items)
           fresh_items); reflexivity.
Defined.

(** The counterexample to C8 as stated: a result without identifier,
    or with an empty one, is not in any seen list, and yet it is not
    part of the delta. *)
Lemma delta_drops_posts_without_id :
  delta_by_id anonymous_items ["a"; "b"; "c"] = anonymous_items
  ∧ new_posts anonymous_items (list_to_set ["a"; "b"; "c"]) = []
  ∧ check_playlist (sample_env anonymous_items (λ _, true))
      sample_playlist sample_world = (Ok tt, sample_world).
Proof. by vm_compute. Qed.

(** ** Failures of a delivery *)

(** C4 (as the code has it).  A refused media group, or a refused
    button message after it, is caught inside [send_post] and answered
    with the plain caption message: whatever Telegram does with those
    calls, when it accepts the caption messages the turn completes,
    every new post gets its calls, in order, and the seen list is
    written. *)
Theorem media_failure_is_caught E p w items new obj :
  provider_response E p = Some items →
  new = new_posts (collect_posts 8 [] items) (list_to_set (p_last_seen_ids p)) →
  new ≠ [] →
  db w !! p_id p = Some obj →
  (∀ x, x ∈ new → tg_accepts E (caption_message (p_user_id p) x) = true) →
  (check_playlist E p w).1 = Ok tt
  ∧ (∃ groups,
       outbox (check_playlist E p w).2 = outbox w ++ concat groups
       ∧ Forall2 (λ x g, g ≠ [] ∧ Forall (concerns (p_user_id p) x) g) new groups)
  ∧ db (check_playlist E p w).2
    = <[p_id p := set_last_seen_ids
          (mru (post_ids new) (p_last_seen_ids obj)) obj]> (db w).
Proof.
  intros Hr Hnew Hne Hobj Ha.
  destruct (check_playlist_spec E p w items new Hr Hnew)
    as (k & groups & Hout & Hall & Hok & _ & Hacc).
  specialize (Hacc Ha). destruct (Hok Hacc) as (-> & Hgs & Hdb).
  rewrite firstn_all in Hall.
  split; [done|]. split; [|by apply Hdb].
  exists groups. split; [done|]. by apply Forall2_and_r.
Qed.

Lemma media_failure_is_caught_witness :
  (check_playlist (sample_env fresh_items no_media)
     sample_playlist sample_world).1 = Ok tt
  ∧ (∃ groups,
       outbox (check_playlist (sample_env fresh_items no_media)
                 sample_playlist sample_world).2
         = outbox sample_world ++ concat groups
       ∧ Forall2 (λ x g, g ≠ [] ∧ Forall (concerns (p_user_id sample_playlist) x) g)
           fresh_items groups)
  ∧ db (check_playlist (sample_env fresh_items no_media)
          sample_playlist sample_world).2
    = <[p_id sample_playlist := set_last_seen_ids
          (mru (post_ids fresh_items) (p_last_seen_ids sample_playlist))
          sample_playlist]> (db sample_world).
Proof.
  apply (media_failure_is_caught (sample_env fresh_items no_media)
           sample_playlist sample_world fresh_items fresh_items sample_playlist);
    [reflexivity|by vm_compute|done|reflexivity|].
  intros x Hx. reflexivity.
Defined.

(** The counterexample to C4 as stated: Telegram refuses the caption
    message of the first new post; the exception leaves [check_once],
    the second post is never sent and the seen list is not written. *)
Lemma text_failure_aborts_turn :
  tg_accepts (sample_env fresh_items (refuse_post "d"))
    (caption_message 7 (sample_post (Some "e") [])) = true
  ∧ check_playlist (sample_env fresh_items (refuse_post "d"))
      sample_playlist sample_world = (Raise TransportError, sample_world)
  ∧ check_once (sample_env fresh_items (refuse_post "d")) sample_world
    = (Raise TransportError, sample_world).
Proof. by vm_compute. Qed.

(** ** Computations that leave the criteria alone *)

Lemma seen_only_refl w : seen_only w w.
Proof. done. Qed.

Lemma seen_only_trans w1 w2 w3 :
  seen_only w1 w2 → seen_only w2 w3 → seen_only w1 w3.
Proof.
  intros (Hb1 & Hn1 & Hd1) (Hb2 & Hn2 & Hd2).
  split; [congruence|]. split; [congruence|].
  intros i. by rewrite Hd2.
Qed.

Lemma extends_seen_only w w' g : extends w w' g → seen_only w w'.
Proof.
  intros (Hb & Hd & Hn & _). split; [done|]. split; [done|].
  intros i. by rewrite Hd.
Qed.

Lemma seen_only_update w pid obj ids :
  db w !! pid = Some obj →
  seen_only w (set_db <[pid := set_last_seen_ids ids obj]> w).
Proof.
  intros Hobj. split; [done|]. split; [done|]. intros i. simpl.
  destruct (decide (pid = i)) as [<-|Hne].
  - by rewrite lookup_insert_eq, Hobj.
  - by rewrite lookup_insert_ne.
Qed.

Lemma calm_ret {A} (a : A) : calm (mret a).
Proof. intros w. apply seen_only_refl. Qed.

Lemma calm_raise {A} e : calm (@raise A e).
Proof. intros w. apply seen_only_refl. Qed.

Lemma calm_lift {A} (r : res A) : calm (lift r).
Proof. intros w. apply seen_only_refl. Qed.

Lemma calm_key {A} k (o : option A) : calm (key k o).
Proof. destruct o; [apply calm_ret|apply calm_raise]. Qed.

Lemma calm_index {A} (l : list A) i : calm (index l i).
Proof. unfold index. destruct (l !! i); [apply calm_ret|apply calm_raise]. Qed.

Lemma calm_tg E c : calm (tg E c).
Proof.
  intros w. rewrite tg_unfold. destruct (tg_accepts E c); simpl.
  - eapply extends_seen_only, extends_push.
  - apply seen_only_refl.
Qed.

Lemma calm_bind {A B} (m : M A) (f : A → M B) :
  calm m → (∀ a, calm (f a)) → calm (m ≫= f).
Proof.
  intros Hm Hf w. unfold mbind, M_bind.
  specialize (Hm w). destruct (m w) as [[a|e] w1]; simpl in *; [|done].
  eapply seen_only_trans; [done|apply Hf].
Qed.

Lemma calm_search E city token filters limit :
  calm (search E city token filters limit).
Proof.
  intros w. rewrite search_unfold.
  destruct (provider_items E _ _); apply seen_only_refl.
Qed.

Lemma calm_send_post E chat x : calm (send_post E chat x).
Proof.
  intros w. destruct (send_post_spec E chat x w) as (g & Hg & _).
  by eapply extends_seen_only.
Qed.

Lemma calm_send_and_record E chat posts sent_ids :
  calm (send_and_record E chat posts sent_ids).
Proof.
  revert sent_ids. induction posts as [|x r IH]; intros sent_ids; simpl.
  - apply calm_ret.
  - apply calm_bind; [apply calm_send_post|]. intros _. apply IH.
Qed.

Lemma calm_send_initial_results E user_id playlist_id :
  calm (send_initial_results E user_id playlist_id).
Proof.
  intros w. unfold send_initial_results, mbind at 1, M_bind at 1, get_world.
  destruct (db w !! playlist_id) as [p|]; [|apply seen_only_refl].
  unfold mbind, M_bind.
  pose proof (calm_search E (p_city p) (category_token (p_category p))
                (p_filters p) 12 w) as Hs.
  destruct (search E _ _ _ _ w) as [[posts|e] w1]; simpl in Hs; [|done].
  destruct posts as [|x posts].
  { eapply seen_only_trans; [done|apply calm_tg]. }
  pose proof (calm_send_and_record E user_id (x :: posts) [] w1) as Hd.
  destruct (send_and_record E user_id (x :: posts) [] w1) as [[ids|e] w2];
    simpl in Hd; [|by eapply seen_only_trans].
  destruct (db w2 !! playlist_id) as [obj|] eqn:Hobj; simpl.
  - eapply seen_only_trans; [done|]. eapply seen_only_trans; [done|].
    by apply seen_only_update.
  - by eapply seen_only_trans.
Qed.

(** ** What an answer stores *)

Lemma dom_insert_two (filters : gmap string json) a b va vb :
  dom (<[b := vb]> (<[a := va]> filters)) = dom filters ∪ {[a; b]}.
Proof.
  rewrite !dom_insert_L. apply set_eq. intros x.
  rewrite !elem_of_union, !elem_of_singleton. tauto.
Qed.

Lemma store_filter_value_dom category cfg filters step value :
  CATEGORY_FLOWS !! category = Some cfg →
  ∃ filters', store_filter_value category filters step value = Ok filters'
              ∧ dom filters' = dom filters ∪ written_fields cfg step.
Proof.
  intros Hc. unfold written_fields.
  destruct (map_keys cfg !! step) as [[kmin kmax]|] eqn:Hk.
  - destruct (str_contains "-" value) eqn:Hv.
    + destruct (store_filter_value_range _ _ filters _ _ _ _ Hc Hk Hv)
        as (lo & hi & _ & ->).
      eexists. split; [done|].
      destruct (py_int lo), (py_int hi); apply dom_insert_two.
    + rewrite (store_filter_value_plain _ _ filters _ _ _ _ Hc Hk Hv).
      eexists. split; [done|]. apply dom_insert_two.
  - rewrite (store_filter_value_enum _ _ filters _ _ Hc Hk).
    eexists. split; [done|]. rewrite dom_insert_L. apply set_eq. intros x.
    rewrite !elem_of_union, !elem_of_singleton. tauto.
Qed.

(** For the steps of the catalogue the written fields are the declared
    ones. *)
Lemma written_declared category cfg step :
  CATEGORY_FLOWS !! category = Some cfg → step ∈ steps cfg →
  written_fields cfg step = declared_fields cfg step.
Proof.
  intros Hc Hs. apply lookup_flows in Hc. unfold cfg_ok in Hc.
  apply andb_prop in Hc as [Hc _]. apply andb_prop in Hc as [_ Hc].
  rewrite forallb_forall in Hc. apply list_elem_of_In, Hc in Hs.
  unfold step_ok in Hs. apply andb_prop in Hs as [_ Hs].
  unfold written_fields, declared_fields.
  destruct (options cfg !! step) as [opts|]; [|done].
  destruct (map_keys cfg !! step) as [[kmin kmax]|].
  - apply andb_prop in Hs as [Ht _]. apply bool_decide_eq_true in Ht.
    by rewrite Ht.
  - apply bool_decide_eq_true in Hs. by rewrite Hs.
Qed.

(** ** Reading the callback data *)

Lemma str_splitn_1_app sep step value :
  str_contains sep step = false →
  str_splitn sep 1 (step +:+ String sep value) = [step; value].
Proof.
  induction step as [|c r IH]; simpl.
  - intros _. rewrite Ascii.eqb_refl. by destruct value.
  - destruct (Ascii.eqb c sep); [done|]. intros H. by rewrite IH.
Qed.

Lemma flt_data_split step value :
  str_contains ":" step = false →
  str_splitn ":" 2 (flt_data step value) = ["flt"; step; value].
Proof.
  intros H.
  change (str_splitn ":" 2 (flt_data step value))
    with ("flt" :: str_splitn ":" 1 (step +:+ String ":" value)).
  by rewrite str_splitn_1_app.
Qed.

(** ** The [flt:] branch *)

Lemma bind_key_some {A B} k (a : A) (f : A → M B) w :
  (key k (Some a) ≫= f) w = f a w.
Proof. done. Qed.

Lemma bind_lift_ok {A B} (a : A) (f : A → M B) w :
  (lift (Ok a) ≫= f) w = f a w.
Proof. done. Qed.

Lemma bind_mutate {B} uid h (f : unit → M B) w :
  (mutate uid h ≫= f) w = f tt (set_builder_state (alter h uid) w).
Proof. done. Qed.

Lemma bind_modify {B} g (f : unit → M B) w :
  (modify g ≫= f) w = f tt (g w).
Proof. done. Qed.

Lemma bind_db_add {B} mk (f : Z → M B) w :
  (db_add mk ≫= f) w =
    f (next_id w)
      {| builder_state := builder_state w;
         db := <[next_id w := mk (next_id w)]> (db w);
         next_id := next_id w + 1; outbox := outbox w |}.
Proof. done. Qed.

Lemma alter_known {A} (g : A → A) (uid : Z) (m : gmap Z A) a :
  m !! uid = Some a → alter g uid m = <[uid := g a]> m.
Proof.
  intros H. apply map_eq. intros i. destruct (decide (uid = i)) as [<-|Hne].
  - by rewrite lookup_alter_eq, lookup_insert_eq, H.
  - by rewrite lookup_alter_ne, lookup_insert_ne.
Qed.

Lemma startswith_flt step value : startswith "flt:" (flt_data step value) = true.
Proof.
  unfold startswith, flt_data. simpl.
  by destruct ("" +:+ step +:+ ":" +:+ value).
Qed.

Lemma on_callback_flt E uid step value w :
  tg_accepts E (AnswerCallback uid) = true →
  on_callback E uid (flt_data step value) w =
    match builder_state w !! uid with
    | Some st =>
        on_flt E uid (flt_data step value) st (push_outbox (AnswerCallback uid) w)
    | None => (Ok tt, push_outbox (AnswerCallback uid) w)
    end.
Proof.
  intros Hack. unfold on_callback, mbind at 1, M_bind at 1.
  rewrite tg_unfold, Hack.
  change (startswith "pl:new" (flt_data step value)) with false.
  change (startswith "pl:show:" (flt_data step value)) with false.
  change (startswith "pl:del:" (flt_data step value)) with false.
  change (startswith "cat:" (flt_data step value)) with false.
  change (startswith "city:" (flt_data step value)) with false.
  change (startswith "dist:" (flt_data step value)) with false.
  rewrite startswith_flt.
  unfold mbind, M_bind, get_world.
  change (builder_state (push_outbox (AnswerCallback uid) w))
    with (builder_state w).
  by destruct (builder_state w !! uid).
Qed.

(** The tail of a step that is not the last one: a prompt. *)
Lemma calm_prompt E uid cat (flow : list string) i :
  calm (next_step ← index flow i;
        label ← lift (step_label cat next_step);
        tg E (EditText uid (Literal label)) ;;
        kb ← lift (step_keyboard cat next_step);
        tg E (EditReplyMarkup uid kb)).
Proof.
  apply calm_bind; [apply calm_index|]. intros next_step.
  apply calm_bind; [apply calm_lift|]. intros label.
  apply calm_bind; [apply calm_tg|]. intros _.
  apply calm_bind; [apply calm_lift|]. intros kb. apply calm_tg.
Qed.

(** The tail of the last step, after the playlist is stored. *)
Lemma calm_finish E uid pid :
  calm (tg E (EditText uid (Literal "✅ پلی‌لیست با موفقیت ثبت شد! الان نتایج مطابق فیلترها رو می‌فرستم...")) ;;
        send_initial_results E uid pid ;;
        tg E (SendMessage uid (Literal "هر زمان آماده‌ای ادامه بده 👇") None (Some KbMain))).
Proof.
  apply calm_bind; [apply calm_tg|]. intros _.
  apply calm_bind; [apply calm_send_initial_results|]. intros _. apply calm_tg.
Qed.

(** The effect of one answer on the stored state, whatever the step
    and the value are. *)
Lemma on_flt_effect E uid st w cat cfg f flow idx step value :
  builder_state w !! uid = Some st →
  st_category st = Some cat →
  CATEGORY_FLOWS !! cat = Some cfg →
  st_filters st = Some f →
  st_flow st = Some flow →
  st_flow_idx st = Some idx →
  str_contains ":" step = false →
  ∃ f', store_filter_value cat f step value = Ok f'
    ∧ dom f' = dom f ∪ written_fields cfg step
    ∧ ((S idx < length flow)%nat →
       seen_only
         (set_builder_state <[uid := answered f' idx st]> w)
         (on_flt E uid (flt_data step value) st w).2)
    ∧ ((length flow ≤ S idx)%nat → ∀ city, st_city st = Some city →
       seen_only
         {| builder_state := delete uid (builder_state w);
            db := <[next_id w := created uid cfg cat city st f' (next_id w)]> (db w);
            next_id := next_id w + 1; outbox := outbox w |}
         (on_flt E uid (flt_data step value) st w).2).
Proof.
  intros Hst Hcat Hcfg Hf Hflow Hidx Hstep.
  destruct (store_filter_value_dom cat cfg f step value Hcfg) as (f' & Hstore & Hdom).
  exists f'. split; [done|]. split; [done|].
  unfold on_flt. rewrite flt_data_split by done. cbv iota beta.
  rewrite Hcat, bind_key_some. cbv beta.
  rewrite Hf, bind_key_some. cbv beta.
  rewrite Hstore, bind_lift_ok, bind_mutate. cbv beta.
  rewrite Hidx, bind_key_some, bind_mutate. cbv beta.
  rewrite Hflow, bind_key_some. cbv beta.
  assert (Hw1 : set_builder_state (alter (set_flow_idx (S idx)) uid)
                  (set_builder_state (alter (set_filters f') uid) w)
                = set_builder_state <[uid := answered f' idx st]> w).
  { unfold set_builder_state. simpl. f_equal.
    rewrite (alter_known _ _ _ _ Hst).
    rewrite (alter_known _ _ _ (set_filters f' st)) by apply lookup_insert_eq.
    by rewrite insert_insert_eq. }
  rewrite Hw1. clear Hw1. split.
  - intros Hlt. apply Nat.ltb_lt in Hlt. rewrite Hlt. apply calm_prompt.
  - intros Hge city Hcity. apply Nat.ltb_ge in Hge. rewrite Hge.
    unfold lookup_key. rewrite Hcfg, bind_lift_ok. cbv beta.
    rewrite Hcity, bind_key_some. cbv beta.
    rewrite bind_db_add, bind_modify. cbv beta.
    match goal with
    | |- seen_only ?a (?m ?b).2 => replace b with a; [apply calm_finish|]
    end.
    unfold set_builder_state. simpl. f_equal.
    by rewrite delete_insert_eq.
Qed.

(** The effect of an acknowledged answer on the stored state. *)
Lemma answer_effect E uid st w cat cfg f flow idx step value :
  tg_accepts E (AnswerCallback uid) = true →
  builder_state w !! uid = Some st →
  st_category st = Some cat →
  CATEGORY_FLOWS !! cat = Some cfg →
  st_filters st = Some f →
  st_flow st = Some flow →
  st_flow_idx st = Some idx →
  str_contains ":" step = false →
  ∃ f', store_filter_value cat f step value = Ok f'
    ∧ dom f' = dom f ∪ written_fields cfg step
    ∧ ((S idx < length flow)%nat →
       seen_only
         (set_builder_state <[uid := answered f' idx st]> w)
         (on_callback E uid (flt_data step value) w).2)
    ∧ ((length flow ≤ S idx)%nat → ∀ city, st_city st = Some city →
       seen_only
         {| builder_state := delete uid (builder_state w);
            db := <[next_id w := created uid cfg cat city st f' (next_id w)]> (db w);
            next_id := next_id w + 1; outbox := outbox w |}
         (on_callback E uid (flt_data step value) w).2).
Proof.
  intros Hack Hst Hcat Hcfg Hf Hflow Hidx Hstep.
  rewrite on_callback_flt, Hst by done.
  destruct (on_flt_effect E uid st (push_outbox (AnswerCallback uid) w)
              cat cfg f flow idx step value) as (f' & Hs & Hd & Hnext & Hlast);
    try done.
  exists f'. split; [done|]. split; [done|]. split.
  - intros Hlt. eapply seen_only_trans; [|by apply Hnext].
    by repeat split.
  - intros Hge city Hcity. eapply seen_only_trans; [|by eapply Hlast].
    by repeat split.
Qed.

Lemma step_no_colon category cfg step :
  CATEGORY_FLOWS !! category = Some cfg → step ∈ steps cfg →
  str_contains ":" step = false.
Proof.
  intros Hc Hs. apply lookup_flows in Hc. unfold cfg_ok in Hc.
  apply andb_prop in Hc as [Hc _]. apply andb_prop in Hc as [_ Hc].
  rewrite forallb_forall in Hc. apply list_elem_of_In, Hc in Hs.
  unfold step_ok in Hs. apply andb_prop in Hs as [Hs _].
  apply andb_prop in Hs as [Hs _]. by apply negb_true_iff in Hs.
Qed.

Lemma steps_nonempty category cfg :
  CATEGORY_FLOWS !! category = Some cfg → steps cfg ≠ [].
Proof.
  intros Hc. apply lookup_flows in Hc. unfold cfg_ok in Hc.
  apply andb_prop in Hc as [Hc _]. apply andb_prop in Hc as [Hc _].
  by destruct (steps cfg).
Qed.

Lemma run_callbacks_cons E uid data datas w :
  run_callbacks E uid (data :: datas) w
  = run_callbacks E uid datas (on_callback E uid data w).2.
Proof. done. Qed.

(** Answering the remaining steps [rest] of a flow, one callback per
    step, ends in a stored playlist whose criteria have the keys
    gathered so far and the fields the remaining steps write. *)
Lemma flow_run E uid cat cfg city :
  CATEGORY_FLOWS !! cat = Some cfg →
  tg_accepts E (AnswerCallback uid) = true →
  ∀ rest answers before f w st,
    steps cfg = before ++ rest → rest ≠ [] → length answers = length rest →
    builder_state w !! uid = Some st →
    st_category st = Some cat → st_filters st = Some f →
    st_flow st = Some (steps cfg) → st_flow_idx st = Some (length before) →
    st_city st = Some city →
    builder_state (run_callbacks E uid (zip_with flt_data rest answers) w) !! uid
      = None
    ∧ next_id (run_callbacks E uid (zip_with flt_data rest answers) w)
      = next_id w + 1
    ∧ ∃ row,
        db (run_callbacks E uid (zip_with flt_data rest answers) w) !! next_id w
          = Some row
        ∧ p_user_id row = uid ∧ p_category row = cat ∧ p_city row = city
        ∧ dom (p_filters row) = dom f ∪ ⋃ (written_fields cfg <$> rest).
Proof.
  intros Hcfg Hack rest.
  induction rest as [|step rest IH]; intros answers before f w st
    Hsteps Hne Hlen Hst Hcat Hf Hflow Hidx Hcity; [done|].
  destruct answers as [|value answers]; [done|]. simpl in Hlen.
  assert (Hstep : str_contains ":" step = false).
  { eapply step_no_colon; [done|]. rewrite Hsteps, elem_of_app. right. by left. }
  simpl zip_with. rewrite run_callbacks_cons.
  destruct (answer_effect E uid st w cat cfg f (steps cfg) (length before) step value)
    as (f' & Hs & Hd & Hnext & Hlast); try done.
  assert (Hflen : length (steps cfg) = (length before + S (length rest))%nat).
  { rewrite Hsteps, length_app. done. }
  destruct rest as [|step' rest'].
  - destruct answers; [|done]. simpl zip_with. unfold run_callbacks at 1 2 3. simpl foldl.
    destruct (Hlast ltac:(simpl in Hflen; lia) city Hcity) as (Hb & Hn & Hdb).
    simpl in Hb, Hn, Hdb. rewrite Hb, Hn, lookup_delete_eq.
    split; [done|]. split; [done|].
    specialize (Hdb (next_id w)). rewrite lookup_insert_eq in Hdb. simpl in Hdb.
    destruct (db _ !! next_id w) as [row|]; [|done].
    apply (inj Some) in Hdb. exists row. split; [done|].
    pose proof (f_equal p_user_id Hdb) as Hu.
    pose proof (f_equal p_category Hdb) as Hc.
    pose proof (f_equal p_city Hdb) as Hci.
    pose proof (f_equal p_filters Hdb) as Hfi. simpl in Hu, Hc, Hci, Hfi.
    rewrite Hu, Hc, Hci, Hfi, Hd. simpl.
    repeat split; try done. by rewrite (right_id_L ∅ (∪)).
  - destruct (Hnext ltac:(simpl in Hflen; lia)) as (Hb & Hn & Hdb).
    simpl in Hb, Hn, Hdb.
    destruct (IH answers (before ++ [step]) f'
                (on_callback E uid (flt_data step value) w).2
                (answered f' (length before) st)) as (Hb' & Hn' & row & Hrow & Hfields).
    + by rewrite <- app_assoc.
    + done.
    + by injection Hlen.
    + by rewrite Hb, lookup_insert_eq.
    + done.
    + done.
    + done.
    + simpl. rewrite length_app. simpl. f_equal. f_equal. lia.
    + done.
    + rewrite Hn in Hn', Hrow. split; [done|]. split; [done|].
      exists row. split; [done|].
      destruct Hfields as (? & ? & ? & Hdom). repeat split; try done.
      rewrite Hdom, Hd. simpl. apply set_eq. intros x.
      rewrite !elem_of_union. tauto.
Qed.

(** ** The builder dialogue, end to end *)

(** C6. For every category of the catalogue, answering every step of
    its flow in order, each with one of its declared option values,
    ends the dialogue: the session is discarded and a playlist is
    stored whose criteria have as keys exactly the two mapped names of
    every range step and the name of every enum step. *)
Theorem flow_finishes_with_declared_fields E uid cat cfg city w st answers :
  CATEGORY_FLOWS !! cat = Some cfg →
  tg_accepts E (AnswerCallback uid) = true →
  builder_state w !! uid = Some st →
  st_category st = Some cat →
  st_filters st = Some ∅ →
  st_flow st = Some (steps cfg) →
  st_flow_idx st = Some 0%nat →
  st_city st = Some city →
  Forall2 (λ step value, value ∈ option_values cfg step) (steps cfg) answers →
  builder_state
    (run_callbacks E uid (zip_with flt_data (steps cfg) answers) w) !! uid = None
  ∧ ∃ row,
      db (run_callbacks E uid (zip_with flt_data (steps cfg) answers) w)
        !! next_id w = Some row
      ∧ p_user_id row = uid ∧ p_category row = cat ∧ p_city row = city
      ∧ dom (p_filters row) = expected_fields cfg.
Proof.
  intros Hcfg Hack Hst Hcat Hf Hflow Hidx Hcity Hans.
  destruct (flow_run E uid cat cfg city Hcfg Hack (steps cfg) answers [] ∅ w st)
    as (Hb & _ & row & Hrow & Hu & Hc & Hci & Hdom); try done.
  - by eapply steps_nonempty.
  - symmetry. by eapply Forall2_length.
  - split; [done|]. exists row. repeat split; try done.
    rewrite Hdom, dom_empty_L, (left_id_L ∅ (∪)). unfold expected_fields.
    f_equal. apply list_fmap_ext. intros i step Hi.
    eapply written_declared; [done|]. by eapply list_elem_of_lookup_2.
Qed.

Lemma flow_finishes_with_declared_fields_witness :
  builder_state
    (run_callbacks (sample_env [] (λ _, true)) 7
       (zip_with flt_data (steps flow_car)
          ["50000-100000"; "2016-2021"; "0-300000000"])
       sample_builder) !! 7 = None
  ∧ ∃ row,
      db (run_callbacks (sample_env [] (λ _, true)) 7
            (zip_with flt_data (steps flow_car)
               ["50000-100000"; "2016-2021"; "0-300000000"])
            sample_builder) !! next_id sample_builder = Some row
      ∧ p_user_id row = 7 ∧ p_category row = "car" ∧ p_city row = "tehran"
      ∧ dom (p_filters row) = expected_fields flow_car.
Proof.
  apply (flow_finishes_with_declared_fields (sample_env [] (λ _, true)) 7
           "car" flow_car "tehran" sample_builder sample_session);
    try reflexivity.
  repeat constructor; apply bool_decide_unpack; vm_compute; exact I.
Defined.

(** The stored state after an acknowledged answer, in the terms of
    the session. *)
Lemma answer_stored E uid st w cat cfg f idx step value :
  tg_accepts E (AnswerCallback uid) = true →
  builder_state w !! uid = Some st →
  st_category st = Some cat →
  CATEGORY_FLOWS !! cat = Some cfg →
  st_filters st = Some f →
  st_flow st = Some (steps cfg) →
  st_flow_idx st = Some idx →
  str_contains ":" step = false →
  ∃ f', store_filter_value cat f step value = Ok f'
    ∧ dom f' = dom f ∪ written_fields cfg step
    ∧ ((S idx < length (steps cfg))%nat →
       builder_state (on_callback E uid (flt_data step value) w).2 !! uid
         = Some (answered f' idx st))
    ∧ ((length (steps cfg) ≤ S idx)%nat → ∀ city, st_city st = Some city →
       builder_state (on_callback E uid (flt_data step value) w).2 !! uid = None
       ∧ p_filters <$> db (on_callback E uid (flt_data step value) w).2 !! next_id w
         = Some f').
Proof.
  intros Hack Hst Hcat Hcfg Hf Hflow Hidx Hstep.
  destruct (answer_effect E uid st w cat cfg f (steps cfg) idx step value)
    as (f' & Hs & Hd & Hnext & Hlast); try done.
  exists f'. split; [done|]. split; [done|]. split.
  - intros Hlt. destruct (Hnext Hlt) as (-> & _). simpl.
    apply lookup_insert_eq.
  - intros Hge city Hcity. destruct (Hlast Hge city Hcity) as (-> & _ & Hdb).
    simpl in *. split; [apply lookup_delete_eq|].
    specialize (Hdb (next_id w)). rewrite lookup_insert_eq in Hdb.
    destruct (db _ !! next_id w) as [row|]; [|done].
    apply (inj Some) in Hdb. simpl. f_equal.
    apply (f_equal p_filters) in Hdb. done.
Qed.

(** C2 (as the code has it).  An answer whose value is not among the
    declared option values of the current step is not refused: the value
    is stored by the mapping rule of the step and the step index
    advances by one; after the last step the playlist is stored with
    these criteria. *)
Theorem undeclared_value_is_stored E uid st w cat cfg f idx step value :
  tg_accepts E (AnswerCallback uid) = true →
  builder_state w !! uid = Some st →
  st_category st = Some cat →
  CATEGORY_FLOWS !! cat = Some cfg →
  st_filters st = Some f →
  st_flow st = Some (steps cfg) →
  st_flow_idx st = Some idx →
  steps cfg !! idx = Some step →
  value ∉ option_values cfg step →
  ∃ f', store_filter_value cat f step value = Ok f'
    ∧ dom f' = dom f ∪ written_fields cfg step
    ∧ ((S idx < length (steps cfg))%nat →
       builder_state (on_callback E uid (flt_data step value) w).2 !! uid
         = Some (answered f' idx st))
    ∧ ((length (steps cfg) ≤ S idx)%nat → ∀ city, st_city st = Some city →
       builder_state (on_callback E uid (flt_data step value) w).2 !! uid = None
       ∧ p_filters <$> db (on_callback E uid (flt_data step value) w).2 !! next_id w
         = Some f').
Proof.
  intros Hack Hst Hcat Hcfg Hf Hflow Hidx Hcur _.
  eapply answer_stored; try done.
  eapply step_no_colon; [done|]. by eapply list_elem_of_lookup_2.
Qed.

Lemma undeclared_value_is_stored_witness :
  ∃ f', store_filter_value "car" ∅ "mileage" "bogus" = Ok f'
    ∧ dom f' = dom (∅ : gmap string json) ∪ written_fields flow_car "mileage"
    ∧ ((1 < length (steps flow_car))%nat →
       builder_state (on_callback (sample_env [] (λ _, true)) 7
                        (flt_data "mileage" "bogus") sample_builder).2 !! 7
         = Some (answered f' 0 sample_session))
    ∧ ((length (steps flow_car) ≤ 1)%nat → ∀ city,
       st_city sample_session = Some city →
       builder_state (on_callback (sample_env [] (λ _, true)) 7
                        (flt_data "mileage" "bogus") sample_builder).2 !! 7 = None
       ∧ p_filters <$> db (on_callback (sample_env [] (λ _, true)) 7
                             (flt_data "mileage" "bogus") sample_builder).2
                         !! next_id sample_builder
         = Some f').
Proof.
  apply (undeclared_value_is_stored (sample_env [] (λ _, true)) 7
           sample_session sample_builder "car" flow_car ∅ 0 "mileage" "bogus");
    try reflexivity.
  apply not_elem_of_compute. vm_compute. reflexivity.
Defined.

(** The counterexample to C2 as stated: ["bogus"] is no option of the
    mileage step, and yet the answer is accepted and the session
    changes. *)
Lemma undeclared_value_changes_session :
  ("bogus" ∉ option_values flow_car "mileage")
  ∧ (on_callback (sample_env [] (λ _, true)) 7 "flt:mileage:bogus"
       sample_builder).1 = Ok tt
  ∧ builder_state (on_callback (sample_env [] (λ _, true)) 7 "flt:mileage:bogus"
                     sample_builder).2 !! 7
    = Some (answered (<["mileage_max" := VStr "bogus"]>
                        (<["mileage_min" := VStr "bogus"]> ∅)) 0 sample_session)
  ∧ builder_state (on_callback (sample_env [] (λ _, true)) 7 "flt:mileage:bogus"
                     sample_builder).2 !! 7
    ≠ builder_state sample_builder !! 7.
Proof.
  split; [apply not_elem_of_compute; by vm_compute|].
  split; [by vm_compute|]. split; [by vm_compute|].
  intros H. vm_compute in H. discriminate H.
Qed.

(** C3 (as the code has it).  An answer that names another step than
    the one the session is at is not refused: the value is stored under
    the fields of the step it names and the step index advances by
    one; after the last step the playlist is stored with these
    criteria. *)
Theorem other_step_is_stored E uid st w cat cfg f idx expected step value :
  tg_accepts E (AnswerCallback uid) = true →
  builder_state w !! uid = Some st →
  st_category st = Some cat →
  CATEGORY_FLOWS !! cat = Some cfg →
  st_filters st = Some f →
  st_flow st = Some (steps cfg) →
  st_flow_idx st = Some idx →
  steps cfg !! idx = Some expected →
  step ≠ expected →
  str_contains ":" step = false →
  ∃ f', store_filter_value cat f step value = Ok f'
    ∧ dom f' = dom f ∪ written_fields cfg step
    ∧ ((S idx < length (steps cfg))%nat →
       builder_state (on_callback E uid (flt_data step value) w).2 !! uid
         = Some (answered f' idx st))
    ∧ ((length (steps cfg) ≤ S idx)%nat → ∀ city, st_city st = Some city →
       builder_state (on_callback E uid (flt_data step value) w).2 !! uid = None
       ∧ p_filters <$> db (on_callback E uid (flt_data step value) w).2 !! next_id w
         = Some f').
Proof.
  intros Hack Hst Hcat Hcfg Hf Hflow Hidx _ _ Hstep.
  by eapply answer_stored.
Qed.

Lemma other_step_is_stored_witness :
  ∃ f', store_filter_value "car" ∅ "price" "0-300000000" = Ok f'
    ∧ dom f' = dom (∅ : gmap string json) ∪ written_fields flow_car "price"
    ∧ ((1 < length (steps flow_car))%nat →
       builder_state (on_callback (sample_env [] (λ _, true)) 7
                        (flt_data "price" "0-300000000") sample_builder).2 !! 7
         = Some (answered f' 0 sample_session))
    ∧ ((length (steps flow_car) ≤ 1)%nat → ∀ city,
       st_city sample_session = Some city →
       builder_state (on_callback (sample_env [] (λ _, true)) 7
                        (flt_data "price" "0-300000000") sample_builder).2 !! 7 = None
       ∧ p_filters <$> db (on_callback (sample_env [] (λ _, true)) 7
                             (flt_data "price" "0-300000000") sample_builder).2
                         !! next_id sample_builder
         = Some f').
Proof.
  apply (other_step_is_stored (sample_env [] (λ _, true)) 7
           sample_session sample_builder "car" flow_car ∅ 0 "mileage" "price"
           "0-300000000");
    try reflexivity.
  discriminate.
Defined.

(** The counterexample to C3 as stated: the session is at the mileage
    step, the answer names the price step; it is accepted, the price
    bounds enter the criteria and the index moves on. *)
Lemma other_step_changes_session :
  st_flow sample_session = Some ["mileage"; "year"; "price"]
  ∧ st_flow_idx sample_session = Some 0%nat
  ∧ (on_callback (sample_env [] (λ _, true)) 7 "flt:price:0-300000000"
       sample_builder).1 = Ok tt
  ∧ builder_state (on_callback (sample_env [] (λ _, true)) 7
                     "flt:price:0-300000000" sample_builder).2 !! 7
    = Some (answered (<["price_max" := VInt 300000000]>
                        (<["price_min" := VInt 0]> ∅)) 0 sample_session)
  ∧ builder_state (on_callback (sample_env [] (λ _, true)) 7
                     "flt:price:0-300000000" sample_builder).2 !! 7
    ≠ builder_state sample_builder !! 7.
Proof.
  split; [done|]. split; [done|]. split; [by vm_compute|].
  split; [by vm_compute|].
  intros H. vm_compute in H. discriminate H.
Qed.

(* ================================================================== *)
(** * Further properties of the modelled code *)

(** Membership in a concrete list, by evaluation. *)
Lemma elem_of_compute (x : string) (l : list string) :
  bool_decide (x ∈ l) = true → x ∈ l.
Proof. apply bool_decide_eq_true. Qed.

(** ** Keyboards *)

(** The button a (label, value) pair becomes. *)
Lemma build_grid_buttons_acc pairs prefix row :
  (length row < 3)%nat →
  concat (build_grid_buttons pairs prefix row)
    = row ++ ((λ lv, (lv.1, prefix +:+ ":" +:+ lv.2)) <$> pairs)
  ∧ Forall (λ r, (1 ≤ length r ≤ 3)%nat) (build_grid_buttons pairs prefix row)
  ∧ (∀ i r, build_grid_buttons pairs prefix row !! i = Some r →
       (S i < length (build_grid_buttons pairs prefix row))%nat →
       length r = 3%nat).
Proof.
  revert row. induction pairs as [|[label val] rest IH]; intros row Hrow; simpl.
  - destruct row as [|b row]; simpl.
    + split; [done|]. split; [constructor|]. by intros i r.
    + rewrite !app_nil_r. split; [done|]. split.
      * apply Forall_cons. split; [simpl in *; lia|apply Forall_nil_2].
      * intros [|i] r; simpl; [lia|done].
  - destruct (Nat.eqb_spec (length (row ++ [(label, prefix +:+ ":" +:+ val)])) 3)
      as [H3|H3].
    + destruct (IH [] ltac:(simpl; lia)) as (Hc & Hall & Hfull).
      simpl. rewrite Hc. simpl. rewrite <- app_assoc. split; [done|]. split.
      * apply Forall_cons. split; [lia|done].
      * intros [|i] r; simpl.
        -- by intros [= <-].
        -- intros Hi Hlen. apply (Hfull i r Hi). lia.
    + rewrite length_app in H3. simpl in H3.
      destruct (IH (row ++ [(label, prefix +:+ ":" +:+ val)])) as (Hc & Hall & Hfull).
      { rewrite length_app. simpl. lia. }
      rewrite Hc, <- app_assoc. done.
Qed.

(** X1. [build_grid_buttons] lays the buttons out in rows without
    losing, adding or reordering any: read row by row they are the
    given pairs, each with the prefixed callback data; no row is empty
    or longer than three, and only the last row may be shorter than
    three. *)
Theorem build_grid_buttons_rows pairs prefix :
  concat (build_grid_buttons pairs prefix [])
    = (λ lv, (lv.1, prefix +:+ ":" +:+ lv.2)) <$> pairs
  ∧ Forall (λ r, (1 ≤ length r ≤ 3)%nat) (build_grid_buttons pairs prefix [])
  ∧ (∀ i r, build_grid_buttons pairs prefix [] !! i = Some r →
       (S i < length (build_grid_buttons pairs prefix []))%nat →
       length r = 3%nat).
Proof. apply (build_grid_buttons_acc pairs prefix []). simpl. lia. Qed.

Lemma string_app_assoc (a b c : string) : (a +:+ b) +:+ c = a +:+ (b +:+ c).
Proof.
  induction a as [|x a IH]; [done|].
  change (String x ((a +:+ b) +:+ c) = String x (a +:+ (b +:+ c))).
  by rewrite IH.
Qed.

Lemma options_of_step category cfg step :
  CATEGORY_FLOWS !! category = Some cfg → step ∈ steps cfg →
  is_Some (options cfg !! step) ∧ is_Some (labels cfg !! step).
Proof.
  intros Hc Hs. apply lookup_flows in Hc. unfold cfg_ok in Hc.
  apply andb_prop in Hc as [Hc _]. apply andb_prop in Hc as [_ Hc].
  rewrite forallb_forall in Hc. apply list_elem_of_In, Hc in Hs.
  unfold step_ok in Hs. apply andb_prop in Hs as [Hs Ho].
  apply andb_prop in Hs as [_ Hl]. apply bool_decide_eq_true in Hl.
  split; [|done]. by destruct (options cfg !! step).
Qed.

(** X2. For every step of every flow of the catalogue the prompt
    exists ([step_label] and [step_keyboard] raise no [KeyError]), the
    keyboard offers exactly the declared options of the step, and the
    callback data of each button is read back by the [flt:] branch as
    that step and that value. *)
Theorem step_keyboard_round_trip category cfg step :
  CATEGORY_FLOWS !! category = Some cfg →
  step ∈ steps cfg →
  ∃ label rows,
    step_label category step = Ok label
    ∧ step_keyboard category step = Ok (KbInline rows)
    ∧ (concat rows).*2 = flt_data step <$> option_values cfg step
    ∧ ∀ value, value ∈ option_values cfg step →
        str_splitn ":" 2 (flt_data step value) = ["flt"; step; value].
Proof.
  intros Hc Hs.
  destruct (options_of_step _ _ _ Hc Hs) as [[opts Ho] [label Hl]].
  exists label, (build_grid_buttons (choices opts) ("flt:" +:+ step) []).
  unfold step_label, step_keyboard, lookup_key, option_values.
  rewrite Hc, Ho, Hl. split; [done|]. split; [done|]. split.
  - destruct (build_grid_buttons_rows (choices opts) ("flt:" +:+ step)) as (-> & _).
    rewrite <- !list_fmap_compose. apply list_fmap_ext. intros i [l v] _. simpl.
    unfold flt_data. by rewrite string_app_assoc.
  - intros value _. apply flt_data_split. by eapply step_no_colon.
Qed.

Lemma step_keyboard_round_trip_witness :
  ∃ label rows,
    step_label "real_estate" "rooms" = Ok label
    ∧ step_keyboard "real_estate" "rooms" = Ok (KbInline rows)
    ∧ (concat rows).*2 = flt_data "rooms" <$> option_values flow_real_estate "rooms"
    ∧ ∀ value, value ∈ option_values flow_real_estate "rooms" →
        str_splitn ":" 2 (flt_data "rooms" value) = ["flt"; "rooms"; value].
Proof.
  apply (step_keyboard_round_trip "real_estate" flow_real_estate "rooms").
  - reflexivity.
  - apply elem_of_compute. vm_compute. reflexivity.
Defined.

(** ** The provider query *)

(** X3. [search] changes nothing in the world; when the provider
    answers it returns the first [max 1 limit] posts in the provider's
    order (the limit is tested after the first append, so a limit of 0
    still yields one post), and when the request fails it raises. *)
Theorem search_returns_prefix E city token filters limit w :
  match provider_items E (search_url city) (search_payload city token filters) with
  | Some items =>
      search E city token filters limit w
        = (Ok (take (Nat.max 1 limit) items), w)
  | None => search E city token filters limit w = (Raise ProviderError, w)
  end.
Proof.
  rewrite search_unfold. destruct (provider_items E _ _) as [items|]; [|done].
  by rewrite collect_posts_take.
Qed.

(** ** One delivery *)

Ltac well_formed_calls :=
  repeat (apply Forall_cons; split;
          [simpl; rewrite ?length_take; repeat split; try congruence; lia|]);
  apply Forall_nil_2.

(** X4. A delivery makes at most two accepted calls, all to the given
    chat: an album of one to nine pictures and messages that carry the
    link button of the post; nothing else in the world changes.  It
    raises only when the caption message is refused, and then with
    [TransportError]. *)
Theorem send_post_calls E chat x w :
  ∃ g, extends w (send_post E chat x w).2 g
       ∧ (length g ≤ 2)%nat
       ∧ Forall (well_formed_call chat x) g
       ∧ ((send_post E chat x w).1 = Ok tt
          ∨ (send_post E chat x w).1 = Raise TransportError
            ∧ tg_accepts E (caption_message chat x) = false).
Proof.
  unfold send_post, caption_message.
  destruct (gallery E x _) as [|first others].
  - rewrite tg_unfold. destruct (tg_accepts E _) eqn:Hcap.
    + eexists [_]. simpl. split; [extends_list|]. split; [lia|].
      split; [well_formed_calls|by left].
    + exists []. simpl. split; [extends_list|]. split; [lia|].
      split; [well_formed_calls|by right].
  - unfold try_except, mbind, M_bind. rewrite tg_unfold.
    destruct (tg_accepts E (SendMediaGroup _ _ _)) eqn:Hmg.
    + destruct (url_button x) as [u|] eqn:Hu.
      * rewrite tg_unfold.
        destruct (tg_accepts E (SendMessage _ (Literal _) _ _)) eqn:Hdots.
        -- eexists [_; _]. simpl. split; [extends_list|]. split; [lia|].
           split; [well_formed_calls|by left].
        -- rewrite tg_unfold.
           destruct (tg_accepts E (SendMessage _ (Caption _) _ _)) eqn:Hcap.
           ++ eexists [_; _]. simpl. split; [extends_list|]. split; [lia|].
              split; [well_formed_calls|by left].
           ++ eexists [_]. simpl. split; [extends_list|]. split; [lia|].
              split; [well_formed_calls|by right].
      * eexists [_]. simpl. split; [extends_list|]. split; [lia|].
        split; [well_formed_calls|by left].
    + rewrite tg_unfold.
      destruct (tg_accepts E (SendMessage _ (Caption _) _ _)) eqn:Hcap.
      * eexists [_]. simpl. split; [extends_list|]. split; [lia|].
        split; [well_formed_calls|by left].
      * exists []. simpl. split; [extends_list|]. split; [lia|].
        split; [well_formed_calls|by right].
Qed.

(** X5. The detail endpoint matters only for a post that has a link,
    an identifier and fewer than two pictures: for any other post two
    worlds of collaborators that agree on Telegram deliver it alike. *)
Theorem send_post_ignores_details E E' chat x w :
  tg_accepts E' = tg_accepts E →
  truthy (post_url x) = false ∨ truthy (post_id x) = false
  ∨ (2 ≤ length (filter (λ u, nonempty u = true) (post_images x)))%nat →
  send_post E' chat x w = send_post E chat x w.
Proof.
  intros Htg Hcase. unfold send_post.
  assert (Hg : ∀ images, images = filter (λ u, nonempty u = true) (post_images x) →
                gallery E' x images = gallery E x images).
  { intros images ->. unfold gallery.
    destruct Hcase as [->|[->|Hlen]]; [done|by rewrite andb_false_r|].
    apply Nat.ltb_ge in Hlen. by rewrite Hlen, andb_false_r. }
  rewrite (Hg _ eq_refl). unfold tg. by rewrite Htg.
Qed.

Lemma send_post_ignores_details_witness :
  send_post (mashhad_down []) 7 (sample_post (Some "b") ["u1"; "u2"]) sample_world
  = send_post (sample_env [] (λ _, true)) 7 (sample_post (Some "b") ["u1"; "u2"])
      sample_world.
Proof.
  apply (send_post_ignores_details (sample_env [] (λ _, true)) (mashhad_down [])).
  - reflexivity.
  - right. right. vm_compute. lia.
Defined.

(** ** Turns of the sweep *)

Lemma calm_check_playlist E p : calm (check_playlist E p).
Proof.
  intros w. split; [|split].
  - destruct (provider_response E p) as [items|] eqn:Hr.
    + destruct (check_playlist_spec E p w items _ Hr eq_refl) as (k & g & _).
      rewrite (check_playlist_found _ _ _ _ Hr). cbv zeta.
      destruct (new_posts _ _) as [|x new]; [done|].
      destruct (dispatch_spec E (p_user_id p) (x :: new) w)
        as (k' & g' & (Hb & _) & _).
      destruct (for_each _ _ _) as [[[]|e] w1]; simpl in *; [|done].
      by destruct (db w1 !! p_id p).
    + by rewrite check_playlist_skipped.
  - destruct (provider_response E p) as [items|] eqn:Hr.
    + rewrite (check_playlist_found _ _ _ _ Hr). cbv zeta.
      destruct (new_posts _ _) as [|x new]; [done|].
      destruct (dispatch_spec E (p_user_id p) (x :: new) w)
        as (k' & g' & (_ & _ & Hn & _) & _).
      destruct (for_each _ _ _) as [[[]|e] w1]; simpl in *; [|done].
      by destruct (db w1 !! p_id p).
    + by rewrite check_playlist_skipped.
  - intros i.
    destruct (check_playlist_db E p w) as [->|(obj & ids & Hobj & ->)]; [done|].
    destruct (decide (p_id p = i)) as [<-|Hne].
    + by rewrite lookup_insert_eq, Hobj.
    + by rewrite lookup_insert_ne.
Qed.

Lemma calm_for_each {A} (body : A → M unit) l :
  (∀ x, calm (body x)) → calm (for_each body l).
Proof.
  intros Hb. induction l as [|x r IH]; [apply calm_ret|].
  simpl. apply calm_bind; [apply Hb|]. by intros _.
Qed.

(** X7. A sweep touches nothing but seen lists and the outbox: the
    builder sessions and the id counter are as before, no playlist is
    created or deleted, and every playlist keeps its owner, title,
    category, city, district and filters, however the sweep ends. *)
Theorem sweep_changes_seen_lists_only E w :
  builder_state (check_once E w).2 = builder_state w
  ∧ next_id (check_once E w).2 = next_id w
  ∧ ∀ i, criteria_of <$> db (check_once E w).2 !! i = criteria_of <$> db w !! i.
Proof.
  unfold check_once, mbind, M_bind, get_world.
  apply (calm_for_each (check_playlist E) (all_playlists w)).
  apply calm_check_playlist.
Qed.

Lemma elem_of_mru i ids seen :
  (length ids + length seen ≤ 40)%nat →
  i ∈ mru ids seen ↔ i ∈ ids ∨ i ∈ seen.
Proof.
  intros Hlen. unfold mru. rewrite dict_fromkeys_dedupe, take_ge.
  - by rewrite elem_of_dedupe, elem_of_app.
  - etrans; [apply sublist_length, dedupe_sublist|].
    rewrite length_app. lia.
Qed.

Lemma post_ids_length posts : (length (post_ids posts) ≤ length posts)%nat.
Proof.
  unfold post_ids. induction posts as [|x r IH]; simpl; [done|].
  change (list_omap post string) with (@omap list _ post string).
  destruct (post_id x) as [[|c s]|]; simpl; lia.
Qed.

Lemma elem_of_post_ids i x posts :
  x ∈ posts → post_id x = Some i → truthy (Some i) = true → i ∈ post_ids posts.
Proof.
  intros Hx Hi Ht. unfold post_ids. apply list_elem_of_omap.
  exists x. split; [done|]. by rewrite Hi, Ht.
Qed.

Lemma new_posts_nil posts seen :
  (∀ x, x ∈ posts → is_new seen x = false) → new_posts posts seen = [].
Proof.
  intros H. unfold new_posts. induction posts as [|x r IH]; [done|].
  rewrite filter_cons_False.
  - apply IH. intros y Hy. apply H. by right.
  - rewrite H; [done|]. by left.
Qed.

(** X6. A turn of the sweep that finds no new post changes nothing at
    all; and after a completed turn for a playlist with at most 32
    seen ids, the next turn with the same provider answer finds
    nothing new: it sends nothing and writes nothing. *)
Theorem second_turn_is_silent E p w items :
  provider_response E p = Some items →
  ((∀ x, x ∈ take 8 items → is_new (list_to_set (p_last_seen_ids p)) x = false) →
   check_playlist E p w = (Ok tt, w))
  ∧ (∀ w1,
       db w !! p_id p = Some p →
       (length (p_last_seen_ids p) ≤ 32)%nat →
       check_playlist E p w = (Ok tt, w1) →
       ∃ p1, db w1 !! p_id p = Some p1
             ∧ provider_response E p1 = Some items
             ∧ check_playlist E p1 w1 = (Ok tt, w1)).
Proof.
  intros Hr.
  assert (Hquiet : ∀ q w', provider_response E q = Some items →
            (∀ x, x ∈ take 8 items →
                  is_new (list_to_set (p_last_seen_ids q)) x = false) →
            check_playlist E q w' = (Ok tt, w')).
  { intros q w' Hq Hno. rewrite (check_playlist_found _ _ _ _ Hq). cbv zeta.
    rewrite collect_8, new_posts_nil; done. }
  split; [by apply Hquiet|].
  intros w1 Hobj Hlen Hcp.
  destruct (check_playlist_spec E p w items _ Hr eq_refl)
    as (k & groups & _ & _ & Hok & _). rewrite Hcp in Hok. simpl in Hok.
  destruct (Hok eq_refl) as (_ & _ & Hdb).
  set (new := new_posts (collect_posts 8 [] items)
                (list_to_set (p_last_seen_ids p))) in *.
  destruct (decide (new = [])) as [Hnil|Hnew].
  - exists p.
    assert (w1 = w) as Hw.
    { rewrite (check_playlist_found _ _ _ _ Hr) in Hcp. cbv zeta in Hcp.
      fold new in Hcp. rewrite Hnil in Hcp. congruence. }
    subst w1.
    split; [done|]. split; [done|]. apply Hquiet; [done|].
    intros x Hx. destruct (is_new _ x) eqn:Hn; [|done].
    assert (x ∈ new) as Hin.
    { unfold new, new_posts. rewrite collect_8. by apply list_elem_of_filter. }
    rewrite Hnil in Hin. by apply elem_of_nil in Hin.
  - specialize (Hdb p Hnew Hobj).
    set (p1 := set_last_seen_ids (mru (post_ids new) (p_last_seen_ids p)) p) in *.
    exists p1. split; [by rewrite Hdb, lookup_insert_eq|].
    split; [done|]. apply Hquiet; [done|].
    intros x Hx. unfold is_new. destruct (post_id x) as [i|] eqn:Hi; [|done].
    destruct (truthy (Some i)) eqn:Ht; [|done]. simpl.
    apply bool_decide_eq_false. intros Hnot. apply Hnot.
    rewrite elem_of_list_to_set. simpl. apply elem_of_mru.
    + assert (length new ≤ 8)%nat.
      { unfold new, new_posts. rewrite collect_8.
        etrans; [apply length_filter|]. rewrite length_take. lia. }
      pose proof (post_ids_length new). lia.
    + destruct (decide (i ∈ p_last_seen_ids p)) as [Hs|Hs]; [by right|]. left.
      apply (elem_of_post_ids i x); [|done..].
      unfold new, new_posts. rewrite collect_8. apply list_elem_of_filter.
      split; [|done]. unfold is_new. rewrite Hi, Ht. simpl.
      apply bool_decide_eq_true. by rewrite elem_of_list_to_set.
Qed.

Lemma second_turn_is_silent_witness :
  ∃ p1,
    db (check_playlist (sample_env fresh_items (λ _, true))
          sample_playlist sample_world).2 !! p_id sample_playlist = Some p1
    ∧ provider_response (sample_env fresh_items (λ _, true)) p1 = Some fresh_items
    ∧ check_playlist (sample_env fresh_items (λ _, true)) p1
        (check_playlist (sample_env fresh_items (λ _, true))
           sample_playlist sample_world).2
      = (Ok tt, (check_playlist (sample_env fresh_items (λ _, true))
                   sample_playlist sample_world).2).
Proof.
  refine (proj2 (second_turn_is_silent (sample_env fresh_items (λ _, true))
                   sample_playlist sample_world fresh_items eq_refl) _ _ _ _).
  - reflexivity.
  - simpl. lia.
  - vm_compute. reflexivity.
Defined.

(** ** The initial dispatch *)

Lemma send_and_record_cons E chat x rest sent_ids w :
  send_and_record E chat (x :: rest) sent_ids w =
    match send_post E chat x w with
    | (Ok _, w1) =>
        send_and_record E chat rest
          (match post_id x with
           | Some i => if truthy (Some i) then sent_ids ++ [i] else sent_ids
           | None => sent_ids
           end) w1
    | (Raise e, w1) => (Raise e, w1)
    end.
Proof. done. Qed.

(** The dispatch loop of [send_initial_results]: it changes nothing but
    the outbox, and when it completes its accumulator holds the
    non-empty identifiers of the posts, in order. *)
Lemma send_and_record_spec E chat posts sent_ids w :
  (∃ g, extends w (send_and_record E chat posts sent_ids w).2 g)
  ∧ ∀ ids, (send_and_record E chat posts sent_ids w).1 = Ok ids →
           ids = sent_ids ++ post_ids posts.
Proof.
  revert sent_ids w. induction posts as [|x rest IH]; intros sent_ids w.
  - simpl. split; [exists []; apply extends_refl|].
    intros ids [= <-]. by rewrite app_nil_r.
  - rewrite send_and_record_cons.
    destruct (send_post_spec E chat x w) as (g & Hg & _).
    destruct (send_post E chat x w) as [[[]|e] w1]; simpl in Hg.
    + destruct (IH (match post_id x with
                    | Some i => if truthy (Some i) then sent_ids ++ [i] else sent_ids
                    | None => sent_ids
                    end) w1) as [[g' Hg'] Hids].
      split; [exists (g ++ g'); by eapply extends_trans|].
      intros ids Hok. rewrite (Hids ids Hok). unfold post_ids. simpl.
      destruct (post_id x) as [[|c s]|]; simpl; [done| |done].
      by rewrite <- app_assoc.
    + split; [by exists g|]. by intros ids.
Qed.

Lemma send_initial_results_unfold E user_id playlist_id w :
  send_initial_results E user_id playlist_id w =
    match db w !! playlist_id with
    | None => (Ok tt, w)
    | Some p =>
        match search E (p_city p) (category_token (p_category p)) (p_filters p) 12 w with
        | (Ok [], w1) =>
            tg E (SendMessage user_id (Literal "چیزی پیدا نشد 🤷‍♂️") None None) w1
        | (Ok posts, w1) =>
            match send_and_record E user_id posts [] w1 with
            | (Ok sent_ids, w2) =>
                match db w2 !! playlist_id with
                | Some obj =>
                    (Ok tt, set_db <[playlist_id := set_last_seen_ids
                                       (take 40 (dict_fromkeys sent_ids)) obj]> w2)
                | None => (Ok tt, w2)
                end
            | (Raise e, w2) => (Raise e, w2)
            end
        | (Raise e, w1) => (Raise e, w1)
        end
    end.
Proof.
  unfold send_initial_results, mbind, M_bind, get_world.
  destruct (db w !! playlist_id) as [p|]; [|done].
  destruct (search E _ _ _ _ w) as [[[|x posts]|e] w1]; [done| |done].
  destruct (send_and_record E _ _ _ w1) as [[ids|e] w2]; [|done].
  by destruct (db w2 !! playlist_id).
Qed.

(** X8. The initial dispatch for a playlist: when the playlist is
    gone it does nothing; when the provider fails it raises and changes
    nothing; when the provider returns nothing it only sends the
    "nothing found" message; when it completes on a non-empty result,
    the seen list becomes the distinct non-empty identifiers of the
    first twelve results, in order (at most twelve entries); and when
    a delivery raises, the database is left as it was. *)
Theorem initial_dispatch E user_id playlist_id w :
  (db w !! playlist_id = None →
   send_initial_results E user_id playlist_id w = (Ok tt, w))
  ∧ (∀ p, db w !! playlist_id = Some p → provider_response E p = None →
       send_initial_results E user_id playlist_id w = (Raise ProviderError, w))
  ∧ (∀ p, db w !! playlist_id = Some p → provider_response E p = Some [] →
       send_initial_results E user_id playlist_id w
       = tg E (SendMessage user_id (Literal "چیزی پیدا نشد 🤷‍♂️") None None) w)
  ∧ (∀ p items, db w !! playlist_id = Some p →
       provider_response E p = Some items → items ≠ [] →
       ((send_initial_results E user_id playlist_id w).1 = Ok tt →
        db (send_initial_results E user_id playlist_id w).2
        = <[playlist_id := set_last_seen_ids
              (dedupe (post_ids (take 12 items))) p]> (db w)
        ∧ (length (dedupe (post_ids (take 12 items))) ≤ 12)%nat)
       ∧ ((send_initial_results E user_id playlist_id w).1 ≠ Ok tt →
          db (send_initial_results E user_id playlist_id w).2 = db w)).
Proof.
  rewrite !send_initial_results_unfold.
  split; [by intros ->|]. split; [|split].
  - intros p -> Hr. unfold provider_response in Hr.
    by rewrite search_unfold, Hr.
  - intros p -> Hr. unfold provider_response in Hr.
    by rewrite search_unfold, Hr.
  - intros p items Hp Hr Hne. rewrite Hp. unfold provider_response in Hr.
    rewrite search_unfold, Hr, collect_posts_take. simpl Nat.max. simpl app.
    assert (Hlen : (length (dedupe (post_ids (take 12 items))) ≤ 12)%nat).
    { etrans; [apply sublist_length, dedupe_sublist|].
      etrans; [apply post_ids_length|]. rewrite length_take. lia. }
    destruct (take 12 items) as [|x posts] eqn:Htake; [by destruct items|].
    destruct (send_and_record_spec E user_id (x :: posts) [] w)
      as [[g (_ & Hdb & _)] Hids].
    destruct (send_and_record E user_id (x :: posts) [] w) as [[ids|e] w1];
      simpl in *; [|by split].
    rewrite (Hids ids eq_refl). simpl app. rewrite Hdb, Hp. simpl.
    split; [|intros H; by contradict H]. intros _. split; [|done].
    rewrite Hdb, dict_fromkeys_dedupe, take_ge; [done|]. lia.
Qed.

Lemma initial_dispatch_witness :
  ((send_initial_results (sample_env fresh_items no_media) 7 1 sample_world).1
     = Ok tt →
   db (send_initial_results (sample_env fresh_items no_media) 7 1 sample_world).2
   = <[1 := set_last_seen_ids (dedupe (post_ids (take 12 fresh_items)))
             sample_playlist]> (db sample_world)
   ∧ (length (dedupe (post_ids (take 12 fresh_items))) ≤ 12)%nat)
  ∧ ((send_initial_results (sample_env fresh_items no_media) 7 1 sample_world).1
       ≠ Ok tt →
     db (send_initial_results (sample_env fresh_items no_media) 7 1 sample_world).2
     = db sample_world).
Proof.
  apply (initial_dispatch (sample_env fresh_items no_media) 7 1 sample_world);
    [reflexivity|reflexivity|discriminate].
Defined.

(** ** Reading callback data *)

Lemma startswith_app p rest : startswith p (p +:+ rest) = true.
Proof.
  unfold startswith. induction p as [|c p IH]; simpl.
  - by destruct rest.
  - by destruct (ascii_dec c c).
Qed.

Lemma str_splitn_whole sep n s :
  str_contains sep s = false → str_splitn sep n s = [s].
Proof.
  revert n. induction s as [|c r IH]; intros n; simpl; [done|].
  destruct n as [|n]; [done|].
  destruct (Ascii.eqb c sep); [done|]. intros H. by rewrite IH.
Qed.

Lemma str_splitn_app sep n a b :
  str_contains sep a = false →
  str_splitn sep (S n) (a +:+ String sep b) = a :: str_splitn sep n b.
Proof.
  induction a as [|c r IH]; simpl.
  - intros _. by rewrite Ascii.eqb_refl.
  - destruct (Ascii.eqb c sep); [done|]. intros H. by rewrite IH.
Qed.

(** [("cat:" + slug).split(":")], and likewise for the other
    one-argument callbacks. *)
Lemma str_split_tagged tag arg :
  str_contains ":" tag = false → str_contains ":" arg = false →
  str_split ":" (tag +:+ String ":" arg) = [tag; arg].
Proof.
  intros Ht Ha. unfold str_split.
  destruct (String.length (tag +:+ String ":" arg)) as [|n] eqn:Hlen.
  { by destruct tag. }
  by rewrite str_splitn_app, str_splitn_whole.
Qed.

Lemma str_split_pl_del arg :
  str_contains ":" arg = false →
  str_split ":" ("pl:del:" +:+ arg) = ["pl"; "del"; arg].
Proof.
  intros Ha. unfold str_split.
  change ("pl:del:" +:+ arg) with ("pl" +:+ String ":" ("del" +:+ String ":" arg)).
  destruct (String.length _) as [|[|n]] eqn:Hlen; [done|done|].
  by rewrite !str_splitn_app, str_splitn_whole.
Qed.

(** ** Dispatch on the prefix *)

Lemma on_callback_cat E uid slug w :
  tg_accepts E (AnswerCallback uid) = true →
  on_callback E uid ("cat:" +:+ slug) w
  = on_cat E uid ("cat:" +:+ slug) (push_outbox (AnswerCallback uid) w).
Proof.
  intros Hack. unfold on_callback, mbind at 1, M_bind at 1.
  rewrite tg_unfold, Hack.
  change (startswith "pl:new" ("cat:" +:+ slug)) with false.
  change (startswith "pl:show:" ("cat:" +:+ slug)) with false.
  change (startswith "pl:del:" ("cat:" +:+ slug)) with false.
  by rewrite (startswith_app "cat:" slug).
Qed.

Lemma on_callback_city E uid city w :
  tg_accepts E (AnswerCallback uid) = true →
  on_callback E uid ("city:" +:+ city) w
  = match builder_state w !! uid with
    | Some _ => on_city E uid ("city:" +:+ city) (push_outbox (AnswerCallback uid) w)
    | None => (Ok tt, push_outbox (AnswerCallback uid) w)
    end.
Proof.
  intros Hack. unfold on_callback, mbind at 1, M_bind at 1.
  rewrite tg_unfold, Hack.
  change (startswith "pl:new" ("city:" +:+ city)) with false.
  change (startswith "pl:show:" ("city:" +:+ city)) with false.
  change (startswith "pl:del:" ("city:" +:+ city)) with false.
  change (startswith "cat:" ("city:" +:+ city)) with false.
  rewrite (startswith_app "city:" city).
  unfold mbind, M_bind, get_world.
  change (builder_state (push_outbox (AnswerCallback uid) w))
    with (builder_state w).
  by destruct (builder_state w !! uid).
Qed.

Lemma on_callback_dist E uid dist w :
  tg_accepts E (AnswerCallback uid) = true →
  on_callback E uid ("dist:" +:+ dist) w
  = match builder_state w !! uid with
    | Some st => on_dist E uid ("dist:" +:+ dist) st (push_outbox (AnswerCallback uid) w)
    | None => (Ok tt, push_outbox (AnswerCallback uid) w)
    end.
Proof.
  intros Hack. unfold on_callback, mbind at 1, M_bind at 1.
  rewrite tg_unfold, Hack.
  change (startswith "pl:new" ("dist:" +:+ dist)) with false.
  change (startswith "pl:show:" ("dist:" +:+ dist)) with false.
  change (startswith "pl:del:" ("dist:" +:+ dist)) with false.
  change (startswith "cat:" ("dist:" +:+ dist)) with false.
  change (startswith "city:" ("dist:" +:+ dist)) with false.
  rewrite (startswith_app "dist:" dist).
  unfold mbind, M_bind, get_world.
  change (builder_state (push_outbox (AnswerCallback uid) w))
    with (builder_state w).
  by destruct (builder_state w !! uid).
Qed.

Lemma on_callback_pl_del E uid arg w :
  tg_accepts E (AnswerCallback uid) = true →
  on_callback E uid ("pl:del:" +:+ arg) w
  = on_pl_del E uid ("pl:del:" +:+ arg) (push_outbox (AnswerCallback uid) w).
Proof.
  intros Hack. unfold on_callback, mbind at 1, M_bind at 1.
  rewrite tg_unfold, Hack.
  change (startswith "pl:new" ("pl:del:" +:+ arg)) with false.
  change (startswith "pl:show:" ("pl:del:" +:+ arg)) with false.
  by rewrite (startswith_app "pl:del:" arg).
Qed.

Lemma on_callback_flt_raw E uid rest w :
  tg_accepts E (AnswerCallback uid) = true →
  on_callback E uid ("flt:" +:+ rest) w
  = match builder_state w !! uid with
    | Some st => on_flt E uid ("flt:" +:+ rest) st (push_outbox (AnswerCallback uid) w)
    | None => (Ok tt, push_outbox (AnswerCallback uid) w)
    end.
Proof.
  intros Hack. unfold on_callback, mbind at 1, M_bind at 1.
  rewrite tg_unfold, Hack.
  change (startswith "pl:new" ("flt:" +:+ rest)) with false.
  change (startswith "pl:show:" ("flt:" +:+ rest)) with false.
  change (startswith "pl:del:" ("flt:" +:+ rest)) with false.
  change (startswith "cat:" ("flt:" +:+ rest)) with false.
  change (startswith "city:" ("flt:" +:+ rest)) with false.
  change (startswith "dist:" ("flt:" +:+ rest)) with false.
  rewrite (startswith_app "flt:" rest).
  unfold mbind, M_bind, get_world.
  change (builder_state (push_outbox (AnswerCallback uid) w))
    with (builder_state w).
  by destruct (builder_state w !! uid).
Qed.

(** ** The branches of the builder dialogue *)

Lemma same_categories slug :
  CATEGORY_TOKENS !! slug = None ↔ CATEGORY_FLOWS !! slug = None.
Proof.
  rewrite <- !not_elem_of_dom.
  assert (dom CATEGORY_TOKENS = dom CATEGORY_FLOWS) as ->; [|done].
  apply set_eq. intros x. rewrite !elem_of_dom.
  unfold CATEGORY_TOKENS, CATEGORY_FLOWS, CATEGORY_FLOWS_items.
  rewrite <- !elem_of_dom, !dom_list_to_map_L. simpl. done.
Qed.

(** Case analysis on every Telegram call that is left in the goal. *)
Ltac tg_cases E :=
  repeat first
    [ rewrite tg_unfold
    | match goal with
      | |- context [if tg_accepts E ?c then _ else _] =>
          destruct (tg_accepts E c) eqn:?; simpl
      end ].

Lemma bind_index_some {A B} (l : list A) i a (f : A → M B) w :
  l !! i = Some a → (index l i ≫= f) w = f a w.
Proof. intros H. unfold index, mbind, M_bind. by rewrite H. Qed.

(** X9. Choosing a category: for a slug of the catalogue the user's
    session is replaced, whatever it was, by a fresh one at step
    [city] with empty filters and the steps of the category; for any
    other slug the sessions stay as they are.  No playlist is touched,
    and the branch raises nothing but a refused Telegram call (the two
    tables have the same keys, so no [KeyError]). *)
Theorem category_choice E uid slug w :
  tg_accepts E (AnswerCallback uid) = true →
  str_contains ":" slug = false →
  db (on_callback E uid ("cat:" +:+ slug) w).2 = db w
  ∧ next_id (on_callback E uid ("cat:" +:+ slug) w).2 = next_id w
  ∧ builder_state (on_callback E uid ("cat:" +:+ slug) w).2
    = match CATEGORY_FLOWS !! slug with
      | Some cfg => <[uid := started slug cfg]> (builder_state w)
      | None => builder_state w
      end
  ∧ ((on_callback E uid ("cat:" +:+ slug) w).1 = Ok tt
     ∨ (on_callback E uid ("cat:" +:+ slug) w).1 = Raise TransportError).
Proof.
  intros Hack Hslug. rewrite on_callback_cat by done. unfold on_cat.
  change ("cat:" +:+ slug) with ("cat" +:+ String ":" slug).
  rewrite str_split_tagged by done.
  rewrite !(bind_index_some _ 1%nat slug) by done.
  destruct (CATEGORY_FLOWS !! slug) as [cfg|] eqn:Hf.
  - destruct (CATEGORY_TOKENS !! slug) as [tok|] eqn:Ht.
    2: { apply same_categories in Ht. congruence. }
    unfold lookup_key. rewrite Hf. unfold mbind, M_bind, lift, modify.
    simpl. tg_cases E; auto.
  - apply same_categories in Hf. rewrite Hf. tg_cases E; auto.
Qed.

Lemma category_choice_witness :
  db (on_callback (sample_env [] (λ _, true)) 7 ("cat:" +:+ "jobs") sample_builder).2
    = db sample_builder
  ∧ next_id (on_callback (sample_env [] (λ _, true)) 7 ("cat:" +:+ "jobs")
               sample_builder).2 = next_id sample_builder
  ∧ builder_state (on_callback (sample_env [] (λ _, true)) 7 ("cat:" +:+ "jobs")
                     sample_builder).2
    = match CATEGORY_FLOWS !! "jobs" with
      | Some cfg => <[7 := started "jobs" cfg]> (builder_state sample_builder)
      | None => builder_state sample_builder
      end
  ∧ ((on_callback (sample_env [] (λ _, true)) 7 ("cat:" +:+ "jobs")
        sample_builder).1 = Ok tt
     ∨ (on_callback (sample_env [] (λ _, true)) 7 ("cat:" +:+ "jobs")
          sample_builder).1 = Raise TransportError).
Proof.
  apply (category_choice (sample_env [] (λ _, true)) 7 "jobs" sample_builder);
    reflexivity.
Defined.

(** X10. Deleting a playlist: the row is removed only when it exists
    and belongs to the user who pressed the button; for a missing row,
    a row of somebody else or an argument that [int] does not read as
    an integer the database stays as it is (the last case raises
    [ValueError]).  The sessions are never touched.  The argument is
    taken to be at most 4300 characters long, under the length at
    which the interpreter begins to refuse literals. *)
Theorem delete_needs_owner E uid arg w :
  tg_accepts E (AnswerCallback uid) = true →
  str_contains ":" arg = false →
  (String.length arg ≤ 4300)%nat →
  builder_state (on_callback E uid ("pl:del:" +:+ arg) w).2 = builder_state w
  ∧ match py_int arg with
    | None =>
        (on_callback E uid ("pl:del:" +:+ arg) w).1 = Raise ValueError
        ∧ db (on_callback E uid ("pl:del:" +:+ arg) w).2 = db w
    | Some pid =>
        db (on_callback E uid ("pl:del:" +:+ arg) w).2
        = match db w !! pid with
          | Some p => if bool_decide (p_user_id p = uid)
                      then delete pid (db w) else db w
          | None => db w
          end
    end.
Proof.
  intros Hack Harg _. rewrite on_callback_pl_del by done. unfold on_pl_del.
  rewrite str_split_pl_del by done. simpl last. simpl default.
  unfold int_of. destruct (py_int arg) as [pid|]; [|done].
  unfold mbind, M_bind, get_world, modify. simpl.
  destruct (db w !! pid) as [p|].
  - case_bool_decide; simpl; tg_cases E; done.
  - tg_cases E; done.
Qed.

Lemma delete_needs_owner_witness :
  builder_state (on_callback (sample_env [] (λ _, true)) 7 ("pl:del:" +:+ "١")
                   two_users).2 = builder_state two_users
  ∧ match py_int "١" with
    | None =>
        (on_callback (sample_env [] (λ _, true)) 7 ("pl:del:" +:+ "١")
           two_users).1 = Raise ValueError
        ∧ db (on_callback (sample_env [] (λ _, true)) 7 ("pl:del:" +:+ "١")
                two_users).2 = db two_users
    | Some pid =>
        db (on_callback (sample_env [] (λ _, true)) 7 ("pl:del:" +:+ "١")
              two_users).2
        = match db two_users !! pid with
          | Some p => if bool_decide (p_user_id p = 7)
                      then delete pid (db two_users) else db two_users
          | None => db two_users
          end
    end.
Proof.
  apply (delete_needs_owner (sample_env [] (λ _, true)) 7 "١" two_users);
    [reflexivity|reflexivity|].
  simpl. lia.
Defined.

(** X11. What the [flt:] branch refuses.  Callback data with fewer
    than two colons after the tag raises [ValueError]; an answer for a
    session that has no category yet raises [KeyError]; either way
    nothing is stored.  Without a session the callback is ignored, and
    when the acknowledgement is refused nothing happens at all. *)
Theorem flt_refusals E uid w :
  (∀ rest st,
     tg_accepts E (AnswerCallback uid) = true →
     builder_state w !! uid = Some st →
     str_contains ":" rest = false →
     on_callback E uid ("flt:" +:+ rest) w
     = (Raise ValueError, push_outbox (AnswerCallback uid) w))
  ∧ (∀ step value st,
       tg_accepts E (AnswerCallback uid) = true →
       builder_state w !! uid = Some st →
       st_category st = None →
       str_contains ":" step = false →
       on_callback E uid (flt_data step value) w
       = (Raise (KeyError "category"), push_outbox (AnswerCallback uid) w))
  ∧ (∀ rest,
       tg_accepts E (AnswerCallback uid) = true →
       builder_state w !! uid = None →
       on_callback E uid ("flt:" +:+ rest) w
       = (Ok tt, push_outbox (AnswerCallback uid) w))
  ∧ (∀ data,
       tg_accepts E (AnswerCallback uid) = false →
       on_callback E uid data w = (Raise TransportError, w)).
Proof.
  split; [|split; [|split]].
  - intros rest st Hack Hst Hrest.
    rewrite on_callback_flt_raw, Hst by done. unfold on_flt.
    change ("flt:" +:+ rest) with ("flt" +:+ String ":" rest).
    by rewrite str_splitn_app, str_splitn_whole.
  - intros step value st Hack Hst Hcat Hstep.
    rewrite on_callback_flt, Hst by done. unfold on_flt.
    rewrite flt_data_split by done. cbv iota beta. by rewrite Hcat.
  - intros rest Hack Hst. by rewrite on_callback_flt_raw, Hst.
  - intros data Hack. unfold on_callback, mbind, M_bind.
    by rewrite tg_unfold, Hack.
Qed.

Lemma flt_refusals_witness :
  on_callback (sample_env [] (λ _, true)) 7 ("flt:" +:+ "mileage") sample_builder
  = (Raise ValueError, push_outbox (AnswerCallback 7) sample_builder).
Proof.
  apply (flt_refusals (sample_env [] (λ _, true)) 7 sample_builder) with
    (st := sample_session); reflexivity.
Defined.

(** X12. A playlist is never stored without a city.  When the last
    step is answered in a session that has no city (the category was
    chosen and the steps answered by hand-made callbacks), the branch
    raises [KeyError]: the database and the id counter are untouched,
    but the answer it had already stored stays in the session. *)
Theorem last_step_without_city E uid st w cat cfg f flow idx step value :
  tg_accepts E (AnswerCallback uid) = true →
  builder_state w !! uid = Some st →
  st_category st = Some cat →
  CATEGORY_FLOWS !! cat = Some cfg →
  st_filters st = Some f →
  st_flow st = Some flow →
  st_flow_idx st = Some idx →
  st_city st = None →
  (length flow ≤ S idx)%nat →
  str_contains ":" step = false →
  ∃ f', store_filter_value cat f step value = Ok f'
    ∧ on_callback E uid (flt_data step value) w
      = (Raise (KeyError "city"),
         set_builder_state <[uid := answered f' idx st]>
           (push_outbox (AnswerCallback uid) w)).
Proof.
  intros Hack Hst Hcat Hcfg Hf Hflow Hidx Hcity Hlast Hstep.
  destruct (store_filter_value_dom cat cfg f step value Hcfg) as (f' & Hstore & _).
  exists f'. split; [done|].
  rewrite on_callback_flt, Hst by done. unfold on_flt.
  rewrite flt_data_split by done. cbv iota beta.
  rewrite Hcat, bind_key_some. cbv beta.
  rewrite Hf, bind_key_some. cbv beta.
  rewrite Hstore, bind_lift_ok, bind_mutate. cbv beta.
  rewrite Hidx, bind_key_some, bind_mutate. cbv beta.
  rewrite Hflow, bind_key_some. cbv beta.
  apply Nat.ltb_ge in Hlast. rewrite Hlast.
  unfold lookup_key. rewrite Hcfg, bind_lift_ok. cbv beta.
  rewrite Hcity. unfold key, mbind, M_bind, raise. f_equal.
  unfold set_builder_state. simpl. f_equal.
  rewrite (alter_known _ _ _ _ Hst).
  rewrite (alter_known _ _ _ (set_filters f' st)) by apply lookup_insert_eq.
  by rewrite insert_insert_eq.
Qed.

Lemma last_step_without_city_witness :
  ∃ f', store_filter_value "entertainment" ∅ "price" "0-2000000" = Ok f'
    ∧ on_callback (sample_env [] (λ _, true)) 7 (flt_data "price" "0-2000000")
        (set_builder_state
           <[7 := set_flow_idx 1 (started "entertainment" flow_entertainment)]>
           sample_builder)
      = (Raise (KeyError "city"),
         set_builder_state
           <[7 := answered f' 1
                    (set_flow_idx 1 (started "entertainment" flow_entertainment))]>
           (push_outbox (AnswerCallback 7)
              (set_builder_state
                 <[7 := set_flow_idx 1 (started "entertainment" flow_entertainment)]>
                 sample_builder))).
Proof.
  apply (last_step_without_city (sample_env [] (λ _, true)) 7
           (set_flow_idx 1 (started "entertainment" flow_entertainment))
           (set_builder_state
              <[7 := set_flow_idx 1 (started "entertainment" flow_entertainment)]>
              sample_builder)
           "entertainment" flow_entertainment ∅ ["sub"; "price"] 1 "price"
           "0-2000000"); reflexivity.
Defined.

(** ** The dialogue from the first button to the stored playlist *)

Lemma city_effect E uid st w city :
  tg_accepts E (AnswerCallback uid) = true →
  builder_state w !! uid = Some st →
  str_contains ":" city = false →
  seen_only (set_builder_state <[uid := set_city city st]> w)
    (on_callback E uid ("city:" +:+ city) w).2.
Proof.
  intros Hack Hst Hcity. rewrite on_callback_city, Hst by done. unfold on_city.
  change ("city:" +:+ city) with ("city" +:+ String ":" city).
  rewrite str_split_tagged by done.
  rewrite (bind_index_some _ 1%nat city) by done.
  rewrite bind_mutate.
  match goal with
  | |- seen_only ?a (?m ?b).2 =>
      apply (seen_only_trans a b); [|apply (calm_bind _ _ (calm_tg _ _))]
  end.
  - split; [|by split]. simpl. by rewrite (alter_known _ _ _ _ Hst).
  - intros _. apply calm_tg.
Qed.

Lemma dist_effect E uid st w dist :
  tg_accepts E (AnswerCallback uid) = true →
  builder_state w !! uid = Some st →
  str_contains ":" dist = false →
  seen_only
    (set_builder_state
       <[uid := set_step "filters"
                  (set_district (if String.eqb dist "__ALL__" then None
                                 else Some dist) st)]> w)
    (on_callback E uid ("dist:" +:+ dist) w).2.
Proof.
  intros Hack Hst Hdist. rewrite on_callback_dist, Hst by done. unfold on_dist.
  change ("dist:" +:+ dist) with ("dist" +:+ String ":" dist).
  rewrite str_split_tagged by done.
  rewrite (bind_index_some _ 1%nat dist) by done.
  rewrite !bind_mutate.
  match goal with
  | |- seen_only ?a (?m ?b).2 => apply (seen_only_trans a b)
  end.
  - split; [|by split]. simpl. rewrite (alter_known _ _ _ _ Hst).
    rewrite (alter_known _ _ _ (set_district _ st)) by apply lookup_insert_eq.
    by rewrite insert_insert_eq.
  - apply calm_bind; [apply calm_key|]. intros cat.
    apply calm_bind; [apply calm_key|]. intros flow.
    apply calm_bind; [apply calm_key|]. intros idx.
    apply calm_prompt.
Qed.

Lemma cat_effect E uid slug cfg w :
  tg_accepts E (AnswerCallback uid) = true →
  CATEGORY_FLOWS !! slug = Some cfg →
  str_contains ":" slug = false →
  seen_only (set_builder_state <[uid := started slug cfg]> w)
    (on_callback E uid ("cat:" +:+ slug) w).2.
Proof.
  intros Hack Hcfg Hslug. rewrite on_callback_cat by done. unfold on_cat.
  change ("cat:" +:+ slug) with ("cat" +:+ String ":" slug).
  rewrite str_split_tagged by done.
  rewrite (bind_index_some _ 1%nat slug) by done.
  destruct (CATEGORY_TOKENS !! slug) as [tok|] eqn:Ht.
  2: { apply same_categories in Ht. congruence. }
  unfold lookup_key. rewrite Hcfg, bind_lift_ok, bind_modify.
  match goal with
  | |- seen_only ?a (?m ?b).2 =>
      apply (seen_only_trans a b); [|apply (calm_bind _ _ (calm_tg _ _))]
  end.
  - by repeat split.
  - intros _. apply calm_tg.
Qed.

(** The run of the remaining answers, with the whole row. *)
Lemma flow_run_row E uid cat cfg city :
  CATEGORY_FLOWS !! cat = Some cfg →
  tg_accepts E (AnswerCallback uid) = true →
  ∀ rest answers before f w st,
    steps cfg = before ++ rest → rest ≠ [] → length answers = length rest →
    builder_state w !! uid = Some st →
    st_category st = Some cat → st_filters st = Some f →
    st_flow st = Some (steps cfg) → st_flow_idx st = Some (length before) →
    st_city st = Some city →
    builder_state (run_callbacks E uid (zip_with flt_data rest answers) w) !! uid
      = None
    ∧ ∃ f',
        criteria_of <$>
          db (run_callbacks E uid (zip_with flt_data rest answers) w) !! next_id w
        = Some (created uid cfg cat city st f' (next_id w))
        ∧ dom f' = dom f ∪ ⋃ (written_fields cfg <$> rest)
        ∧ ∀ i, i ≠ next_id w →
            criteria_of <$>
              db (run_callbacks E uid (zip_with flt_data rest answers) w) !! i
            = criteria_of <$> db w !! i.
Proof.
  intros Hcfg Hack rest.
  induction rest as [|step rest IH]; intros answers before f w st
    Hsteps Hne Hlen Hst Hcat Hf Hflow Hidx Hcity; [done|].
  destruct answers as [|value answers]; [done|]. simpl in Hlen.
  assert (Hstep : str_contains ":" step = false).
  { eapply step_no_colon; [done|]. rewrite Hsteps, elem_of_app. right. by left. }
  simpl zip_with. rewrite run_callbacks_cons.
  destruct (answer_effect E uid st w cat cfg f (steps cfg) (length before) step value)
    as (f' & Hs & Hd & Hnext & Hlast); try done.
  assert (Hflen : length (steps cfg) = (length before + S (length rest))%nat).
  { by rewrite Hsteps, length_app. }
  destruct rest as [|step' rest'].
  - destruct answers; [|done]. simpl zip_with.
    unfold run_callbacks at 1 2 3. simpl foldl.
    destruct (Hlast ltac:(simpl in Hflen; lia) city Hcity) as (Hb & Hn & Hdb).
    simpl in Hb, Hn, Hdb. rewrite Hb, lookup_delete_eq.
    split; [done|]. exists f'. split; [|split].
    + by rewrite Hdb, lookup_insert_eq.
    + rewrite Hd. simpl. by rewrite (right_id_L ∅ (∪)).
    + intros i Hi. by rewrite Hdb, lookup_insert_ne.
  - destruct (Hnext ltac:(simpl in Hflen; lia)) as (Hb & Hn & Hdb).
    simpl in Hb, Hn, Hdb.
    destruct (IH answers (before ++ [step]) f'
                (on_callback E uid (flt_data step value) w).2
                (answered f' (length before) st)) as (Hb' & f'' & Hrow & Hdom & Hoth).
    + by rewrite <- app_assoc.
    + done.
    + by injection Hlen.
    + by rewrite Hb, lookup_insert_eq.
    + done.
    + done.
    + done.
    + simpl. rewrite length_app. simpl. f_equal. f_equal. lia.
    + done.
    + rewrite Hn in Hrow, Hoth. split; [done|]. exists f''. split; [done|].
      split.
      * rewrite Hdom, Hd. simpl. apply set_eq. intros x.
        rewrite !elem_of_union. tauto.
      * intros i Hi. by rewrite Hoth, Hdb.
Qed.

(** X13. The whole dialogue.  For a category of the catalogue, the
    callbacks [cat:], [city:], [dist:] and then one answer per step
    store exactly one new playlist, under the next free id: it belongs
    to the user, is titled "<category title> | <city>", has the chosen
    category and city, no district when "skip" ([__ALL__]) was pressed
    and the chosen district otherwise, and criteria with exactly the
    declared fields; the session is gone, and no other playlist changed
    but for its seen list. *)
Theorem dialogue_creates_playlist E uid slug cfg city dist answers w :
  tg_accepts E (AnswerCallback uid) = true →
  CATEGORY_FLOWS !! slug = Some cfg →
  str_contains ":" slug = false →
  str_contains ":" city = false →
  str_contains ":" dist = false →
  length answers = length (steps cfg) →
  builder_state
    (run_callbacks E uid
       (["cat:" +:+ slug; "city:" +:+ city; "dist:" +:+ dist]
        ++ zip_with flt_data (steps cfg) answers) w) !! uid = None
  ∧ ∃ row,
      db (run_callbacks E uid
            (["cat:" +:+ slug; "city:" +:+ city; "dist:" +:+ dist]
             ++ zip_with flt_data (steps cfg) answers) w) !! next_id w = Some row
      ∧ p_id row = next_id w
      ∧ p_user_id row = uid
      ∧ p_title row = title cfg +:+ " | " +:+ city
      ∧ p_category row = slug
      ∧ p_city row = city
      ∧ p_district row = (if String.eqb dist "__ALL__" then None else Some dist)
      ∧ dom (p_filters row) = expected_fields cfg
      ∧ ∀ i, i ≠ next_id w →
          criteria_of <$>
            db (run_callbacks E uid
                  (["cat:" +:+ slug; "city:" +:+ city; "dist:" +:+ dist]
                   ++ zip_with flt_data (steps cfg) answers) w) !! i
          = criteria_of <$> db w !! i.
Proof.
  intros Hack Hcfg Hslug Hcity Hdist Hlen.
  simpl app. rewrite !run_callbacks_cons.
  set (w1 := (on_callback E uid ("cat:" +:+ slug) w).2).
  destruct (cat_effect E uid slug cfg w Hack Hcfg Hslug) as (Hb1 & Hn1 & Hd1).
  fold w1 in Hb1, Hn1, Hd1. simpl in Hb1, Hn1, Hd1.
  set (w2 := (on_callback E uid ("city:" +:+ city) w1).2).
  destruct (city_effect E uid (started slug cfg) w1 city Hack) as (Hb2 & Hn2 & Hd2);
    [by rewrite Hb1, lookup_insert_eq|done|].
  fold w2 in Hb2, Hn2, Hd2. simpl in Hb2, Hn2, Hd2.
  set (w3 := (on_callback E uid ("dist:" +:+ dist) w2).2).
  destruct (dist_effect E uid (set_city city (started slug cfg)) w2 dist Hack)
    as (Hb3 & Hn3 & Hd3); [by rewrite Hb2, lookup_insert_eq|done|].
  fold w3 in Hb3, Hn3, Hd3. simpl in Hb3, Hn3, Hd3.
  set (st := set_step "filters"
               (set_district (if String.eqb dist "__ALL__" then None else Some dist)
                  (set_city city (started slug cfg)))) in *.
  destruct (flow_run_row E uid slug cfg city Hcfg Hack (steps cfg) answers [] ∅ w3 st)
    as (Hb & f' & Hrow & Hdom & Hoth); try done.
  { by eapply steps_nonempty. }
  { by rewrite Hb3, lookup_insert_eq. }
  assert (Hn : next_id w3 = next_id w) by congruence.
  rewrite Hn in Hrow, Hoth.
  split; [done|].
  destruct (db _ !! next_id w) as [row|] eqn:Hr; [|done].
  apply (inj Some) in Hrow. exists row. split; [done|].
  pose proof (f_equal p_id Hrow) as H1.
  pose proof (f_equal p_user_id Hrow) as H2.
  pose proof (f_equal p_title Hrow) as H3.
  pose proof (f_equal p_category Hrow) as H4.
  pose proof (f_equal p_city Hrow) as H5.
  pose proof (f_equal p_district Hrow) as H6.
  pose proof (f_equal p_filters Hrow) as H7.
  simpl in H1, H2, H3, H4, H5, H6, H7.
  split; [done|]. split; [done|]. split; [done|]. split; [done|].
  split; [done|]. split; [done|]. split.
  - rewrite H7, Hdom, dom_empty_L, (left_id_L ∅ (∪)). unfold expected_fields.
    f_equal. apply list_fmap_ext. intros i step Hi.
    eapply written_declared; [done|]. by eapply list_elem_of_lookup_2.
  - intros i Hi. by rewrite Hoth, Hd3, Hd2, Hd1.
Qed.

Lemma dialogue_creates_playlist_witness :
  builder_state
    (run_callbacks (sample_env [] (λ _, true)) 7
       (["cat:" +:+ "animals"; "city:" +:+ "shiraz"; "dist:" +:+ "__ALL__"]
        ++ zip_with flt_data (steps flow_animals) ["cat"; "3-12"; "bogus"])
       sample_world) !! 7 = None
  ∧ ∃ row,
      db (run_callbacks (sample_env [] (λ _, true)) 7
            (["cat:" +:+ "animals"; "city:" +:+ "shiraz"; "dist:" +:+ "__ALL__"]
             ++ zip_with flt_data (steps flow_animals) ["cat"; "3-12"; "bogus"])
            sample_world) !! next_id sample_world = Some row
      ∧ p_id row = next_id sample_world
      ∧ p_user_id row = 7
      ∧ p_title row = title flow_animals +:+ " | " +:+ "shiraz"
      ∧ p_category row = "animals"
      ∧ p_city row = "shiraz"
      ∧ p_district row = (if String.eqb "__ALL__" "__ALL__" then None
                          else Some "__ALL__")
      ∧ dom (p_filters row) = expected_fields flow_animals
      ∧ ∀ i, i ≠ next_id sample_world →
          criteria_of <$>
            db (run_callbacks (sample_env [] (λ _, true)) 7
                  (["cat:" +:+ "animals"; "city:" +:+ "shiraz";
                    "dist:" +:+ "__ALL__"]
                   ++ zip_with flt_data (steps flow_animals)
                        ["cat"; "3-12"; "bogus"])
                  sample_world) !! i
          = criteria_of <$> db sample_world !! i.
Proof.
  apply (dialogue_creates_playlist (sample_env [] (λ _, true)) 7 "animals"
           flow_animals "shiraz" "__ALL__" ["cat"; "3-12"; "bogus"] sample_world);
    reflexivity.
Defined.

(** ** A user's callbacks leave the other users alone *)

Lemma apart_same uid O own w w' :
  builder_state w' = builder_state w → db w' = db w → next_id w' = next_id w →
  apart uid O own w → apart uid O own w'.
Proof.
  intros Hb Hd Hn (Ho & Hi & Hown). unfold apart, others, ids_below_counter.
  rewrite Hb, Hd, Hn. by repeat split.
Qed.

Lemma apart_write uid O own w pid obj row :
  db w !! pid = Some obj → p_user_id obj = uid → p_user_id row = uid →
  apart uid O own w → apart uid O own (set_db <[pid := row]> w).
Proof.
  intros Hobj Hu Hrow (Ho & Hi & Hown). split; [|split].
  - rewrite <- Ho. unfold others. simpl. f_equal.
    apply map_filter_insert_not'; simpl.
    + intros H. by apply H.
    + intros y Hy H. apply H. congruence.
  - intros i. simpl. destruct (decide (pid = i)) as [<-|Hne].
    + intros _. apply Hi. by rewrite Hobj.
    + rewrite lookup_insert_ne by done. apply Hi.
  - intros pid' p Hp. simpl. destruct (decide (pid = pid')) as [<-|Hne].
    + rewrite lookup_insert_eq. by intros [= <-].
    + rewrite lookup_insert_ne by done. by apply Hown.
Qed.

Lemma apart_delete uid O own w pid p :
  db w !! pid = Some p → p_user_id p = uid →
  apart uid O own w → apart uid O own (set_db (delete pid) w).
Proof.
  intros Hp Hu (Ho & Hi & Hown). split; [|split].
  - rewrite <- Ho. unfold others. simpl. f_equal.
    apply map_filter_delete_not. simpl. intros y Hy H. apply H. congruence.
  - intros i. simpl. destruct (decide (pid = i)) as [<-|Hne].
    + rewrite lookup_delete_eq. by intros [? ?].
    + rewrite lookup_delete_ne by done. apply Hi.
  - intros pid' p' Hp'. simpl. destruct (decide (pid = pid')) as [<-|Hne].
    + by rewrite lookup_delete_eq.
    + rewrite lookup_delete_ne by done. by apply Hown.
Qed.

Lemma apart_add uid O w mk :
  p_user_id (mk (next_id w)) = uid →
  apart uid O None w → apart uid O (Some (next_id w)) (db_add mk w).2.
Proof.
  intros Hmk (Ho & Hi & _).
  assert (Hfree : db w !! next_id w = None).
  { destruct (db w !! next_id w) eqn:Hl; [|done].
    assert (next_id w < next_id w) by (apply Hi; by rewrite Hl). lia. }
  split; [|split].
  - rewrite <- Ho. unfold others. simpl. f_equal.
    apply map_filter_insert_not'; simpl.
    + intros H. by apply H.
    + intros y Hy. congruence.
  - intros i. simpl. destruct (decide (next_id w = i)) as [<-|Hne].
    + intros _. lia.
    + rewrite lookup_insert_ne by done. intros H. apply Hi in H. lia.
  - intros pid p [= <-]. simpl. rewrite lookup_insert_eq. by intros [= <-].
Qed.

Lemma apart_weaken uid O own w : apart uid O own w → apart uid O None w.
Proof. intros (Ho & Hi & _). by repeat split. Qed.

Section Keeps.
Context (E : env) (uid : Z) (own : option Z).

Lemma keeps_ret {A} (a : A) : keeps uid own (mret a).
Proof. by intros w O. Qed.

Lemma keeps_raise {A} e : keeps uid own (@raise A e).
Proof. by intros w O. Qed.

Lemma keeps_lift {A} (r : res A) : keeps uid own (lift r).
Proof. by intros w O. Qed.

Lemma keeps_key {A} k (o : option A) : keeps uid own (key k o).
Proof. destruct o; [apply keeps_ret|apply keeps_raise]. Qed.

Lemma keeps_index {A} (l : list A) i : keeps uid own (index l i).
Proof. unfold index. destruct (l !! i); [apply keeps_ret|apply keeps_raise]. Qed.

Lemma keeps_int_of s : keeps uid own (int_of s).
Proof. unfold int_of. destruct (py_int s); [apply keeps_ret|apply keeps_raise]. Qed.

Lemma keeps_tg c : keeps uid own (tg E c).
Proof.
  intros w O H. rewrite tg_unfold. destruct (tg_accepts E c); [|done].
  by apply (apart_same uid O own w).
Qed.

Lemma keeps_at_bind {A B} (m : M A) (f : A → M B) w :
  keeps_at uid own m w → (∀ a, keeps uid own (f a)) →
  keeps_at uid own (m ≫= f) w.
Proof.
  intros Hm Hf O H. unfold mbind, M_bind.
  specialize (Hm O H). destruct (m w) as [[a|e] w1]; simpl in *; [|done].
  by apply Hf.
Qed.

Lemma keeps_bind {A B} (m : M A) (f : A → M B) :
  keeps uid own m → (∀ a, keeps uid own (f a)) → keeps uid own (m ≫= f).
Proof. intros Hm Hf w. by apply keeps_at_bind. Qed.

Lemma keeps_all {A} (m : M A) w : keeps uid own m → keeps_at uid own m w.
Proof. intros H. apply H. Qed.

Lemma keeps_get_world {B} (f : world → M B) :
  (∀ w, keeps_at uid own (f w) w) → keeps uid own (get_world ≫= f).
Proof. intros Hf w O H. by apply (Hf w). Qed.

Lemma keeps_builder f :
  (∀ m, delete uid (f m) = delete uid m) →
  keeps uid own (modify (set_builder_state f)).
Proof.
  intros Hf w O (Ho & Hi & Hown). split; [|by split].
  rewrite <- Ho. unfold others. simpl. by rewrite Hf.
Qed.

Lemma keeps_mutate f : keeps uid own (mutate uid f).
Proof. apply keeps_builder. intros m. apply delete_alter_eq. Qed.

Lemma keeps_search city token filters limit :
  keeps uid own (search E city token filters limit).
Proof.
  intros w O H. rewrite search_unfold. by destruct (provider_items E _ _).
Qed.

Lemma keeps_send_post chat x : keeps uid own (send_post E chat x).
Proof.
  intros w O H.
  destruct (send_post_spec E chat x w) as (g & (Hb & Hdb & Hn & _) & _).
  by apply (apart_same uid O own w).
Qed.

Lemma keeps_send_and_record chat posts sent_ids :
  keeps uid own (send_and_record E chat posts sent_ids).
Proof.
  revert sent_ids. induction posts as [|x r IH]; intros sent_ids; simpl.
  - apply keeps_ret.
  - apply keeps_bind; [apply keeps_send_post|]. intros _. apply IH.
Qed.

End Keeps.

(** The first dispatch writes the seen list of the playlist just
    created, which is the user's own. *)
Lemma keeps_send_initial_results E uid user_id pid :
  keeps uid (Some pid) (send_initial_results E user_id pid).
Proof.
  apply keeps_get_world. intros w.
  destruct (db w !! pid) as [p|]; [|apply keeps_ret].
  apply keeps_at_bind; [apply keeps_search|]. intros [|x posts]; [apply keeps_tg|].
  apply keeps_bind; [apply keeps_send_and_record|]. intros sent_ids.
  apply keeps_get_world. intros w'.
  destruct (db w' !! pid) as [obj|] eqn:Hobj; [|apply keeps_ret].
  intros O H. simpl.
  assert (Hu : p_user_id obj = uid) by (by apply (proj2 (proj2 H) pid)).
  by apply (apart_write uid O (Some pid) w' pid obj).
Qed.

Lemma keeps_finish {A} uid mk (rest : Z → M A) :
  (∀ pid, p_user_id (mk pid) = uid) →
  (∀ pid, keeps uid (Some pid) (rest pid)) →
  keeps uid None (db_add mk ≫= rest).
Proof.
  intros Hmk Hrest w O H. rewrite bind_db_add.
  eapply apart_weaken, Hrest. apply (apart_add uid O w mk); [apply Hmk|done].
Qed.

Ltac keeps_steps :=
  repeat match goal with
    | |- keeps _ _ (tg _ _) => apply keeps_tg
    | |- keeps _ _ (mret _) => apply keeps_ret
    | |- keeps _ _ (raise _) => apply keeps_raise
    | |- keeps _ _ (lift _) => apply keeps_lift
    | |- keeps _ _ (key _ _) => apply keeps_key
    | |- keeps _ _ (index _ _) => apply keeps_index
    | |- keeps _ _ (int_of _) => apply keeps_int_of
    | |- keeps _ _ (mutate _ _) => apply keeps_mutate
    | |- keeps _ _ (modify (set_builder_state <[_ := _]>)) =>
        apply keeps_builder; intros ?; apply delete_insert_eq
    | |- keeps _ _ (modify (set_builder_state (delete _))) =>
        apply keeps_builder; intros ?; apply delete_delete_eq
    | |- keeps _ _ (send_initial_results _ _ _) =>
        apply keeps_send_initial_results
    | |- keeps _ _ (db_add _ ≫= _) => apply keeps_finish; [done|intros ?]
    | |- keeps _ _ (_ ≫= _) => apply keeps_bind; [|intros ?]
    end.

Lemma keeps_on_flt E uid data st : keeps uid None (on_flt E uid data st).
Proof.
  unfold on_flt.
  destruct (str_splitn ":" 2 data) as [|? [|step [|value [|? ?]]]];
    try apply keeps_raise.
  keeps_steps.
  destruct (_ <? _)%nat; keeps_steps.
Qed.

Lemma keeps_on_callback E uid data : keeps uid None (on_callback E uid data).
Proof.
  unfold on_callback.
  apply keeps_bind; [apply keeps_tg|]. intros _.
  apply keeps_get_world. intros w.
  repeat match goal with |- keeps_at _ _ (if ?b then _ else _) _ => destruct b end;
    repeat match goal with
      |- keeps_at _ _ (match ?o with _ => _ end) _ => destruct o end;
    try apply keeps_ret; try apply keeps_on_flt.
  - apply keeps_all. unfold on_pl_new. keeps_steps.
  - apply keeps_all. unfold on_pl_show. apply keeps_bind; [apply keeps_int_of|]. intros pid.
    apply keeps_get_world. intros w1.
    destruct (db w1 !! pid); apply keeps_all; keeps_steps.
  - apply keeps_all. unfold on_pl_del. apply keeps_bind; [apply keeps_int_of|]. intros pid.
    apply keeps_get_world. intros w1.
    destruct (db w1 !! pid) as [p|] eqn:Hp; [|apply keeps_tg].
    case_bool_decide as Hu; [|apply keeps_tg].
    apply keeps_at_bind; [|intros _; apply keeps_tg].
    intros O H. by apply (apart_delete uid O None w1 pid p).
  - apply keeps_all. unfold on_cat. apply keeps_bind; [apply keeps_index|]. intros slug.
    destruct (CATEGORY_TOKENS !! slug); keeps_steps.
  - apply keeps_all. unfold on_city. keeps_steps.
  - apply keeps_all. unfold on_dist. keeps_steps.
Qed.

(** X14. Whatever callbacks user [uid] sends, in whatever order and
    with whatever data, the sessions and the playlists of the other
    users stay exactly as they were, seen lists included; this holds in
    every state whose id counter is above the stored ids, and such a
    state is reached again. *)
Theorem callbacks_spare_the_others E uid datas w :
  ids_below_counter w →
  others uid (run_callbacks E uid datas w) = others uid w
  ∧ ids_below_counter (run_callbacks E uid datas w).
Proof.
  revert w. induction datas as [|data datas IH]; intros w Hw; [done|].
  rewrite run_callbacks_cons.
  destruct (keeps_on_callback E uid data w (others uid w)) as (Ho & Hi & _).
  { by repeat split. }
  destruct (IH _ Hi) as [Ho' Hi']. split; [congruence|done].
Qed.

Lemma callbacks_spare_the_others_witness :
  others 8
    (run_callbacks (sample_env fresh_items (λ _, true)) 8
       ["pl:del:1"; "cat:car"; "city:tehran"; "dist:__ALL__";
        "flt:mileage:0-50000"; "flt:year:1390-1395"; "flt:price:any"]
       sample_world)
  = others 8 sample_world
  ∧ ids_below_counter
      (run_callbacks (sample_env fresh_items (λ _, true)) 8
         ["pl:del:1"; "cat:car"; "city:tehran"; "dist:__ALL__";
          "flt:mileage:0-50000"; "flt:year:1390-1395"; "flt:price:any"]
         sample_world).
Proof.
  apply (callbacks_spare_the_others (sample_env fresh_items (λ _, true)) 8).
  intros i [row Hrow].
  change (db sample_world) with ({[1 := sample_playlist]} : gmap Z Playlist) in Hrow.
  apply lookup_singleton_Some in Hrow as [<- _].
  simpl. lia.
Defined.

(** ** Playlist ids in callback data *)

Lemma digit_of_char x :
  (x < 10)%N →
  digit_of (pretty.pretty_N_char x) = Some (Z.of_N x)
  ∧ is_space (pretty.pretty_N_char x) = false
  ∧ Ascii.eqb (pretty.pretty_N_char x) ":" = false
  ∧ pretty.pretty_N_char x ≠ "-"%char ∧ pretty.pretty_N_char x ≠ "+"%char
  ∧ (N_of_ascii (pretty.pretty_N_char x) <? 128)%N = true.
Proof.
  intros H. rewrite <- (N2Nat.id x).
  assert (N.to_nat x < 10)%nat as Hn by lia. revert Hn.
  generalize (N.to_nat x). intros n Hn.
  do 10 (destruct n as [|n]; [by vm_compute|]). lia.
Qed.

(** Reading the digits of [x] written in front of [s]. *)
Lemma int_digits_go x :
  (0 < x)%N →
  ∃ k : nat, ∀ acc b s,
    int_digits acc b (pretty.pretty_N_go x s)
    = int_digits (acc * 10 ^ Z.of_nat k + Z.of_N x) true s.
Proof.
  induction (N.lt_wf_0 x) as [x _ IH]. intros Hx.
  destruct (digit_of_char (x `mod` 10)) as [Hd _]; [by apply N.mod_lt|].
  pose proof (N.div_mod x 10 ltac:(done)) as Hdm.
  destruct (N.eq_0_gt_0_cases (x `div` 10)) as [H0|Hpos].
  - exists 1%nat. intros acc b s. rewrite pretty.pretty_N_go_step by done.
    rewrite H0, pretty.pretty_N_go_0. simpl. rewrite Hd. f_equal. lia.
  - destruct (IH (x `div` 10)%N) as [k Hk]; [by apply N.div_lt|done|].
    exists (S k). intros acc b s.
    rewrite pretty.pretty_N_go_step by done. rewrite Hk.
    simpl. rewrite Hd. f_equal.
    rewrite Nat2Z.inj_succ, Z.pow_succ_r by lia. lia.
Qed.

(** The text of a positive number starts with a digit. *)
Lemma go_head x s :
  (0 < x)%N →
  ∃ d r, (d < 10)%N ∧ pretty.pretty_N_go x s = String (pretty.pretty_N_char d) r.
Proof.
  revert s. induction (N.lt_wf_0 x) as [x _ IH]. intros s Hx.
  rewrite pretty.pretty_N_go_step by done.
  destruct (N.eq_0_gt_0_cases (x `div` 10)) as [H0|Hpos].
  - rewrite H0, pretty.pretty_N_go_0. exists (x `mod` 10)%N, s.
    split; [by apply N.mod_lt|done].
  - apply IH; [by apply N.div_lt|done].
Qed.

Lemma rstrip_cons c s :
  is_space c = false → rstrip s = s → rstrip (String c s) = String c s.
Proof. intros Hc Hs. simpl. rewrite Hs, Hc. by destruct s. Qed.

Lemma rstrip_go x s : rstrip s = s → rstrip (pretty.pretty_N_go x s) = pretty.pretty_N_go x s.
Proof.
  revert s. induction (N.lt_wf_0 x) as [x _ IH]. intros s Hs.
  destruct (N.eq_0_gt_0_cases x) as [->|Hx]; [done|].
  rewrite pretty.pretty_N_go_step by done.
  apply IH; [by apply N.div_lt|]. apply rstrip_cons; [|done].
  by destruct (digit_of_char (x `mod` 10)) as (_ & ? & _); [by apply N.mod_lt|].
Qed.

Lemma no_colon_go x s :
  str_contains ":" s = false → str_contains ":" (pretty.pretty_N_go x s) = false.
Proof.
  revert s. induction (N.lt_wf_0 x) as [x _ IH]. intros s Hs.
  destruct (N.eq_0_gt_0_cases x) as [->|Hx]; [done|].
  rewrite pretty.pretty_N_go_step by done.
  apply IH; [by apply N.div_lt|]. simpl.
  by destruct (digit_of_char (x `mod` 10)) as (_ & _ & -> & _); [by apply N.mod_lt|].
Qed.

Lemma py_str_pos p : py_str (Z.pos p) = pretty.pretty_N_go (N.pos p) "".
Proof. done. Qed.

Lemma py_str_neg p : py_str (Z.neg p) = String "-" (pretty.pretty_N_go (N.pos p) "").
Proof. done. Qed.

Lemma to_ascii_cons c s :
  (N_of_ascii c <? 128)%N = true →
  to_ascii (String c s) = String c <$> to_ascii s.
Proof. intros Hc. simpl. by rewrite Hc. Qed.

(** Digits are ASCII already. *)
Lemma to_ascii_go x s :
  to_ascii s = Some s →
  to_ascii (pretty.pretty_N_go x s) = Some (pretty.pretty_N_go x s).
Proof.
  revert s. induction (N.lt_wf_0 x) as [x _ IH]. intros s Hs.
  destruct (N.eq_0_gt_0_cases x) as [->|Hx]; [done|].
  rewrite pretty.pretty_N_go_step by done.
  apply IH; [by apply N.div_lt|]. rewrite to_ascii_cons, Hs; [done|].
  by destruct (digit_of_char (x `mod` 10)) as (_ & _ & _ & _ & _ & ?);
    [by apply N.mod_lt|].
Qed.

Lemma parse_long_digits t d r :
  (d < 10)%N → t = String (pretty.pretty_N_char d) r → rstrip t = t →
  parse_long t = int_digits 0 false t.
Proof.
  intros Hd -> Hr. unfold parse_long.
  destruct (digit_of_char d Hd) as (_ & Hsp & _ & Hm & Hp & _).
  simpl lstrip. rewrite Hsp, Hr.
  destruct (pretty.pretty_N_char d) as [[] [] [] [] [] [] [] []]; done.
Qed.

(** [int(str(n)) == n] *)
Lemma py_int_py_str z : py_int (py_str z) = Some z.
Proof.
  unfold py_int. destruct z as [|p|p]; [done| |].
  - rewrite py_str_pos, to_ascii_go by done. simpl mbind.
    destruct (go_head (N.pos p) "") as (d & r & Hd & Ht); [done|].
    rewrite (parse_long_digits _ d r) by (done || by apply rstrip_go).
    destruct (int_digits_go (N.pos p)) as [k ->]; [done|]. done.
  - rewrite py_str_neg, to_ascii_cons, to_ascii_go by done. simpl mbind.
    unfold parse_long.
    change (lstrip (String "-" ?t)) with (String "-" t).
    rewrite rstrip_cons by (done || by apply rstrip_go).
    destruct (int_digits_go (N.pos p)) as [k ->]; [done|]. done.
Qed.

Lemma py_str_no_colon z : str_contains ":" (py_str z) = false.
Proof.
  destruct z as [|p|p]; [done| |].
  - rewrite py_str_pos. by apply no_colon_go.
  - rewrite py_str_neg. simpl. by apply no_colon_go.
Qed.

Lemma str_split_pl_show arg :
  str_contains ":" arg = false →
  str_split ":" ("pl:show:" +:+ arg) = ["pl"; "show"; arg].
Proof.
  intros Ha. unfold str_split.
  change ("pl:show:" +:+ arg) with ("pl" +:+ String ":" ("show" +:+ String ":" arg)).
  destruct (String.length _) as [|[|n]] eqn:Hlen; [done|done|].
  by rewrite !str_splitn_app, str_splitn_whole.
Qed.

Lemma on_callback_pl_show E uid arg w :
  tg_accepts E (AnswerCallback uid) = true →
  on_callback E uid ("pl:show:" +:+ arg) w
  = on_pl_show E uid ("pl:show:" +:+ arg) (push_outbox (AnswerCallback uid) w).
Proof.
  intros Hack. unfold on_callback, mbind at 1, M_bind at 1.
  rewrite tg_unfold, Hack.
  change (startswith "pl:new" ("pl:show:" +:+ arg)) with false.
  by rewrite (startswith_app "pl:show:" arg).
Qed.

(** X15. The summary of a stored playlist is shown to whoever sends
    its id: the [pl:show:] branch does not look at the owner.  It
    changes nothing and offers one button; the data of that button is
    read back to the same id, and pressing it removes the playlist when
    the user owns it and leaves the database alone otherwise. *)
Theorem show_then_delete E uid pid p w :
  tg_accepts E (AnswerCallback uid) = true →
  tg_accepts E (EditText uid (Summary p)) = true →
  tg_accepts E (EditReplyMarkup uid (KbDelete pid)) = true →
  db w !! pid = Some p → p_id p = pid →
  extends w (on_callback E uid ("pl:show:" +:+ py_str pid) w).2
    [AnswerCallback uid; EditText uid (Summary p);
     EditReplyMarkup uid (KbDelete pid)]
  ∧ ∀ data, data ∈ offered (KbDelete pid) →
      db (on_callback E uid data
            (on_callback E uid ("pl:show:" +:+ py_str pid) w).2).2
      = if bool_decide (p_user_id p = uid) then delete pid (db w) else db w.
Proof.
  intros Hack Htext Hkb Hp Hid.
  assert (Hshow : (on_callback E uid ("pl:show:" +:+ py_str pid) w).2
    = push_outbox (EditReplyMarkup uid (KbDelete pid))
        (push_outbox (EditText uid (Summary p))
           (push_outbox (AnswerCallback uid) w))).
  { rewrite on_callback_pl_show by done. unfold on_pl_show.
    rewrite str_split_pl_show by apply py_str_no_colon.
    simpl last. simpl default. unfold int_of. rewrite py_int_py_str.
    unfold mbind, M_bind, mret, M_ret, get_world. simpl. rewrite Hp, Hid.
    rewrite tg_unfold, Htext. simpl. rewrite tg_unfold, Hkb. done. }
  rewrite Hshow. split.
  - repeat split. simpl. by rewrite <- !app_assoc.
  - intros data Hdata. change (data ∈ ["pl:del:" +:+ py_str pid]) in Hdata.
    apply list_elem_of_singleton in Hdata as ->.
    rewrite on_callback_pl_del by done. unfold on_pl_del.
    rewrite str_split_pl_del by apply py_str_no_colon.
    simpl last. simpl default. unfold int_of. rewrite py_int_py_str.
    unfold mbind, M_bind, mret, M_ret, get_world, modify. simpl. rewrite Hp.
    case_bool_decide; simpl; tg_cases E; done.
Qed.

Lemma show_then_delete_witness :
  extends sample_world
    (on_callback (sample_env [] (λ _, true)) 8 ("pl:show:" +:+ py_str 1)
       sample_world).2
    [AnswerCallback 8; EditText 8 (Summary sample_playlist);
     EditReplyMarkup 8 (KbDelete 1)]
  ∧ ∀ data, data ∈ offered (KbDelete 1) →
      db (on_callback (sample_env [] (λ _, true)) 8 data
            (on_callback (sample_env [] (λ _, true)) 8
               ("pl:show:" +:+ py_str 1) sample_world).2).2
      = if bool_decide (p_user_id sample_playlist = 8)
        then delete 1 (db sample_world) else db sample_world.
Proof.
  apply (show_then_delete (sample_env [] (λ _, true)) 8 1 sample_playlist
           sample_world); reflexivity.
Defined.

(** ** What the keyboards offer *)

Lemma cities_rows_concat items temp :
  concat (cities_rows items temp)
  = temp ++ ((λ it : string * city_info,
                ("🏙️ " +:+ info_title it.2, "city:" +:+ it.1)) <$> items).
Proof.
  revert temp. induction items as [|[slug info] rest IH]; intros temp; simpl.
  - destruct temp; simpl; by rewrite ?app_nil_r.
  - destruct (_ =? 3)%nat; simpl; rewrite IH; simpl; by rewrite <- app_assoc.
Qed.

Lemma districts_rows_concat dist temp :
  concat (districts_rows dist temp)
  = temp ++ ((λ d : string, (d, "dist:" +:+ d)) <$> dist).
Proof.
  revert temp. induction dist as [|d rest IH]; intros temp; simpl.
  - destruct temp; simpl; by rewrite ?app_nil_r.
  - destruct (_ =? 3)%nat; simpl; rewrite IH; simpl; by rewrite <- app_assoc.
Qed.

Lemma districts_no_colon city d :
  d ∈ districts_of city → str_contains ":" d = false.
Proof.
  unfold districts_of.
  destruct (_ !! city) as [info|] eqn:Hinfo; [|by intros ?%elem_of_nil].
  apply elem_of_list_to_map_2 in Hinfo.
  assert (Hall : Forall (λ it : string * city_info,
            Forall (λ d, str_contains ":" d = false) (info_districts it.2))
            list_cities).
  { apply (bool_decide_unpack _). by vm_compute. }
  rewrite Forall_forall in Hall. specialize (Hall _ Hinfo).
  rewrite Forall_forall in Hall. apply Hall.
Qed.

(** X16. What the three table keyboards offer.  The category keyboard
    offers [cat:] with each category of the catalogue, in its order;
    the city keyboard offers [city:] with each key of [CITIES]; the
    district keyboard of a city offers [dist:] with each of its
    districts and, last, [dist:__ALL__], which is all it offers for a
    city that is not in the table.  None of the offered arguments has a
    colon in it, so the handlers read each of them back whole. *)
Theorem keyboards_offer :
  offered KbCategories = (String.append "cat:") <$> CATEGORY_FLOWS_items.*1
  ∧ offered KbCities = (String.append "city:") <$> list_cities.*1
  ∧ (∀ city, offered (KbDistricts city)
             = ((String.append "dist:") <$> districts_of city) ++ ["dist:__ALL__"])
  ∧ (∀ slug, slug ∈ CATEGORY_FLOWS_items.*1 → str_contains ":" slug = false)
  ∧ (∀ city, city ∈ list_cities.*1 → str_contains ":" city = false)
  ∧ (∀ city d, d ∈ districts_of city → str_contains ":" d = false)
  ∧ ∀ city data, data ∈ offered (KbDistricts city) →
      str_split ":" data = ["dist"; "__ALL__"]
      ∨ ∃ d, d ∈ districts_of city ∧ str_split ":" data = ["dist"; d].
Proof.
  assert (Hdist : ∀ city, offered (KbDistricts city)
             = ((String.append "dist:") <$> districts_of city) ++ ["dist:__ALL__"]).
  { intros city. unfold offered, inline_rows, districts_keyboard.
    rewrite concat_app, districts_rows_concat, fmap_app. simpl.
    f_equal. rewrite <- list_fmap_compose. by apply list_fmap_ext. }
  split; [done|]. split; [done|]. split; [done|].
  split; [|split; [|split; [apply districts_no_colon|]]].
  - apply Forall_forall, (bool_decide_unpack _). by vm_compute.
  - apply Forall_forall, (bool_decide_unpack _). by vm_compute.
  - intros city data. rewrite Hdist, elem_of_app, list_elem_of_singleton.
    intros [Hd| ->]; [|by left].
    apply list_elem_of_fmap in Hd as (d & -> & Hd). right. exists d.
    split; [done|]. apply (str_split_tagged "dist" d); [done|].
    by eapply districts_no_colon.
Qed.

Lemma keyboards_offer_witness :
  str_split ":" ("dist:" +:+ "ری") = ["dist"; "__ALL__"]
  ∨ ∃ d, d ∈ districts_of "tehran"
         ∧ str_split ":" ("dist:" +:+ "ری") = ["dist"; d].
Proof.
  apply (proj2 (proj2 (proj2 (proj2 (proj2 (proj2 keyboards_offer)))))).
  apply (bool_decide_unpack _). by vm_compute.
Defined.

(** ** The pictures of the detail endpoint *)

Lemma walk_obj_cons k v rest :
  walk (JObj ((k, v) :: rest)) = picture k v ++ walk v ++ walk (JObj rest).
Proof. done. Qed.

Lemma walk_arr_cons x rest : walk (JArr (x :: rest)) = walk x ++ walk (JArr rest).
Proof. done. Qed.

Lemma elem_of_picture u k v :
  u ∈ picture k v
  ↔ v = JStr u ∧ (k = "url" ∨ k = "src")
    ∧ startswith "http" u = true ∧ is_image u = true.
Proof.
  unfold picture. destruct v as [| | |s| |];
    try (split; [by intros ?%elem_of_nil|by intros [? _]]).
  destruct ((String.eqb k "url" || String.eqb k "src")
            && startswith "http" s && is_image s) eqn:Hc.
  - apply andb_true_iff in Hc as [Hc Hi]. apply andb_true_iff in Hc as [Hk Hs].
    apply orb_true_iff in Hk. rewrite !String.eqb_eq in Hk.
    rewrite list_elem_of_singleton. split; [by intros ->|by intros [[= ->] _]].
  - split; [by intros ?%elem_of_nil|]. intros ([= ->] & Hk & Hs & Hi).
    rewrite Hs, Hi in Hc. by destruct Hk as [->| ->].
Qed.

Lemma walk_obj_incl k v items x :
  (k, v) ∈ items → x ∈ picture k v ++ walk v → x ∈ walk (JObj items).
Proof.
  intros Hin Hx. induction items as [|[k' v'] rest IH]; [by apply elem_of_nil in Hin|].
  rewrite walk_obj_cons. apply elem_of_cons in Hin as [[= <- <-]|Hin].
  - rewrite app_assoc. apply elem_of_app. by left.
  - rewrite !elem_of_app. right. right. by apply IH.
Qed.

Lemma walk_arr_incl d xs x : d ∈ xs → x ∈ walk d → x ∈ walk (JArr xs).
Proof.
  intros Hin Hx. induction xs as [|d' rest IH]; [by apply elem_of_nil in Hin|].
  rewrite walk_arr_cons, elem_of_app. apply elem_of_cons in Hin as [<-|Hin].
  - by left.
  - right. by apply IH.
Qed.

Lemma pictured_walk u d : pictured u d → u ∈ walk d.
Proof.
  induction 1 as [items k Hin Hk Hs Hi|items k v Hin _ IH|xs x Hin _ IH].
  - apply (walk_obj_incl k (JStr u)); [done|]. rewrite elem_of_app. left.
    by apply elem_of_picture.
  - apply (walk_obj_incl k v); [done|]. rewrite elem_of_app. by right.
  - by apply (walk_arr_incl x).
Qed.

Lemma walk_pictured u : ∀ d, u ∈ walk d → pictured u d.
Proof.
  fix IH 1. intros [| | | |xs|items]; try (by intros ?%elem_of_nil).
  - induction xs as [|x rest IHxs]; [by intros ?%elem_of_nil|].
    rewrite walk_arr_cons, elem_of_app. intros [H|H].
    + apply (pictured_item u _ x); [by left|by apply IH].
    + apply IHxs in H. inversion H as [| |? y Hy Hp]; subst.
      apply (pictured_item u _ y); [by right|done].
  - induction items as [|[k v] rest IHitems]; [by intros ?%elem_of_nil|].
    rewrite walk_obj_cons, !elem_of_app. intros [H|[H|H]].
    + apply elem_of_picture in H as (-> & Hk & Hs & Hi).
      apply (pictured_here u _ k); [by left|done..].
    + apply (pictured_below u _ k v); [by left|by apply IH].
    + apply IHitems in H.
      inversion H as [? k' Hin Hk Hs Hi|? k' v' Hin Hp|]; subst.
      * apply (pictured_here u _ k'); [by right|done..].
      * apply (pictured_below u _ k' v'); [by right|done].
Qed.

Lemma pictured_url u d :
  pictured u d → startswith "http" u = true ∧ is_image u = true.
Proof. by induction 1. Qed.

Lemma first_answer_two get u1 u2 :
  first_answer get [u1; u2]
  = match get u1 with Some data => Some data | None => get u2 end.
Proof. simpl. by destruct (get u1), (get u2). Qed.

(** X17. The pictures [fetch_details] returns.  They come from the
    body of the first of the two addresses that answers with status 200
    and JSON; the body is not empty; a link is among them exactly when
    it is the text under a [url] or [src] key of some object of the
    document, at any depth, starts with [http] and ends, whatever the
    case of its letters, in one of the four picture extensions; and no
    link comes twice. *)
Theorem fetch_details_images get token images :
  fetch_details_from get token = Some images →
  ∃ data,
    (get ("https://api.divar.ir/v8/posts-v2/" +:+ token +:+ "/") = Some data
     ∨ get ("https://api.divar.ir/v8/posts-v2/" +:+ token +:+ "/") = None
       ∧ get ("https://api.divar.ir/v8/posts/" +:+ token +:+ "/") = Some data)
    ∧ jtruthy data = true
    ∧ NoDup images
    ∧ (∀ u, u ∈ images ↔ pictured u data)
    ∧ ∀ u, u ∈ images → startswith "http" u = true ∧ is_image u = true.
Proof.
  unfold fetch_details_from, detail_urls. rewrite first_answer_two.
  intros H.
  assert (∃ data,
    (get ("https://api.divar.ir/v8/posts-v2/" +:+ token +:+ "/") = Some data
     ∨ get ("https://api.divar.ir/v8/posts-v2/" +:+ token +:+ "/") = None
       ∧ get ("https://api.divar.ir/v8/posts/" +:+ token +:+ "/") = Some data)
    ∧ jtruthy data = true ∧ images = dict_fromkeys (walk data))
    as (data & Hget & Ht & ->).
  { destruct (get ("https://api.divar.ir/v8/posts-v2/" +:+ token +:+ "/"))
      as [data|] eqn:H1.
    - destruct (jtruthy data) eqn:Ht; [|done]. injection H as <-.
      exists data. auto.
    - destruct (get ("https://api.divar.ir/v8/posts/" +:+ token +:+ "/"))
        as [data|] eqn:H2; [|done].
      destruct (jtruthy data) eqn:Ht; [|done]. injection H as <-.
      exists data. auto. }
  exists data. rewrite dict_fromkeys_dedupe.
  assert (Hmem : ∀ u, u ∈ dedupe (walk data) ↔ pictured u data).
  { intros u. rewrite elem_of_dedupe. split; [apply walk_pictured|apply pictured_walk]. }
  split; [done|]. split; [done|]. split; [apply NoDup_dedupe|].
  split; [done|]. intros u Hu. apply Hmem in Hu. by apply pictured_url in Hu.
Qed.

Lemma fetch_details_images_witness :
  ∃ data,
    (sample_endpoint ("https://api.divar.ir/v8/posts-v2/" +:+ "tok" +:+ "/")
       = Some data
     ∨ sample_endpoint ("https://api.divar.ir/v8/posts-v2/" +:+ "tok" +:+ "/")
         = None
       ∧ sample_endpoint ("https://api.divar.ir/v8/posts/" +:+ "tok" +:+ "/")
         = Some data)
    ∧ jtruthy data = true
    ∧ NoDup ["http://x/a.JPG"]
    ∧ (∀ u, u ∈ ["http://x/a.JPG"] ↔ pictured u data)
    ∧ ∀ u, u ∈ ["http://x/a.JPG"] →
        startswith "http" u = true ∧ is_image u = true.
Proof.
  apply (fetch_details_images sample_endpoint "tok" ["http://x/a.JPG"]).
  reflexivity.
Defined.

(** ** The album of a delivery *)

Lemma gallery_cases get E x images :
  gallery (with_details get E) x images = images
  ∨ (length images < 2)%nat
    ∧ gallery (with_details get E) x images ≠ []
    ∧ ∃ token, post_id x = Some token
        ∧ fetch_details_from get token
          = Some (gallery (with_details get E) x images).
Proof.
  unfold gallery.
  destruct (truthy (post_url x) && (length images <? 2)%nat && truthy (post_id x))
    eqn:Hc; [|by left].
  apply andb_true_iff in Hc as [Hc _]. apply andb_true_iff in Hc as [_ Hlen].
  apply Nat.ltb_lt in Hlen.
  destruct (post_id x) as [token|]; [|by left]. simpl.
  destruct (fetch_details_from get token) as [[|g gal]|] eqn:Hf; simpl;
    [by left| |by left].
  right. split; [done|]. split; [done|]. by exists token.
Qed.

Lemma send_post_album E chat x w :
  ∃ g, extends w (send_post E chat x w).2 g
       ∧ ∀ chat' y media, SendMediaGroup chat' y media ∈ g →
           media = take 9 (gallery E x
                             (filter (λ u, nonempty u = true) (post_images x))).
Proof.
  unfold send_post.
  destruct (gallery E x _) as [|first others].
  - rewrite tg_unfold. destruct (tg_accepts E _).
    + eexists [_]. split; [extends_list|]. intros chat' y media Hin.
      by apply list_elem_of_singleton in Hin.
    + exists []. split; [extends_list|]. by intros chat' y media Hin%elem_of_nil.
  - unfold try_except, mbind, M_bind. rewrite tg_unfold.
    assert (Hmedia : ∀ (l : list tg_call) chat' y media,
      SendMediaGroup chat' y media ∈ l →
      Forall (λ c, match c with
                   | SendMediaGroup _ _ m => m = first :: take 8 others
                   | _ => True
                   end) l →
      media = take 9 (first :: others)).
    { intros l chat' y media Hin Hall. rewrite Forall_forall in Hall.
      by apply (Hall _ Hin). }
    destruct (tg_accepts E (SendMediaGroup _ _ _)).
    + destruct (url_button x) as [u|].
      * rewrite tg_unfold. destruct (tg_accepts E (SendMessage _ (Literal _) _ _)).
        -- eexists [_; _]. split; [extends_list|]. intros chat' y media Hin.
           apply (Hmedia _ _ _ _ Hin). by repeat constructor.
        -- rewrite tg_unfold.
           destruct (tg_accepts E (SendMessage _ (Caption _) _ _)).
           ++ eexists [_; _]. split; [extends_list|]. intros chat' y media Hin.
              apply (Hmedia _ _ _ _ Hin). by repeat constructor.
           ++ eexists [_]. split; [extends_list|]. intros chat' y media Hin.
              apply (Hmedia _ _ _ _ Hin). by repeat constructor.
      * eexists [_]. split; [extends_list|]. intros chat' y media Hin.
        apply (Hmedia _ _ _ _ Hin). by repeat constructor.
    + rewrite tg_unfold. destruct (tg_accepts E (SendMessage _ (Caption _) _ _)).
      * eexists [_]. split; [extends_list|]. intros chat' y media Hin.
        by apply list_elem_of_singleton in Hin.
      * exists []. split; [extends_list|]. by intros chat' y media Hin%elem_of_nil.
Qed.

(** X18. The album of a delivery, with the details fetched by
    [fetch_details].  Every album [send_post] sends holds either the
    first nine pictures the post came with, or, when the post came with
    fewer than two, pictures of the detail document: then they are
    pairwise different web addresses that end in a picture extension. *)
Theorem album_pictures get E chat x w :
  ∃ g, extends w (send_post (with_details get E) chat x w).2 g
       ∧ ∀ chat' y media, SendMediaGroup chat' y media ∈ g →
           media = take 9 (filter (λ u, nonempty u = true) (post_images x))
           ∨ (length (filter (λ u, nonempty u = true) (post_images x)) < 2)%nat
             ∧ NoDup media
             ∧ ∀ u, u ∈ media →
                 startswith "http" u = true ∧ is_image u = true.
Proof.
  destruct (send_post_album (with_details get E) chat x w) as (g & Hext & Hg).
  exists g. split; [done|]. intros chat' y media Hin.
  rewrite (Hg _ _ _ Hin).
  destruct (gallery_cases get E x
              (filter (λ u, nonempty u = true) (post_images x)))
    as [->|(Hlen & _ & token & _ & Hf)]; [by left|].
  right. split; [done|].
  destruct (fetch_details_images _ _ _ Hf) as (data & _ & _ & Hnd & _ & Hurl).
  split.
  - eapply sublist_NoDup; [done|apply sublist_take].
  - intros u Hu. apply Hurl. apply elem_of_take in Hu as (i & Hi & _).
    by eapply list_elem_of_lookup_2.
Qed.

(** ** The background loop *)

Lemma guarded_sweep E w :
  (try_except (check_once E) (mret tt) w).1 = Ok tt
  ∧ seen_only w (try_except (check_once E) (mret tt) w).2
  ∧ (seen_bounded w → seen_bounded (try_except (check_once E) (mret tt) w).2).
Proof.
  assert (Hcalm : seen_only w (check_once E w).2).
  { unfold check_once, mbind, M_bind, get_world.
    apply (calm_for_each (check_playlist E) (all_playlists w)).
    apply calm_check_playlist. }
  pose proof (tame_check_once E w) as Htame.
  unfold try_except. destruct (check_once E w) as [[[]|e] w1]; by simpl in *.
Qed.

(** X19. The background loop goes on whatever happens.  After any
    number of turns, with any answers of the provider and of Telegram,
    it has not raised; the sessions, the id counter and the criteria of
    every playlist are as at the start, no playlist has appeared or
    gone, and seen lists that held at most 40 identifiers still do. *)
Theorem checker_keeps_running E rounds w :
  (check_new_posts_loop E rounds w).1 = Ok tt
  ∧ seen_only w (check_new_posts_loop E rounds w).2
  ∧ (seen_bounded w → seen_bounded (check_new_posts_loop E rounds w).2).
Proof.
  revert w. induction rounds as [|n IH]; intros w.
  - split; [done|]. split; [apply seen_only_refl|done].
  - change (check_new_posts_loop E (S n) w)
      with ((try_except (check_once E) (mret tt)
             ≫= λ _, check_new_posts_loop E n) w).
    unfold mbind, M_bind.
    destruct (guarded_sweep E w) as (Hok & Hs & Hb).
    destruct (try_except (check_once E) (mret tt) w) as [[[]|e] w1];
      simpl in *; [|done].
    destruct (IH w1) as (Hok' & Hs' & Hb').
    split; [done|]. split; [|auto].
    apply (seen_only_trans w w1); [apply Hs|apply Hs'].
Qed.

Lemma checker_keeps_running_witness :
  seen_bounded
    (check_new_posts_loop (sample_env fresh_items (refuse_post "e")) 3
       sample_world).2.
Proof.
  apply (checker_keeps_running (sample_env fresh_items (refuse_post "e")) 3
           sample_world).
  intros i row Hrow.
  change (db sample_world) with ({[1 := sample_playlist]} : gmap Z Playlist) in Hrow.
  apply lookup_singleton_Some in Hrow as [_ <-]. simpl. lia.
Defined.

(** ** The age of a post *)

(** X20. The age [humanize_age] shows, for a timestamp that is not in
    the future.  It is the age rounded down to whole units, the unit
    being seconds below a minute, minutes below an hour, hours below a
    day and days from then on: so the number shown is never 0 except
    for less than a second, is below 60 for seconds and minutes and
    below 24 for hours. *)
Theorem humanize_age_rounds_down s :
  0 ≤ s →
  ∃ n unit word,
    (unit, word) ∈ age_units
    ∧ humanize_age (Some s) = py_str n +:+ word
    ∧ n * unit ≤ s < (n + 1) * unit
    ∧ (unit = 1 ∧ s < 60
       ∨ unit = 60 ∧ 1 ≤ n < 60
       ∨ unit = 3600 ∧ 1 ≤ n < 24
       ∨ unit = 86400 ∧ 1 ≤ n).
Proof.
  intros Hs. unfold humanize_age, age_units.
  destruct (Z.ltb_spec s 60) as [H1|H1].
  { exists s, 1, " ثانیه پیش". split; [by left|]. split; [done|]. lia. }
  pose proof (Z.div_mod s 60 ltac:(lia)) as Hm.
  pose proof (Z.mod_pos_bound s 60 ltac:(lia)) as Hm'.
  destruct (Z.ltb_spec (s `div` 60) 60) as [H2|H2].
  { exists (s `div` 60), 60, " دقیقه پیش".
    split; [right; by left|]. split; [done|]. lia. }
  pose proof (Z.div_mod (s `div` 60) 60 ltac:(lia)) as Hh.
  pose proof (Z.mod_pos_bound (s `div` 60) 60 ltac:(lia)) as Hh'.
  destruct (Z.ltb_spec ((s `div` 60) `div` 60) 24) as [H3|H3].
  { exists ((s `div` 60) `div` 60), 3600, " ساعت پیش".
    split; [right; right; by left|]. split; [done|]. lia. }
  pose proof (Z.div_mod ((s `div` 60) `div` 60) 24 ltac:(lia)) as Hd.
  pose proof (Z.mod_pos_bound ((s `div` 60) `div` 60) 24 ltac:(lia)) as Hd'.
  exists (((s `div` 60) `div` 60) `div` 24), 86400, " روز پیش".
  split; [right; right; right; by left|]. split; [done|]. lia.
Qed.

Lemma humanize_age_rounds_down_witness :
  ∃ n unit word,
    (unit, word) ∈ age_units
    ∧ humanize_age (Some 7325) = py_str n +:+ word
    ∧ n * unit ≤ 7325 < (n + 1) * unit
    ∧ (unit = 1 ∧ 7325 < 60
       ∨ unit = 60 ∧ 1 ≤ n < 60
       ∨ unit = 3600 ∧ 1 ≤ n < 24
       ∨ unit = 86400 ∧ 1 ≤ n).
Proof. apply (humanize_age_rounds_down 7325). lia. Defined.

(** ** The main menu *)

Lemma elem_of_playlists_of uid w p :
  keyed w →
  p ∈ playlists_of uid w ↔ db w !! p_id p = Some p ∧ p_user_id p = uid.
Proof.
  intros Hk. unfold playlists_of, all_playlists.
  rewrite list_elem_of_filter, list_elem_of_fmap. split.
  - intros [Hu ([i q] & -> & Hin)]. rewrite merge_sort_Permutation in Hin.
    apply elem_of_map_to_list in Hin.
    simpl in *. by rewrite (Hk _ _ Hin).
  - intros [Hp Hu]. split; [done|]. exists (p_id p, p).
    split; [done|]. rewrite merge_sort_Permutation.
    by apply elem_of_map_to_list.
Qed.

Lemma offered_rows (label data : Playlist → string) last pls :
  offered (KbInline (((λ p, [(label p, data p)]) <$> pls) ++ [[last]]))
  = (data <$> pls) ++ [last.2].
Proof.
  unfold offered, inline_rows. rewrite concat_app, fmap_app. f_equal.
  induction pls as [|p r IH]; [done|]. simpl. f_equal. apply IH.
Qed.

Lemma show_effect E uid pid p w :
  tg_accepts E (AnswerCallback uid) = true →
  tg_accepts E (EditText uid (Summary p)) = true →
  tg_accepts E (EditReplyMarkup uid (KbDelete (p_id p))) = true →
  db w !! pid = Some p →
  extends w (on_callback E uid ("pl:show:" +:+ py_str pid) w).2
    [AnswerCallback uid; EditText uid (Summary p);
     EditReplyMarkup uid (KbDelete (p_id p))].
Proof.
  intros Hack Htext Hkb Hp.
  rewrite on_callback_pl_show by done. unfold on_pl_show.
  rewrite str_split_pl_show by apply py_str_no_colon.
  simpl last. simpl default. unfold int_of. rewrite py_int_py_str.
  unfold mbind, M_bind, mret, M_ret, get_world. simpl. rewrite Hp.
  rewrite tg_unfold, Htext. simpl. rewrite tg_unfold, Hkb.
  repeat split. simpl. by rewrite <- !app_assoc.
Qed.

Lemma my_playlists_reply accepts uid text w :
  str_in "ساخت پلی‌لیست" text = false →
  str_in "پلی‌لیست‌های من" text = true →
  (∀ r, accepts r = true) →
  ∃ none_yet title label new_label,
    handle_main_buttons accepts uid (Some text) w
    = (Ok tt, w,
       match playlists_of uid w with
       | [] => [Reply none_yet (Markup KbMain)]
       | pls =>
           [Reply title
              (Markup
                 (KbInline
                    (((λ p, [(label p, "pl:show:" +:+ py_str (p_id p))])
                        <$> pls)
                     ++ [[(new_label, "pl:new")]])))]
       end).
Proof.
  intros Hnew Hmine Hacc. unfold handle_main_buttons.
  simpl default. rewrite Hnew, Hmine. do 4 eexists.
  destruct (playlists_of uid w) as [|p0 pls].
  - unfold send_replies. rewrite Hacc. reflexivity.
  - unfold send_replies. rewrite Hacc. cbv zeta. reflexivity.
Qed.

(** X21. The list of [my playlists].  For a message that asks for it,
    the handler changes nothing and sends one reply.  Its keyboard
    offers [pl:show:<id>] for every playlist of the user, and nothing
    else but [pl:new]; each of these callbacks is read back by
    [on_callback] to the playlist it was made for, whose summary and
    delete button it then shows. *)
Theorem my_playlists_round_trip E accepts uid text w :
  str_in "ساخت پلی‌لیست" text = false →
  str_in "پلی‌لیست‌های من" text = true →
  keyed w →
  (∀ r, accepts r = true) →
  (∀ c, tg_accepts E c = true) →
  ∃ replies,
    handle_main_buttons accepts uid (Some text) w = (Ok tt, w, replies)
    ∧ length replies = 1%nat
    ∧ (∀ p, db w !! p_id p = Some p → p_user_id p = uid →
         "pl:show:" +:+ py_str (p_id p)
         ∈ concat (offered <$> keyboards_of replies))
    ∧ ∀ data, data ∈ concat (offered <$> keyboards_of replies) →
        data = "pl:new"
        ∨ ∃ p, db w !! p_id p = Some p ∧ p_user_id p = uid
             ∧ data = "pl:show:" +:+ py_str (p_id p)
             ∧ extends w (on_callback E uid data w).2
                 [AnswerCallback uid; EditText uid (Summary p);
                  EditReplyMarkup uid (KbDelete (p_id p))].
Proof.
  intros Hnew Hmine Hk Hacc Htg.
  destruct (my_playlists_reply accepts uid text w Hnew Hmine Hacc)
    as (none_yet & title & label & new_label & ->).
  pose proof (elem_of_playlists_of uid w) as Hown.
  eexists. split; [reflexivity|].
  destruct (playlists_of uid w) as [|p0 pls] eqn:Hpls.
  - split; [done|]. split.
    + intros p Hp Hu. assert (p ∈ []) as Hin by (by apply (Hown p Hk)).
      by apply elem_of_nil in Hin.
    + by intros data Hin%elem_of_nil.
  - split; [done|].
    change (keyboards_of [Reply ?t (Markup ?kb)]) with [kb].
    change (concat (offered <$> [?kb])) with (offered kb ++ []).
    rewrite app_nil_r, offered_rows. split.
    + intros p Hp Hu. apply elem_of_app. left.
      apply (list_elem_of_fmap_2 (λ q, "pl:show:" +:+ py_str (p_id q))).
      by apply Hown.
    + intros data Hin. apply elem_of_app in Hin as [Hin|Hin].
      * apply list_elem_of_fmap in Hin as (p & -> & Hp).
        apply (Hown p Hk) in Hp as [Hp Hu]. right. exists p.
        split; [done|]. split; [done|]. split; [done|].
        by apply show_effect.
      * apply list_elem_of_singleton in Hin. by left.
Qed.

Lemma my_playlists_round_trip_witness :
  ∃ replies,
    handle_main_buttons (λ _, true) 7 (Some "📂 پلی‌لیست‌های من") two_users
    = (Ok tt, two_users, replies)
    ∧ length replies = 1%nat
    ∧ (∀ p, db two_users !! p_id p = Some p → p_user_id p = 7 →
         "pl:show:" +:+ py_str (p_id p)
         ∈ concat (offered <$> keyboards_of replies))
    ∧ ∀ data, data ∈ concat (offered <$> keyboards_of replies) →
        data = "pl:new"
        ∨ ∃ p, db two_users !! p_id p = Some p ∧ p_user_id p = 7
             ∧ data = "pl:show:" +:+ py_str (p_id p)
             ∧ extends two_users
                 (on_callback (sample_env [] (λ _, true)) 7 data two_users).2
                 [AnswerCallback 7; EditText 7 (Summary p);
                  EditReplyMarkup 7 (KbDelete (p_id p))].
Proof.
  apply (my_playlists_round_trip (sample_env [] (λ _, true)) (λ _, true) 7
           "📂 پلی‌لیست‌های من" two_users); try reflexivity.
  intros i p Hp.
  change (db two_users)
    with (<[1 := sample_playlist]> ({[2 := mashhad_playlist]} : gmap Z Playlist))
    in Hp.
  apply lookup_insert_Some in Hp as [[<- <-]|[_ Hp]]; [done|].
  by apply lookup_singleton_Some in Hp as [<- <-].
Defined.
